(** * Reviewer selection in policy-bot: [reviewer/reviewer.go]

    The file embeds the functions of package [reviewer] that pick the users
    a pull request is sent to for review:

    - [findLeafChildren]     the walk over the evaluation result tree,
    - [selectRandomUsers]    the sampler,
    - [shoveIntoMap], [selectTeamMembers] and [FindRandomRequesters],
      the resolution of a rule into candidates, their filtering and the
      loop over the pending leaves.

    The source file holds the package twice: the current variant (lines
    15-162), whose [FindRandomRequesters] takes the [pull.Context] and the
    [*rand.Rand], and after it an earlier variant (lines 177-394) that
    calls the GitHub client itself and seeds its own source of randomness.
    The functions embedded are those of the current variant, and the line
    numbers in the comments are its lines.

    Go's effects are made explicit: a computation is a function of a
    [World] (the state of the [*rand.Rand], the calls made on the
    [pull.Context] so far, the order in which the runtime will range over
    maps) to an [outcome] and the next [World].  Logging has no influence
    on any result and is left out. *)

From Stdlib Require Import ZArith Ascii String.
From stdpp Require Import gmap strings list fin_maps.

(** ** Errors *)

(** Go's [error] values, as built by [errors.New] and [errors.Wrap]. *)
Inductive error : Type :=
| errorString (msg : string)
| Wrap (cause : error) (msg : string).

#[global] Instance error_eq_dec : EqDecision error.
Proof. solve_decision. Defined.

(** A Go pair [(value, error)] of which the code reads the value only when
    the error is [nil]: the value then, the error otherwise. *)
Inductive result (A : Type) : Type :=
| Ok (a : A)
| Err (err : error).
Arguments Ok {A} a.
Arguments Err {A} err.

(** ** Package [common]: the evaluation result tree *)

Module common.

(** Modelled from the spec: [common.EvaluationStatus], declared in package
    [policy/common]; the spec gives it the four values approved, pending,
    disapproved and skipped. *)
Inductive EvaluationStatus : Type :=
| StatusSkipped
| StatusPending
| StatusApproved
| StatusDisapproved.

(** Modelled from the spec: the reviewer specification of a rule, declared
    in package [policy/common]: explicit users, team references
    ([org/team-slug]), organizations, the two collaborator flags and the
    required count (a Go [int]). *)
Record Rule : Type := mkRule {
  Users : list string;
  Teams : list string;
  Organizations : list string;
  Admins : bool;
  WriteCollaborators : bool;
  RequiredCount : Z
}.

(** Modelled from the spec: [common.Result], declared in package
    [policy/common]: status, optional error, the rule, and the ordered
    children.  [Children] is a slice of pointers in Go; the tree is taken
    to be finite and without nil children. *)
#[warnings="-register-all"]
Inductive Result : Type := mkResult {
  Status : EvaluationStatus;
  Error : option error;
  ReviewRequestRule : Rule;
  Children : list Result
}.

(** Modelled from the spec: the permission levels of package
    [policy/common] that [FindRandomRequesters] compares with; the earlier
    variant of the file passes the same two levels as the literals below. *)
Definition GithubAdminPermission : string := "admin".
Definition GithubWritePermission : string := "write".

End common.
Export common.

#[global] Instance EvaluationStatus_eq_dec : EqDecision EvaluationStatus.
Proof. solve_decision. Defined.

(** ** [findLeafChildren] (lines 30-44) *)

Fixpoint findLeafChildren (result : Result) : list Result :=
  match Children result with
  | [] =>
      if bool_decide (Status result = StatusPending ∧ Error result = None)
      then [result]
      else []
  | children =>
      (fix range (cs r : list Result) {struct cs} : list Result :=
         match cs with
         | [] => r
         | c :: cs' =>
             range cs'
               (if bool_decide (Status c = StatusPending)
                then r ++ findLeafChildren c
                else r)
         end) children []
  end.

(** ** Package [pull]: the pull request context *)

Module pull.

(** The calls of [FindRandomRequesters] on the context that reach the
    directory service. *)
Inductive Call : Type :=
| ListTeamMembersCall (org team : string)
| ListOrganizationMembersCall (org : string)
| ListRepositoryCollaboratorsCall.

(** Modelled from the spec: the interface [pull.Context], declared in
    package [pull].  The answer to a listing may depend on the calls made
    before it (most recent first), so that a listing can succeed for one
    leaf and fail for the next; a snapshot of the directory is a context
    whose answers ignore that history.  A listing of members answers with
    the Go pair [(members, err)], and nothing in the interface ties the
    slice to the error: an implementation may hand back, next to its
    error, the members it has read so far.  The collaborators map an
    identity to its permission level; the map next to an error is never
    read (lines 121-124), so that this answer is a [result]. *)
Record Context : Type := mkContext {
  author : string;
  teamMembers : list Call → string → string → list string * option error;
  organizationMembers : list Call → string → list string * option error;
  repositoryCollaborators : list Call → result (gmap string string)
}.

End pull.
Export pull.

#[global] Instance Call_eq_dec : EqDecision Call.
Proof. solve_decision. Defined.

(** ** Computations *)

(** The ways the code stops a goroutine: the explicit [panic] of
    [selectRandomUsers], an index out of range, [Intn] of a bound that is
    not positive. *)
Inductive panic : Type :=
| UnableToSelectRandomValue (n : Z) (len : nat)
| IndexOutOfRange (i len : nat)
| InvalidIntnArgument.

(** [rand]: the values the coming calls of [r.Intn] draw before the
    reduction to the bound, and 0 once they are used up;
    [calls]: the calls made on the context, most recent first;
    [rangeSeeds]: for each coming [range] over a map whose order of
    iteration matters, the seed that fixes the order the Go runtime picks. *)
Record World : Type := mkWorld {
  rand : list nat;
  calls : list Call;
  rangeSeeds : list (list nat)
}.

Inductive outcome (A : Type) : Type :=
| Done (a : A)
| Panicked (p : panic)
| OutOfFuel.
Arguments Done {A} a.
Arguments Panicked {A} p.
Arguments OutOfFuel {A}.

Definition Go (A : Type) : Type := World → outcome A * World.

#[global] Instance Go_ret : MRet Go := λ A a w, (Done a, w).

#[global] Instance Go_bind : MBind Go := λ A B f m w,
  match m w with
  | (Done a, w') => f a w'
  | (Panicked p, w') => (Panicked p, w')
  | (OutOfFuel, w') => (OutOfFuel, w')
  end.

Definition raise {A : Type} (p : panic) : Go A := λ w, (Panicked p, w).

Definition outOfFuel {A : Type} : Go A := λ w, (OutOfFuel, w).

(** [r.Intn(n)]: a value of [[0, n)], and a panic when [n] is 0. *)
Definition Intn (n : nat) : Go nat := λ w,
  if bool_decide (n = 0) then (Panicked InvalidIntnArgument, w)
  else (Done (hd 0 (rand w) mod n),
        mkWorld (tail (rand w)) (calls w) (rangeSeeds w)).

(** [l[i]] on a slice. *)
Definition index {A : Type} (l : list A) (i : nat) : Go A :=
  match l !! i with
  | Some x => mret x
  | None => raise (IndexOutOfRange i (length l))
  end.

(** The order of one [range] over a map: a permutation of the keys that
    the seed fixes.  The key [x] goes to a position of the keys after it
    that the seed chooses. *)
Fixpoint rangeOrder {A : Type} (seed : list nat) (keys : list A) : list A :=
  match keys with
  | [] => []
  | x :: keys' =>
      let rest := rangeOrder (tail seed) keys' in
      let i := hd 0 seed mod S (length rest) in
      take i rest ++ x :: drop i rest
  end.

(** [for u := range m] over the keys of a map used as a set. *)
Definition rangeKeys (m : gset string) : Go (list string) := λ w,
  (Done (rangeOrder (hd [] (rangeSeeds w)) (elements m)),
   mkWorld (rand w) (calls w) (tail (rangeSeeds w))).

(** The methods of [pull.Context]. *)
Definition Author (prctx : Context) : string := author prctx.

Definition ListTeamMembers (prctx : Context) (org team : string)
  : Go (list string * option error) := λ w,
  (Done (teamMembers prctx (calls w) org team),
   mkWorld (rand w) (ListTeamMembersCall org team :: calls w) (rangeSeeds w)).

Definition ListOrganizationMembers (prctx : Context) (org : string)
  : Go (list string * option error) := λ w,
  (Done (organizationMembers prctx (calls w) org),
   mkWorld (rand w) (ListOrganizationMembersCall org :: calls w) (rangeSeeds w)).

Definition ListRepositoryCollaborators (prctx : Context)
  : Go (result (gmap string string)) := λ w,
  (Done (repositoryCollaborators prctx (calls w)),
   mkWorld (rand w) (ListRepositoryCollaboratorsCall :: calls w) (rangeSeeds w)).

(** ** [selectRandomUsers] (lines 46-75) *)

(** The loop of lines 59-72, entered with [j] draws that met a selected
    index; it yields the index [m] it breaks with.  In this branch
    [0 < n < len(users)], and a slice of strings has fewer than [2^59]
    elements, so that [n*5] does not wrap around. *)
Fixpoint drawUnselected (fuel : nat) (n : Z) (users : list string)
    (selected : gmap nat bool) (j : Z) : Go nat :=
  match fuel with
  | 0 => outOfFuel
  | S fuel' =>
      if bool_decide (j > n * 5)%Z
      then raise (UnableToSelectRandomValue n (length users))
      else
        m ← Intn (length users);
        if default false (selected !! m)
        then drawUnselected fuel' n users selected (j + 1)%Z
        else mret m
  end.

(** The loop of lines 57-73 with [iters] iterations left. *)
Fixpoint selectLoop (iters : nat) (n : Z) (users : list string)
    (selected : gmap nat bool) (selections : list string) : Go (list string) :=
  match iters with
  | 0 => mret selections
  | S iters' =>
      m ← drawUnselected (Z.to_nat (n * 5) + 2) n users selected 0%Z;
      u ← index users m;
      selectLoop iters' n users (<[m := true]> selected) (selections ++ [u])
  end.

Definition selectRandomUsers (n : Z) (users : list string) : Go (list string) :=
  if bool_decide (n = 0)%Z then mret []
  else if bool_decide (n >= Z.of_nat (length users))%Z then mret users
  else selectLoop (Z.to_nat n) n users ∅ [].

(** ** [shoveIntoMap] (lines 77-81) *)

(** The map [m] has the empty struct for values: it is the set of its keys. *)
Definition shoveIntoMap (m : gset string) (u : list string) : gset string :=
  foldl (λ m n, {[n]} ∪ m) m u.

(** ** [selectTeamMembers] (lines 83-91) *)

(** [strings.Split(s, sep)] for a separator of one character. *)
Fixpoint Split (s : string) (sep : ascii) : list string :=
  match s with
  | EmptyString => [EmptyString]
  | String c s' =>
      if bool_decide (c = sep) then EmptyString :: Split s' sep
      else
        match Split s' sep with
        | [] => [String c EmptyString]
        | part :: parts => String c part :: parts
        end
  end.

Definition selectTeamMembers (prctx : Context) (allTeams : list string)
  : Go (result (list string)) :=
  i ← Intn (length allTeams);
  randomTeam ← index allTeams i;
  let teamInfo := Split randomTeam "/" in
  org ← index teamInfo 0;
  team ← index teamInfo 1;
  '(teamMembers, err) ← ListTeamMembers prctx org team;
  match err with
  | Some err =>
      mret (Err (Wrap err ("Unable to get member listing for team " +:+ randomTeam)))
  | None => mret (Ok teamMembers)
  end.

(** ** [FindRandomRequesters] (lines 93-162) *)

(** The slice next to what [selectTeamMembers] returns: nil with an error
    (line 88). *)
Definition members (listing : result (list string)) : list string :=
  match listing with
  | Ok l => l
  | Err _ => []
  end.

(** Lines 104-110: the members of one team of the rule; an error is logged
    and dropped. *)
Definition withTeamMembers (prctx : Context) (rule : Rule)
    (allUsers : gset string) : Go (gset string) :=
  if bool_decide (0 < length (Teams rule)) then
    listing ← selectTeamMembers prctx (Teams rule);
    mret (shoveIntoMap allUsers (members listing))
  else mret allUsers.

(** Lines 112-119: the members of one organization of the rule.  The
    error is logged only: line 118 shoves [orgMembers] as the context
    returned it, whatever [err] is. *)
Definition withOrganizationMembers (prctx : Context) (rule : Rule)
    (allUsers : gset string) : Go (gset string) :=
  if bool_decide (0 < length (Organizations rule)) then
    i ← Intn (length (Organizations rule));
    randomOrg ← index (Organizations rule) i;
    '(orgMembers, err) ← ListOrganizationMembers prctx randomOrg;
    mret (shoveIntoMap allUsers orgMembers)
  else mret allUsers.

(** Lines 128-132 and 138-142: [for _, c := range allCollaboratorPermissions]
    binds [c] to the values of the map, and [allCollaboratorPermissions[c]]
    is the zero value when [c] is not a key.  The slice only goes to
    [shoveIntoMap], which does not depend on its order (see
    [shoveIntoMap_Permutation]), so the order of [map_to_list] stands for
    the order of the runtime. *)
Definition rangeCollaborators (permission : string)
    (allCollaboratorPermissions : gmap string string) : list string :=
  filter (λ c, default "" (allCollaboratorPermissions !! c) = permission)
         (map_to_list allCollaboratorPermissions).*2.

(** Lines 126-144: the collaborators the two flags of the rule ask for. *)
Definition withCollaborators (rule : Rule)
    (allCollaboratorPermissions : gmap string string)
    (allUsers : gset string) : gset string :=
  let allUsers :=
    if Admins rule then
      let repoAdmins :=
        rangeCollaborators GithubAdminPermission allCollaboratorPermissions in
      shoveIntoMap allUsers repoAdmins
    else allUsers in
  if WriteCollaborators rule then
    let repoCollaborators :=
      rangeCollaborators GithubWritePermission allCollaboratorPermissions in
    shoveIntoMap allUsers repoCollaborators
  else allUsers.

(** Lines 101-144: the candidates of one leaf, with the collaborators of
    the repository; the error is the one line 123 returns. *)
Definition candidates (prctx : Context) (rule : Rule)
  : Go (result (gset string * gmap string string)) :=
  let allUsers := shoveIntoMap ∅ (Users rule) in
  allUsers ← withTeamMembers prctx rule allUsers;
  allUsers ← withOrganizationMembers prctx rule allUsers;
  listing ← ListRepositoryCollaborators prctx;
  match listing with
  | Err err => mret (Err (Wrap err "Unable to list repository collaborators"))
  | Ok allCollaboratorPermissions =>
      mret (Ok (withCollaborators rule allCollaboratorPermissions allUsers,
                allCollaboratorPermissions))
  end.

(** Lines 146-154: the candidates that are collaborators and not the author,
    in the order the runtime ranges over [allUsers]. *)
Definition eligible (prctx : Context) (allUsers : gset string)
    (allCollaboratorPermissions : gmap string string) : Go (list string) :=
  keys ← rangeKeys allUsers;
  mret (filter (λ u, u ≠ Author prctx ∧ is_Some (allCollaboratorPermissions !! u))
               keys).

(** Lines 101-157: the body of the loop for one leaf; it gives the random
    selection of the leaf, or the error line 123 returns. *)
Definition leafSelection (prctx : Context) (child : Result)
  : Go (result (list string)) :=
  found ← candidates prctx (ReviewRequestRule child);
  match found with
  | Err err => mret (Err err)
  | Ok (allUsers, allCollaboratorPermissions) =>
      allUserList ← eligible prctx allUsers allCollaboratorPermissions;
      randomSelection ←
        selectRandomUsers (RequiredCount (ReviewRequestRule child)) allUserList;
      mret (Ok randomSelection)
  end.

(** Lines 100-159: the loop over the pending leaves; [requestedUsers] is
    what the earlier leaves gave.  The result is the pair the function
    returns: nil with the error, or the users with none. *)
Fixpoint rangeLeaves (prctx : Context) (pendingLeafNodes : list Result)
    (requestedUsers : list string) : Go (list string * option error) :=
  match pendingLeafNodes with
  | [] => mret (requestedUsers, None)
  | child :: rest =>
      selection ← leafSelection prctx child;
      match selection with
      | Err err => mret ([], Some err)
      | Ok randomSelection =>
          rangeLeaves prctx rest (requestedUsers ++ randomSelection)
      end
  end.

Definition FindRandomRequesters (prctx : Context) (result : Result)
  : Go (list string * option error) :=
  let pendingLeafNodes := findLeafChildren result in
  rangeLeaves prctx pendingLeafNodes [].

(** * The statements of the specification *)

(** ** The tree walk *)

(** Every node of a tree with its proper ancestors (the root first):
    a node before its children, the children from left to right. *)
Fixpoint nodesBelow (ancestors : list Result) (node : Result)
  : list (list Result * Result) :=
  (ancestors, node)
    :: flat_map (nodesBelow (ancestors ++ [node])) (Children node).

Definition pending (node : Result) : Prop := Status node = StatusPending.

(** A node without children whose status is pending and whose error is nil. *)
Definition pendingLeaf (node : Result) : Prop :=
  length (Children node) = 0 ∧ pending node ∧ Error node = None.

(** The walk as the specification words it: the pending leaves, from left
    to right, that have no ancestor in the tree that is not pending. *)
Definition leavesUnderPending (result : Result) : list Result :=
  (filter (λ an, pendingLeaf an.2 ∧ Forall pending an.1)
          (nodesBelow [] result)).*2.

(** A pending leaf, listed with its ancestors, all of whose ancestors
    other than the root are pending. *)
Definition reached (an : list Result * Result) : Prop :=
  pendingLeaf an.2 ∧ Forall pending (tail an.1).

#[global] Instance reached_dec (an : list Result * Result) : Decision (reached an).
Proof. unfold reached, pendingLeaf, pending. apply _. Defined.

(** The same with the root left out of the ancestors that are examined. *)
Definition leavesUnderPendingChildren (result : Result) : list Result :=
  (filter reached (nodesBelow [] result)).*2.

(** What the loop of lines 37-41 appends for the child [c]. *)
Definition descend (c : Result) : list Result :=
  if bool_decide (Status c = StatusPending) then findLeafChildren c else [].

(** ** The sampler *)

(** What C1 says of the outcome of [selectRandomUsers n users]. *)
Definition samplerClaim (n : Z) (users : list string)
    (out : outcome (list string)) : Prop :=
  (n = 0%Z → out = Done []) ∧
  ((n >= Z.of_nat (length users))%Z → out = Done users) ∧
  (n ≠ 0%Z → (n < Z.of_nat (length users))%Z →
   ∃ selections, out = Done selections ∧
     Z.of_nat (length selections) = n ∧ NoDup selections ∧
     ∀ u, u ∈ selections → u ∈ users).

(** The draws at the head of [rand], [limit] of them at most, that meet a
    selected index of a slice of [len] elements. *)
Fixpoint colliding (limit len : nat) (selected : gmap nat bool)
    (rand : list nat) : nat :=
  match limit with
  | 0 => 0
  | S limit' =>
      if default false (selected !! (hd 0 rand mod len))
      then S (colliding limit' len selected (tail rand))
      else 0
  end.

(** For each selection of the loop of lines 57-73, in turn, the draws that
    met a selected index before the selection was made or given up;
    [limit] is the number of draws a selection is allowed. *)
Fixpoint collisionCounts (iters limit len : nat) (selected : gmap nat bool)
    (rand : list nat) : list nat :=
  match iters with
  | 0 => []
  | S iters' =>
      let c := colliding limit len selected rand in
      c :: (if decide (c < limit)
            then collisionCounts iters' limit len
                   (<[hd 0 (drop c rand) mod len := true]> selected)
                   (drop (S c) rand)
            else [])
  end.

(** The sampler as C3 words it: one count [j] of the draws that met a
    selected index for the whole operation, and the abort when it passes
    [n*5]. *)
Fixpoint drawUnselectedShared (fuel : nat) (n : Z) (users : list string)
    (selected : gmap nat bool) (j : Z) : Go (nat * Z) :=
  match fuel with
  | 0 => outOfFuel
  | S fuel' =>
      if bool_decide (j > n * 5)%Z
      then raise (UnableToSelectRandomValue n (length users))
      else
        m ← Intn (length users);
        if default false (selected !! m)
        then drawUnselectedShared fuel' n users selected (j + 1)%Z
        else mret (m, j)
  end.

Fixpoint selectLoopShared (iters : nat) (n : Z) (users : list string)
    (selected : gmap nat bool) (selections : list string) (j : Z)
  : Go (list string) :=
  match iters with
  | 0 => mret selections
  | S iters' =>
      '(m, j) ← drawUnselectedShared (Z.to_nat (n * 5) + 2) n users selected j;
      u ← index users m;
      selectLoopShared iters' n users (<[m := true]> selected)
        (selections ++ [u]) j
  end.

Definition selectRandomUsersShared (n : Z) (users : list string)
  : Go (list string) :=
  if bool_decide (n = 0)%Z then mret []
  else if bool_decide (n >= Z.of_nat (length users))%Z then mret users
  else selectLoopShared (Z.to_nat n) n users ∅ [] 0%Z.

(** ** The calls on the context *)

(** The calls of [ListRepositoryCollaborators] among the calls made. *)
Definition collaboratorListings (calls : list Call) : nat :=
  length (filter (λ c, c = ListRepositoryCollaboratorsCall) calls).

(** The error of line 123. *)
Definition listingError (cause : error) : error :=
  Wrap cause "Unable to list repository collaborators".

(** ** The sources of the candidates *)

(** The members a listing resolved: those of its answer when the error is
    nil, and none when the resolution failed. *)
Definition resolved (answer : list string * option error) : list string :=
  match answer.2 with
  | None => answer.1
  | Some _ => []
  end.

(** [answer] is the answer of the context, after the calls [h], for the
    team that a leaf chose among those of its rule; a rule without teams
    has the empty answer. *)
Definition teamResolved (prctx : Context) (rule : Rule) (h : list Call)
    (answer : list string * option error) : Prop :=
  (Teams rule = [] ∧ answer = ([], None)) ∨
  ∃ randomTeam org team,
    randomTeam ∈ Teams rule ∧
    Split randomTeam "/" !! 0 = Some org ∧
    Split randomTeam "/" !! 1 = Some team ∧
    answer = teamMembers prctx h org team.

(** The same for the organization stage. *)
Definition organizationResolved (prctx : Context) (rule : Rule) (h : list Call)
    (answer : list string * option error) : Prop :=
  (Organizations rule = [] ∧ answer = ([], None)) ∨
  ∃ randomOrg,
    randomOrg ∈ Organizations rule ∧
    answer = organizationMembers prctx h randomOrg.

(** The identities of the permission map whose level is [permission]. *)
Definition atLevel (permission : string)
    (allCollaboratorPermissions : gmap string string) : gset string :=
  dom (filter (λ identity, identity.2 = permission) allCollaboratorPermissions).

(** The expansions as the specification words them: every identity at the
    level of admin when the rule allows any admin, every identity at the
    level of write when it allows any write collaborator. *)
Definition collaboratorExpansion (rule : Rule)
    (allCollaboratorPermissions : gmap string string) : gset string :=
  (if Admins rule
   then atLevel GithubAdminPermission allCollaboratorPermissions
   else ∅)
  ∪ (if WriteCollaborators rule
     then atLevel GithubWritePermission allCollaboratorPermissions
     else ∅).

(** The pool as C8 words it: the union of the users of the rule, of the
    members the team and the organization resolved, and of the
    expansions. *)
Definition unionOfSources (rule : Rule)
    (team organization : list string * option error)
    (allCollaboratorPermissions : gmap string string) : gset string :=
  list_to_set (Users rule)
  ∪ list_to_set (resolved team)
  ∪ list_to_set (resolved organization)
  ∪ collaboratorExpansion rule allCollaboratorPermissions.

(** ** Two runs *)

(** Two worlds with the same state of the source of randomness and the
    same calls made; the order of the coming ranges over maps is free. *)
Definition agree (w1 w2 : World) : Prop :=
  rand w1 = rand w2 ∧ calls w1 = calls w2.

(** Two computations that, from worlds that agree, end the same way in
    worlds that agree, with values that [R] relates. *)
Definition related {A B : Type} (R : A → B → Prop) (m1 : Go A) (m2 : Go B)
  : Prop :=
  ∀ w1 w2, agree w1 w2 →
    match m1 w1, m2 w2 with
    | (Done a, w1'), (Done b, w2') => R a b ∧ agree w1' w2'
    | (Panicked p, w1'), (Panicked q, w2') => p = q ∧ agree w1' w2'
    | (OutOfFuel, w1'), (OutOfFuel, w2') => agree w1' w2'
    | _, _ => False
    end.

Definition sameLength (l1 l2 : list string) : Prop := length l1 = length l2.

(** Two selections of a leaf: the same error, or as many users. *)
Definition sameSelection (s1 s2 : result (list string)) : Prop :=
  match s1, s2 with
  | Ok l1, Ok l2 => sameLength l1 l2
  | Err err1, Err err2 => err1 = err2
  | _, _ => False
  end.

(** Two returns of [FindRandomRequesters]: the same error, as many users. *)
Definition sameReturn (r1 r2 : list string * option error) : Prop :=
  sameLength r1.1 r2.1 ∧ r1.2 = r2.2.

(** * Inputs of the examples *)

(** A root that is approved, with one pending leaf for child. *)
Definition approvedRoot : Result :=
  mkResult StatusApproved None (mkRule [] [] [] false false 0)
    [mkResult StatusPending None (mkRule ["a"] [] [] false false 1) []].

(** A world that draws [rand] and has seen no call yet. *)
Definition drawing (rand : list nat) : World := mkWorld rand [] [].

Definition fourUsers : list string := ["a"; "b"; "c"; "d"].

(** Draws for three selections: index 0, then eight times index 0 again
    before index 1, then eight times index 0 again before index 2. *)
Definition sixteenCollisions : list nat :=
  [0; 0; 0; 0; 0; 0; 0; 0; 0; 1; 0; 0; 0; 0; 0; 0; 0; 0; 2].

Definition pendingLeafOf (rule : Rule) : Result :=
  mkResult StatusPending None rule [].

Definition pendingNode (children : list Result) : Result :=
  mkResult StatusPending None (mkRule [] [] [] false false 0) children.

(** A snapshot of the directory: the collaborators [permissions], and no
    team or organization that can be listed. *)
Definition snapshot (author : string) (permissions : gmap string string)
  : Context :=
  mkContext author
    (λ _ _ _, ([], Some (errorString "team not found")))
    (λ _ _, ([], Some (errorString "organization not found")))
    (λ _, Ok permissions).

(** The same directory when the collaborators can be listed once only. *)
Definition listedOnce (author : string) (permissions : gmap string string)
  : Context :=
  mkContext author
    (λ _ _ _, ([], Some (errorString "team not found")))
    (λ _ _, ([], Some (errorString "organization not found")))
    (λ h, if decide (collaboratorListings h = 0) then Ok permissions
          else Err (errorString "rate limit exceeded")).

Definition fourCollaborators : gmap string string :=
  list_to_map [("a", "write"); ("b", "read"); ("c", "admin"); ("d", "admin")].

(** The first scenario of the specification: three users, two required. *)
Definition twoOfThree : Rule := mkRule ["a"; "b"; "c"] [] [] false false 2.

(** A rule that names the author [d], a user [z] who is no collaborator,
    a team and an organization. *)
Definition authorAndStranger : Rule :=
  mkRule ["d"; "z"; "a"] ["org/team1"] ["org"] false false 5.

(** A rule that asks for the admins and the write collaborators only. *)
Definition adminsAndWriters : Rule := mkRule [] [] [] true true 2.

Definition aliceAndBob : gmap string string :=
  list_to_map [("alice", "admin"); ("bob", "write")].

(** Two leaves, each with one explicit user. *)
Definition twoLeaves : Result :=
  pendingNode [pendingLeafOf (mkRule ["a"] [] [] false false 1);
               pendingLeafOf (mkRule ["b"] [] [] false false 1)].

(** A directory with one team, one organization, and a collaborator who
    bears the name of a permission level. *)
Definition directory (author : string) : Context :=
  mkContext author
    (λ _ org team,
       if decide (org = "org" ∧ team = "team1") then (["t1"; "a"], None)
       else ([], Some (errorString "team not found")))
    (λ _ org,
       if decide (org = "org") then (["o1"], None)
       else ([], Some (errorString "organization not found")))
    (λ _, Ok (list_to_map [("a", "write"); ("b", "read"); ("t1", "write");
                           ("o1", "admin"); ("admin", "admin")])).

Definition everySource : Rule :=
  mkRule ["a"; "b"] ["org/team1"] ["org"] true true 2.

(** The fourth scenario of the specification: the listing of the team
    fails, one explicit user, one reviewer required. *)
Definition failingTeam : Rule := mkRule ["a"] ["org/team1"] [] false false 1.

(** Collaborators of whom [alice], an admin, and [bob], a write
    collaborator, are named by no rule, team or organization. *)
Definition staff : gmap string string :=
  list_to_map [("a", "write"); ("b", "read"); ("t1", "write"); ("o1", "read");
               ("alice", "admin"); ("bob", "write")].

(** The team and the organization of [directory], with the collaborators
    [staff]. *)
Definition staffed (author : string) : Context :=
  mkContext author
    (teamMembers (directory author))
    (organizationMembers (directory author))
    (λ _, Ok staff).

(** A context whose listing of an organization fails after it has read a
    first member, and returns that member next to its error. *)
Definition interrupted (author : string) : Context :=
  mkContext author
    (λ _ _ _, ([], Some (errorString "team not found")))
    (λ _ _, (["o1"], Some (errorString "connection reset")))
    (λ _, Ok (list_to_map [("a", "write"); ("o1", "write")])).

(** A rule with one user and one organization. *)
Definition userAndOrg : Rule := mkRule ["a"] [] ["org"] false false 2.

(** A team whose listing fails with members next to the error. *)
Definition interruptedTeam (author : string) : Context :=
  mkContext author
    (λ _ _ _, (["t1"], Some (errorString "connection reset")))
    (λ _ _, ([], None))
    (λ _, Ok (list_to_map [("a", "write"); ("t1", "write")])).

(** The rule of a leaf without its teams. *)
Definition withoutTeams (child : Result) : Result :=
  mkResult (Status child) (Error child)
    (mkRule (Users (ReviewRequestRule child)) []
       (Organizations (ReviewRequestRule child))
       (Admins (ReviewRequestRule child))
       (WriteCollaborators (ReviewRequestRule child))
       (RequiredCount (ReviewRequestRule child)))
    (Children child).

(** * Tactics *)

(** Unfolds the operations of [Go] so that a run can be followed. *)
Ltac unfold_go :=
  unfold mbind, Go_bind, mret, Go_ret, raise, outOfFuel, index in *.

From stdpp Require Import pretty.

(** * Further statements *)

(** The candidates of a pool that lines 146-154 keep, in the order of
    [elements]. *)
Definition eligibleOf (prctx : Context) (allUsers : gset string)
    (allCollaboratorPermissions : gmap string string) : list string :=
  filter (λ u, u ≠ Author prctx ∧ is_Some (allCollaboratorPermissions !! u))
         (elements allUsers).

(** The reviewers the rules of the leaves ask for, all together; a count
    that is negative asks for none. *)
Definition requiredTotal (pendingLeafNodes : list Result) : nat :=
  sum_list ((λ child, Z.to_nat (RequiredCount (ReviewRequestRule child)))
              <$> pendingLeafNodes).

#[global] Instance result_eq_dec {A : Type} `{EqDecision A} : EqDecision (result A).
Proof. solve_decision. Defined.

(** * The earlier variant of the package (lines 177-394) *)

(** [findLeafChildren] (lines 193-207) is the function of lines 30-44,
    letter for letter.  The other functions call the GitHub client
    themselves and seed their own source of randomness from the clock:
    the draws of such a source are those of the [World]. *)

Module Earlier.

(** What the code reads of a [github.Team]. *)
Record Team : Type := mkTeam {
  ID : Z;
  Name : string
}.

(** The services of the [github.Client] that the package calls, as a
    snapshot of the directory.  A listing gives the logins of the users of
    one page with the number of the next page, which is 0 after the last
    page; the first page is asked for as page 0. *)
Record Client : Type := mkClient {
  GetTeamBySlug : string → string → result Team;
  ListTeamMembers : Z → Z → result (list string * Z);
  ListMembers : string → Z → result (list string * Z);
  ListCollaborators : string → string → Z → result (list string * Z);
  GetPermissionLevel : string → string → string → result string
}.

(** What the earlier variant asks of the [pull.Context]. *)
Record Context : Type := mkContext {
  Author : string;
  RepositoryOwner : string;
  RepositoryName : string
}.

(** Modelled from the spec: the earlier [common.Result], declared in
    package [policy/common], holds the reviewer specification in fields of
    its own; they are read here in the rule of the node. *)
Definition RequestedUsers (child : Result) : list string :=
  Users (ReviewRequestRule child).
Definition RequestedTeams (child : Result) : list string :=
  Teams (ReviewRequestRule child).
Definition RequestedOrganizations (child : Result) : list string :=
  Organizations (ReviewRequestRule child).
Definition RequestedAdmins (child : Result) : bool :=
  Admins (ReviewRequestRule child).
Definition RequestedWriteCollaborators (child : Result) : bool :=
  WriteCollaborators (ReviewRequestRule child).
Definition RequiredCount (child : Result) : Z :=
  common.RequiredCount (ReviewRequestRule child).

(** The loop over the pages that [listAllTeamMembers] (lines 219-231),
    [listAllOrgMembers] (lines 246-258) and [listAllCollaborators] (lines
    273-292) share: [listPage] asks for a page, [failed] wraps its error with
    the number of the page, [each] is the loop over the users of the page,
    which appends to [allUsers]. *)
Fixpoint listPages (fuel : nat) (listPage : Z → result (list string * Z))
    (failed : error → Z → error)
    (each : list string → list string → result (list string))
    (Page : Z) (allUsers : list string) : Go (result (list string)) :=
  match fuel with
  | 0 => outOfFuel
  | S fuel' =>
      match listPage Page with
      | Err err => mret (Err (failed err Page))
      | Ok (users, NextPage) =>
          match each allUsers users with
          | Err err => mret (Err err)
          | Ok allUsers =>
              if bool_decide (NextPage = 0%Z) then mret (Ok allUsers)
              else listPages fuel' listPage failed each NextPage allUsers
          end
      end
  end.

(** Lines 224-226 and 251-253: the login of every user is appended. *)
Definition appendLogins (allUsers users : list string)
  : result (list string) :=
  Ok (foldl (λ allUsers u, allUsers ++ [u]) allUsers users).

(** [listAllTeamMembers] (lines 209-234). *)
Definition listAllTeamMembers (fuel : nat) (client : Client) (team : Team)
  : Go (result (list string)) :=
  listPages fuel (ListTeamMembers client (ID team))
    (λ err Page,
       Wrap err ("failed to list team " +:+ Name team
                 +:+ " members page " +:+ pretty Page))
    appendLogins 0%Z [].

(** [listAllOrgMembers] (lines 236-261). *)
Definition listAllOrgMembers (fuel : nat) (client : Client) (org : string)
  : Go (result (list string)) :=
  listPages fuel (ListMembers client org)
    (λ err Page,
       Wrap err ("failed to list members of org " +:+ org
                 +:+ " page " +:+ pretty Page))
    appendLogins 0%Z [].

(** Lines 278-286: the users of a page whose permission level is the one
    desired are appended; the error of a level ends the listing. *)
Fixpoint appendWithPermission (client : Client) (org repo desiredPerm : string)
    (allUsers users : list string) : result (list string) :=
  match users with
  | [] => Ok allUsers
  | u :: users' =>
      match GetPermissionLevel client org repo u with
      | Err err =>
          Err (Wrap err ("failed to determine permission level of " +:+ u
                         +:+ " on repo " +:+ repo))
      | Ok perm =>
          appendWithPermission client org repo desiredPerm
            (if bool_decide (perm = desiredPerm) then allUsers ++ [u]
             else allUsers)
            users'
      end
  end.

(** [listAllCollaborators] (lines 263-295). *)
Definition listAllCollaborators (fuel : nat) (client : Client)
    (org repo desiredPerm : string) : Go (result (list string)) :=
  listPages fuel (ListCollaborators client org repo)
    (λ err Page,
       Wrap err ("failed to list members of org " +:+ org
                 +:+ " page " +:+ pretty Page))
    (appendWithPermission client org repo desiredPerm) 0%Z [].

(** The loop of lines 311-318: it draws until the index is new. *)
Fixpoint drawNew (fuel : nat) (users : list string) (generated : gset nat)
  : Go nat :=
  match fuel with
  | 0 => outOfFuel
  | S fuel' =>
      i ← Intn (length users);
      if bool_decide (i ∈ generated) then drawNew fuel' users generated
      else mret i
  end.

(** The loop of lines 310-319 with [iters] iterations left. *)
Fixpoint selectLoop (fuel iters : nat) (users : list string)
    (generated : gset nat) (selections : list string) : Go (list string) :=
  match iters with
  | 0 => mret selections
  | S iters' =>
      i ← drawNew fuel users generated;
      u ← index users i;
      selectLoop fuel iters' users ({[i]} ∪ generated) (selections ++ [u])
  end.

(** [selectRandomUsers] (lines 297-321); [fuel] bounds the draws of one
    selection. *)
Definition selectRandomUsers (fuel : nat) (n : Z) (users : list string)
  : Go (list string) :=
  if bool_decide (n = 0)%Z then mret []
  else if bool_decide (n >= Z.of_nat (length users))%Z then mret users
  else selectLoop fuel (Z.to_nat n) users ∅ [].

(** Lines 379-385.  The range visits the elements the slice had at line
    379, each read from the array when its turn comes, while the body
    writes in that array and shortens [allUsers]: [arr] is the array, [len]
    the length of [allUsers], [i] the index of the range and [todo] the
    number of elements still to visit.  The loop is entered with
    [len = length arr]; [len] is then positive whenever the author is met
    at an index below it, so that [len - 1] is the last index. *)
Fixpoint removeAuthor (author : string) (todo i : nat) (arr : list string)
    (len : nat) : Go (list string) :=
  match todo with
  | 0 => mret (take len arr)
  | S todo' =>
      u ← index arr i;
      if bool_decide (u = author) then
        last ← index (take len arr) (len - 1);
        if bool_decide (i < len) then
          removeAuthor author todo' (S i)
            (<[len - 1 := ""]> (<[i := last]> arr)) (len - 1)
        else raise (IndexOutOfRange i len)
      else removeAuthor author todo' (S i) arr len
  end.

(** Lines 334-350: the members of one team; the errors are logged and
    dropped. *)
Definition withTeamMembers (fuel : nat) (client : Client) (child : Result)
    (allUsers : list string) : Go (list string) :=
  if bool_decide (0 < length (RequestedTeams child)) then
    i ← Intn (length (RequestedTeams child));
    randomTeam ← index (RequestedTeams child) i;
    let teamInfo := Split randomTeam "/" in
    org ← index teamInfo 0;
    slug ← index teamInfo 1;
    match GetTeamBySlug client org slug with
    | Err _ => mret allUsers
    | Ok team =>
        listing ← listAllTeamMembers fuel client team;
        match listing with
        | Err _ => mret allUsers
        | Ok teamMembers => mret (allUsers ++ teamMembers)
        end
    end
  else mret allUsers.

(** Lines 352-359: the members of one organization, appended to the users
    of the rule; the error is returned. *)
Definition withOrganizationMembers (fuel : nat) (client : Client)
    (child : Result) (allUsers : list string) : Go (result (list string)) :=
  if bool_decide (0 < length (RequestedOrganizations child)) then
    i ← Intn (length (RequestedOrganizations child));
    randomOrg ← index (RequestedOrganizations child) i;
    listing ← listAllOrgMembers fuel client randomOrg;
    match listing with
    | Err err =>
        mret (Err (Wrap err ("Unable to get member listing for org "
                             +:+ randomOrg)))
    | Ok orgMembers => mret (Ok (RequestedUsers child ++ orgMembers))
    end
  else mret (Ok allUsers).

(** Lines 361-367 and 369-375: the collaborators of a permission level,
    appended to the users of the rule when the flag is set. *)
Definition withCollaborators (fuel : nat) (prctx : Context) (client : Client)
    (child : Result) (flag : bool) (desiredPerm : string)
    (allUsers : list string) : Go (result (list string)) :=
  if flag then
    listing ← listAllCollaborators fuel client (RepositoryOwner prctx)
                (RepositoryName prctx) desiredPerm;
    match listing with
    | Err err => mret (Err (Wrap err "Unable to get admin listing"))
    | Ok collaborators => mret (Ok (RequestedUsers child ++ collaborators))
    end
  else mret (Ok allUsers).

(** Lines 332-375: the candidates of one leaf, or the error returned. *)
Definition candidates (fuel : nat) (prctx : Context) (client : Client)
    (child : Result) : Go (result (list string)) :=
  let allUsers := RequestedUsers child in
  allUsers ← withTeamMembers fuel client child allUsers;
  found ← withOrganizationMembers fuel client child allUsers;
  match found with
  | Err err => mret (Err err)
  | Ok allUsers =>
      found ← withCollaborators fuel prctx client child
                (RequestedAdmins child) "admin" allUsers;
      match found with
      | Err err => mret (Err err)
      | Ok allUsers =>
          withCollaborators fuel prctx client child
            (RequestedWriteCollaborators child) "write" allUsers
      end
  end.

(** Lines 332-390: the body of the loop for one leaf. *)
Definition leafSelection (fuel : nat) (prctx : Context) (client : Client)
    (child : Result) : Go (result (list string)) :=
  found ← candidates fuel prctx client child;
  match found with
  | Err err => mret (Err err)
  | Ok allUsers =>
      allUsers ← removeAuthor (Author prctx) (length allUsers) 0 allUsers
                   (length allUsers);
      randomSelection ← selectRandomUsers fuel (RequiredCount child) allUsers;
      mret (Ok randomSelection)
  end.

(** Lines 331-391: the loop over the pending leaves. *)
Fixpoint rangeLeaves (fuel : nat) (prctx : Context) (client : Client)
    (pendingLeafNodes : list Result) (requestedUsers : list string)
  : Go (list string * option error) :=
  match pendingLeafNodes with
  | [] => mret (requestedUsers, None)
  | child :: rest =>
      selection ← leafSelection fuel prctx client child;
      match selection with
      | Err err => mret ([], Some err)
      | Ok randomSelection =>
          rangeLeaves fuel prctx client rest (requestedUsers ++ randomSelection)
      end
  end.

(** [FindRandomRequesters] (lines 323-394). *)
Definition FindRandomRequesters (fuel : nat) (prctx : Context) (client : Client)
    (result : Result) : Go (list string * option error) :=
  let pendingLeafNodes := findLeafChildren result in
  rangeLeaves fuel prctx client pendingLeafNodes [].

End Earlier.

(** ** Statements on the earlier variant *)

(** The pages a listing goes through from [Page] when none fails: every
    page but the last names a next page. *)
Fixpoint pagesFrom (listPage : Z → result (list string * Z)) (Page : Z)
    (pages : list (list string)) : Prop :=
  match pages with
  | [] => False
  | users :: rest =>
      match rest with
      | [] => listPage Page = Ok (users, 0%Z)
      | _ => ∃ NextPage, NextPage ≠ 0%Z ∧ listPage Page = Ok (users, NextPage) ∧
                         pagesFrom listPage NextPage rest
      end
  end.

(** The pages a listing goes through from [Page] before the page numbered
    [failing] gives the error [err]. *)
Fixpoint pagesBeforeError (listPage : Z → result (list string * Z)) (Page : Z)
    (pages : list (list string)) (failing : Z) (err : error) : Prop :=
  match pages with
  | [] => Page = failing ∧ listPage Page = Err err
  | users :: rest =>
      ∃ NextPage, NextPage ≠ 0%Z ∧ listPage Page = Ok (users, NextPage) ∧
                  pagesBeforeError listPage NextPage rest failing err
  end.

(** ** Inputs of the examples on the earlier variant *)

(** A listing of two pages, numbered 0 and 2. *)
Definition twoPages (Page : Z) : result (list string * Z) :=
  if bool_decide (Page = 0%Z) then Ok (["t1"; "t2"], 2%Z)
  else if bool_decide (Page = 2%Z) then Ok (["t3"], 0%Z)
  else Err (errorString "no such page").

(** A listing whose second page fails. *)
Definition secondPageFails (Page : Z) : result (list string * Z) :=
  if bool_decide (Page = 0%Z) then Ok (["t1"; "t2"], 2%Z)
  else Err (errorString "server error").

(** A client for which [t2] alone has the permission level of admin. *)
Definition twoPagesClient : Earlier.Client :=
  Earlier.mkClient
    (λ org slug, Ok (Earlier.mkTeam 7 slug))
    (λ _, twoPages)
    (λ _, secondPageFails)
    (λ _ _, twoPages)
    (λ _ _ u, if bool_decide (u = "t2") then Ok "admin" else Ok "write").

(** A pull request of [d] on the repository [owner/repo]. *)
Definition pullOfD : Earlier.Context := Earlier.mkContext "d" "owner" "repo".

(** A leaf that names a user and a team, and asks for the admins. *)
Definition teamAndAdmins : Result :=
  pendingLeafOf (mkRule ["a"] ["org/team1"] [] true false 1).

(** A leaf that names a user and an organization. *)
Definition userAndOrganization : Result :=
  pendingLeafOf (mkRule ["a"] [] ["org"] false false 1).

(** * Properties *)

(** Induction over a result tree with the hypothesis for every child. *)
Lemma Result_forall_ind (P : Result → Prop) :
  (∀ st err rule children,
      Forall P children → P (mkResult st err rule children)) →
  ∀ result, P result.
Proof.
  intros step.
  fix IH 1. intros [st err rule children].
  apply step.
  induction children as [|c cs IHcs]; constructor.
  - apply IH.
  - apply IHcs.
Qed.


(** ** The tree walk *)

Section TreeWalk.

Implicit Types (node result c : Result) (ancestors : list Result).

(** The loop of lines 37-41 appends what each pending child gives. *)
Lemma findLeafChildren_children result :
  findLeafChildren result =
    match Children result with
    | [] =>
        if bool_decide (Status result = StatusPending ∧ Error result = None)
        then [result] else []
    | children => flat_map descend children
    end.
Proof.
  destruct result as [st err rule children].
  destruct children as [|c0 cs0]; [done|].
  unfold findLeafChildren; fold findLeafChildren. unfold Children at 1 2.
  match goal with
  | |- ?range cs0 ?r0 = _ =>
      enough (Hrange : ∀ cs r, range cs r = r ++ flat_map descend cs)
        by (rewrite Hrange; simpl; unfold descend at 2; by case_bool_decide)
  end.
  induction cs as [|c cs IH]; intros r.
  - by rewrite app_nil_r.
  - simpl. rewrite IH. unfold descend at 2.
    case_bool_decide; by rewrite <- ?app_assoc.
Qed.

Lemma filter_flat_map_snd {A B C : Type} (P : B * C → Prop)
    `{∀ x, Decision (P x)} (f : A → list (B * C)) (l : list A) :
  (filter P (flat_map f l)).*2 = flat_map (λ x, (filter P (f x)).*2) l.
Proof.
  induction l as [|x l IH]; simpl; [done|].
  by rewrite filter_app, fmap_app, IH.
Qed.

Lemma flat_map_Forall_ext {A B : Type} (f g : A → list B) (l : list A) :
  Forall (λ x, f x = g x) l → flat_map f l = flat_map g l.
Proof. induction 1 as [|x l Hx _ IH]; simpl; congruence. Qed.

Lemma flat_map_const_nil {A B : Type} (l : list A) :
  flat_map (λ _ : A, @nil B) l = [].
Proof. induction l; simpl; auto. Qed.

(** Below an ancestor that is not pending (the root aside) nothing is kept. *)
Lemma nodesBelow_dead node ancestors :
  ¬ Forall pending (tail ancestors) →
  (filter reached (nodesBelow ancestors node)).*2 = [].
Proof.
  revert ancestors.
  induction node as [st err rule children IH] using Result_forall_ind.
  intros ancestors Hdead. simpl.
  rewrite filter_cons_False by (unfold reached; simpl; tauto).
  rewrite filter_flat_map_snd.
  rewrite (flat_map_Forall_ext _ (λ _, [])).
  - apply flat_map_const_nil.
  - eapply Forall_impl; [exact IH|].
    intros c Hc. apply Hc.
    destruct ancestors as [|a ancestors']; simpl in *.
    + destruct Hdead. constructor.
    + rewrite Forall_app. tauto.
Qed.

(** A child that is not pending gives nothing, whatever it holds. *)
Lemma nodesBelow_not_pending node ancestors :
  ancestors ≠ [] → ¬ pending node →
  (filter reached (nodesBelow ancestors node)).*2 = [].
Proof.
  intros Hne Hnode.
  destruct node as [st err rule children]. simpl.
  rewrite filter_cons_False by (unfold reached, pendingLeaf; simpl; tauto).
  rewrite filter_flat_map_snd.
  rewrite (flat_map_Forall_ext _ (λ _, [])).
  - apply flat_map_const_nil.
  - apply Forall_forall. intros c _.
    apply nodesBelow_dead.
    destruct ancestors as [|a ancestors']; [done|]. simpl.
    rewrite Forall_app, Forall_singleton. tauto.
Qed.

(** A pending child under pending ancestors gives what the walk gives. *)
Lemma nodesBelow_pending node ancestors :
  ancestors ≠ [] → Forall pending (tail ancestors) → pending node →
  (filter reached (nodesBelow ancestors node)).*2 = findLeafChildren node.
Proof.
  revert ancestors.
  induction node as [st err rule children IH] using Result_forall_ind.
  intros ancestors Hne Hanc Hnode.
  rewrite findLeafChildren_children. simpl.
  assert (Hbelow : Forall pending (tail (ancestors ++ [mkResult st err rule children]))).
  { destruct ancestors as [|a ancestors']; [done|]. simpl.
    rewrite Forall_app, Forall_singleton. tauto. }
  assert (Hne' : ancestors ++ [mkResult st err rule children] ≠ []).
  { by destruct ancestors. }
  destruct children as [|c0 cs0].
  - simpl. unfold pending in Hnode; simpl in Hnode.
    case_bool_decide as Hleaf.
    + rewrite filter_cons_True; [done|].
      unfold reached, pendingLeaf, pending; simpl. tauto.
    + rewrite filter_cons_False; [done|].
      unfold reached, pendingLeaf, pending; simpl. tauto.
  - rewrite filter_cons_False
      by (unfold reached, pendingLeaf; simpl; intros [[? _] _]; lia).
    rewrite filter_flat_map_snd.
    apply (flat_map_Forall_ext _ descend (c0 :: cs0)).
    eapply Forall_impl; [exact IH|].
    intros c Hc. unfold descend. case_bool_decide as Hpc.
    + by apply Hc.
    + by apply nodesBelow_not_pending.
Qed.

(** The walk gives the pending leaves, from left to right, all of whose
    ancestors other than the root are pending. *)
Lemma findLeafChildren_reached result :
  findLeafChildren result = (filter reached (nodesBelow [] result)).*2.
Proof.
  rewrite findLeafChildren_children.
  destruct result as [st err rule children]. simpl.
  destruct children as [|c0 cs0].
  - simpl. case_bool_decide as Hleaf.
    + rewrite filter_cons_True; [done|].
      unfold reached, pendingLeaf, pending; simpl. split; [tauto|constructor].
    + rewrite filter_cons_False; [done|].
      unfold reached, pendingLeaf, pending; simpl. tauto.
  - rewrite filter_cons_False
      by (unfold reached, pendingLeaf; simpl; intros [[? _] _]; lia).
    rewrite filter_flat_map_snd.
    symmetry.
    apply (flat_map_Forall_ext _ descend (c0 :: cs0)), Forall_forall. intros c _.
    unfold descend. case_bool_decide as Hpc.
    + by apply nodesBelow_pending.
    + by apply nodesBelow_not_pending.
Qed.

End TreeWalk.

Lemma filter_iff_elem_of {A : Type} (P Q : A → Prop)
    `{∀ x, Decision (P x)} `{∀ x, Decision (Q x)} (l : list A) :
  (∀ x, x ∈ l → P x ↔ Q x) → filter P l = filter Q l.
Proof.
  induction l as [|x l IH]; intros Hiff; [done|].
  assert (Hl : filter P l = filter Q l).
  { apply IH. intros y Hy. apply Hiff. by right. }
  destruct (decide (P x)) as [HP|HP].
  - rewrite !filter_cons_True; [by f_equal|by apply Hiff; [left|]|done].
  - rewrite !filter_cons_False; [done| |done].
    intros HQ. apply HP, Hiff; [left|done].
Qed.

(** The ancestors listed with a node start with the ancestors the walk
    began with. *)
Lemma nodesBelow_prefix (node : Result) (ancestors : list Result)
    (an : list Result * Result) :
  an ∈ nodesBelow ancestors node → ancestors `prefix_of` an.1.
Proof.
  revert ancestors.
  induction node as [st err rule children IH] using Result_forall_ind.
  intros ancestors. simpl. intros [->|Hin]%elem_of_cons; [done|].
  apply list_elem_of_In, in_flat_map in Hin as (c & Hc & Hin).
  apply list_elem_of_In in Hc, Hin.
  rewrite Forall_forall in IH.
  specialize (IH c Hc _ Hin).
  etrans; [|exact IH]. by apply prefix_app_r.
Qed.

(** C5, as amended.  [findLeafChildren] returns, from left to right, the
    nodes without children whose status is pending and whose error is nil
    and all of whose ancestors other than the root are pending: the status
    of a root that has children is not examined. *)
Theorem findLeafChildren_leaves (result : Result) :
  findLeafChildren result = leavesUnderPendingChildren result.
Proof. apply findLeafChildren_reached. Qed.

(** Under a root whose status is pending these are the pending leaves
    without any ancestor that is not pending. *)
Lemma findLeafChildren_pending_root (result : Result) :
  pending result → findLeafChildren result = leavesUnderPending result.
Proof.
  intros Hroot. rewrite findLeafChildren_reached.
  unfold leavesUnderPending. f_equal.
  apply filter_iff_elem_of. intros [ancestors node] Hin; simpl.
  destruct result as [st err rule children]; simpl in Hin.
  apply elem_of_cons in Hin as [[= -> ->]|Hin]; [done|].
  apply list_elem_of_In, in_flat_map in Hin as (c & _ & Hin).
  apply list_elem_of_In, nodesBelow_prefix in Hin as [rest Hrest].
  simpl in Hrest. subst ancestors. unfold reached. simpl.
  rewrite Forall_cons. tauto.
Qed.

(** C5, as stated, fails: the walk returns the leaf of [approvedRoot],
    which has an ancestor that is not pending. *)
Lemma findLeafChildren_below_approved_root :
  findLeafChildren approvedRoot
    = [mkResult StatusPending None (mkRule ["a"] [] [] false false 1) []]
  ∧ leavesUnderPending approvedRoot = []
  ∧ findLeafChildren approvedRoot ≠ leavesUnderPending approvedRoot.
Proof. by vm_compute. Qed.

(** ** The sampler *)

Lemma World_eta (w : World) : mkWorld (rand w) (calls w) (rangeSeeds w) = w.
Proof. by destruct w. Qed.

Lemma Intn_pos (n : nat) (w : World) :
  0 < n →
  Intn n w = (Done (hd 0 (rand w) mod n),
              mkWorld (tail (rand w)) (calls w) (rangeSeeds w)).
Proof. intros Hn. unfold Intn. case_bool_decide; [lia|done]. Qed.

Section Sampler.

Variables (n : Z) (users : list string).
Hypothesis users_nonempty : 0 < length users.

Lemma colliding_le limit selected rand :
  colliding limit (length users) selected rand ≤ limit.
Proof.
  revert rand. induction limit as [|limit IH]; intros rand; simpl; [lia|].
  destruct (default false _); [|lia]. specialize (IH (tail rand)). lia.
Qed.

(** The draw after the colliding ones meets no selected index. *)
Lemma colliding_stop limit selected rand :
  colliding limit (length users) selected rand < limit →
  default false
    (selected !! (hd 0 (drop (colliding limit (length users) selected rand) rand)
                    mod length users)) = false.
Proof.
  revert rand. induction limit as [|limit IH]; intros rand; simpl; [lia|].
  destruct (default false _) eqn:Hsel; [|by rewrite drop_0].
  intros Hlt. etrans; [|apply (IH (tail rand)); lia].
  destruct rand; simpl; by rewrite ?drop_nil.
Qed.

(** The loop of lines 59-72 from the count [j]: it breaks with the first
    draw that meets no selected index when fewer than [n*5 + 1 - j] draws
    before it met one, and it panics after that many. *)
Lemma drawUnselected_colliding selected fuel j w :
  (0 ≤ j ≤ n * 5 + 1)%Z →
  Z.to_nat (n * 5 + 1 - j) < fuel →
  drawUnselected fuel n users selected j w =
    let limit := Z.to_nat (n * 5 + 1 - j) in
    let c := colliding limit (length users) selected (rand w) in
    if decide (c < limit)
    then (Done (hd 0 (drop c (rand w)) mod length users),
          mkWorld (drop (S c) (rand w)) (calls w) (rangeSeeds w))
    else (Panicked (UnableToSelectRandomValue n (length users)),
          mkWorld (drop c (rand w)) (calls w) (rangeSeeds w)).
Proof.
  revert j w. induction fuel as [|fuel IH]; intros j w Hj Hfuel; [lia|].
  simpl. case_bool_decide as Hover.
  - replace (Z.to_nat (n * 5 + 1 - j)) with 0 by lia. simpl.
    unfold raise. by rewrite drop_0, World_eta.
  - replace (Z.to_nat (n * 5 + 1 - j)) with (S (Z.to_nat (n * 5 + 1 - (j + 1))))
      in * by lia.
    unfold_go. rewrite Intn_pos by done. simpl.
    destruct (default false _) eqn:Hsel.
    + rewrite IH by lia. simpl.
      set (c := colliding _ _ _ _).
      assert (Hdrop : ∀ k, drop k (tail (rand w)) = drop (S k) (rand w))
        by (intros k; destruct (rand w); simpl; by rewrite ?drop_nil).
      rewrite !Hdrop.
      destruct (decide (c < _)), (decide (S c < _)); try lia; done.
    + rewrite drop_0. by destruct (rand w).
Qed.

(** One selection, entered with the count at 0 as line 58 sets it. *)
Lemma drawUnselected_fresh selected w :
  (0 ≤ n)%Z →
  match drawUnselected (Z.to_nat (n * 5) + 2) n users selected 0 w with
  | (Done m, w') =>
      m < length users ∧ default false (selected !! m) = false ∧
      calls w' = calls w ∧ rangeSeeds w' = rangeSeeds w
  | (Panicked p, w') =>
      p = UnableToSelectRandomValue n (length users) ∧
      calls w' = calls w ∧ rangeSeeds w' = rangeSeeds w
  | (OutOfFuel, _) => False
  end.
Proof.
  intros Hn. rewrite drawUnselected_colliding by lia. simpl.
  case_decide as Hc; [|done].
  split_and!; [|by apply colliding_stop|done..].
  apply Nat.mod_upper_bound. lia.
Qed.

(** The loop depends on the slice through its length and, for the
    selections, through the elements at the drawn indices. *)
Lemma selectLoop_indices iters selected selections idxs w :
  (0 ≤ n)%Z →
  (∀ i, default false (selected !! i) = true ↔ i ∈ idxs) →
  NoDup idxs →
  Forall2 (λ i u, users !! i = Some u) idxs selections →
  match selectLoop iters n users selected selections w with
  | (Done selections', w') =>
      ∃ idxs', NoDup idxs' ∧
        Forall2 (λ i u, users !! i = Some u) idxs' selections' ∧
        length selections' = length selections + iters ∧
        calls w' = calls w ∧ rangeSeeds w' = rangeSeeds w
  | (Panicked p, w') =>
      p = UnableToSelectRandomValue n (length users) ∧
      calls w' = calls w ∧ rangeSeeds w' = rangeSeeds w
  | (OutOfFuel, _) => False
  end.
Proof.
  intros Hn. revert selected selections idxs w.
  induction iters as [|iters IH]; intros selected selections idxs w Hsel Hnd Hidx.
  - simpl. exists idxs. split_and!; auto.
  - simpl. unfold_go.
    pose proof (drawUnselected_fresh selected w Hn) as Hdraw.
    destruct (drawUnselected _ n users selected 0 w) as [[m|p|] w1]; [|done..].
    destruct Hdraw as (Hm & Hfresh & Hcalls & Hseeds).
    destruct (lookup_lt_is_Some_2 users m Hm) as [u Hu]. rewrite Hu.
    unfold_go.
    assert (Hsel' : ∀ i, default false (<[m := true]> selected !! i) = true
                         ↔ i ∈ idxs ++ [m]).
    { intros i. rewrite elem_of_app, list_elem_of_singleton, <- Hsel.
      destruct (decide (i = m)) as [->|Hne].
      - rewrite lookup_insert_eq. simpl. tauto.
      - rewrite lookup_insert_ne by done. intuition congruence. }
    assert (Hnd' : NoDup (idxs ++ [m])).
    { apply NoDup_app. split_and!; [done| |apply NoDup_singleton].
      intros i Hi ->%list_elem_of_singleton.
      apply Hsel in Hi. congruence. }
    assert (Hidx' : Forall2 (λ i u, users !! i = Some u)
                      (idxs ++ [m]) (selections ++ [u])).
    { apply Forall2_app; [done|]. by constructor. }
    specialize (IH _ _ _ w1 Hsel' Hnd' Hidx').
    destruct (selectLoop iters n users _ _ w1) as [[selections'|p|] w2];
      simpl in IH.
    + destruct IH as (idxs' & ? & ? & Hlen & ? & ?).
      exists idxs'. rewrite length_app in Hlen. simpl in Hlen.
      split_and!; [done|done|lia|congruence|congruence].
    + destruct IH as (? & ? & ?). split_and!; congruence.
    + done.
Qed.

End Sampler.

(** The selections of the loop of lines 57-73 and their counts: the loop
    returns when no selection met more than [n*5] selected indices, and it
    panics at the first selection that did. *)
Lemma selectLoop_counts (n : Z) (users : list string) iters selected selections w :
  0 < length users → (0 ≤ n)%Z →
  let counts :=
    collisionCounts iters (Z.to_nat (n * 5) + 1) (length users) selected (rand w) in
  match selectLoop iters n users selected selections w with
  | (Done _, _) => Forall (λ c, c ≤ Z.to_nat (n * 5)) counts ∧ length counts = iters
  | (Panicked _, _) => Exists (λ c, Z.to_nat (n * 5) < c) counts
  | (OutOfFuel, _) => False
  end.
Proof.
  intros Hlen Hn. revert selected selections w.
  induction iters as [|iters IH]; intros selected selections w; simpl.
  { by split. }
  unfold_go.
  rewrite drawUnselected_colliding by (done || lia).
  replace (Z.to_nat (n * 5 + 1 - 0)) with (Z.to_nat (n * 5) + 1) by lia.
  simpl. set (c := colliding _ _ _ _).
  destruct (decide (c < Z.to_nat (n * 5) + 1)) as [Hc|Hc].
  - destruct (lookup_lt_is_Some_2 users (hd 0 (drop c (rand w)) mod length users))
      as [u Hu]; [apply Nat.mod_upper_bound; lia|].
    rewrite Hu. unfold_go.
    specialize (IH (<[hd 0 (drop c (rand w)) mod length users := true]> selected)
                  (selections ++ [u])
                  (mkWorld (drop (S c) (rand w)) (calls w) (rangeSeeds w))).
    simpl in IH.
    destruct (selectLoop iters n users _ _ _) as [[sel|p|] w2]; [| |done].
    + destruct IH as [Hall Hcount]. split; [|by rewrite Hcount].
      constructor; [lia|done].
    + by apply Exists_cons_tl.
  - apply Exists_cons_hd. lia.
Qed.

Lemma selectRandomUsers_cases (n : Z) (users : list string) (w : World) :
  ((n ≤ 0)%Z → selectRandomUsers n users w = (Done [], w)) ∧
  ((n >= Z.of_nat (length users))%Z →
     selectRandomUsers n users w = (Done users, w)) ∧
  ((0 < n < Z.of_nat (length users))%Z →
     match selectRandomUsers n users w with
     | (Done selections, w') =>
         Z.of_nat (length selections) = n ∧
         (∃ idxs, NoDup idxs ∧
            Forall2 (λ i u, users !! i = Some u) idxs selections) ∧
         (∀ u, u ∈ selections → u ∈ users) ∧
         (NoDup users → NoDup selections) ∧
         calls w' = calls w ∧ rangeSeeds w' = rangeSeeds w
     | (Panicked p, w') =>
         p = UnableToSelectRandomValue n (length users) ∧
         calls w' = calls w ∧ rangeSeeds w' = rangeSeeds w
     | (OutOfFuel, _) => False
     end).
Proof.
  unfold selectRandomUsers. split_and!.
  - intros Hn. case_bool_decide; [done|].
    case_bool_decide; [lia|].
    by replace (Z.to_nat n) with 0 by lia.
  - intros Hn. case_bool_decide as H0; [|by case_bool_decide].
    destruct users; [done|simpl in Hn; lia].
  - intros Hn. rewrite !bool_decide_eq_false_2 by lia.
    pose proof (selectLoop_indices n users ltac:(lia) (Z.to_nat n) ∅ [] [] w
                  ltac:(lia)) as Hloop.
    destruct (selectLoop _ n users ∅ [] w) as [[selections|p|] w'].
    + destruct Hloop as (idxs & Hnd & Hidx & Hlen & Hcalls & Hseeds).
      { intros i. rewrite lookup_empty. simpl. split; [done|].
        by intros ?%elem_of_nil. }
      { constructor. }
      { constructor. }
      split_and!; [| | | |done|done].
      * simpl in Hlen. lia.
      * by exists idxs.
      * intros u [i Hi]%list_elem_of_lookup.
        destruct (Forall2_lookup_r _ _ _ _ _ Hidx Hi) as (k & _ & Hk).
        by eapply list_elem_of_lookup_2.
      * intros Husers. apply NoDup_alt. intros i j u Hi Hj.
        destruct (Forall2_lookup_r _ _ _ _ _ Hidx Hi) as (k & Hik & Hk).
        destruct (Forall2_lookup_r _ _ _ _ _ Hidx Hj) as (l & Hjl & Hl).
        assert (k = l) as -> by exact (NoDup_lookup users k l u Husers Hk Hl).
        exact (NoDup_lookup idxs i j l Hnd Hik Hjl).
    + apply Hloop; [|constructor|constructor].
      intros i. rewrite lookup_empty. simpl. split; [done|].
      by intros ?%elem_of_nil.
    + apply Hloop; [|constructor|constructor].
      intros i. rewrite lookup_empty. simpl. split; [done|].
      by intros ?%elem_of_nil.
Qed.

(** C1, as amended.  [selectRandomUsers] returns the empty sequence when
    [n <= 0] and the input list, in its order, when [n >= m].  When
    [0 < n < m] it panics with the message of line 63 or returns exactly
    [n] elements, read at pairwise distinct indices of the input list: each
    is an element of the input list, and they are distinct when the
    elements of the input list are. *)
Theorem selectRandomUsers_returns (n : Z) (users : list string) (w : World) :
  ((n ≤ 0)%Z → selectRandomUsers n users w = (Done [], w)) ∧
  ((n >= Z.of_nat (length users))%Z →
     selectRandomUsers n users w = (Done users, w)) ∧
  ((0 < n < Z.of_nat (length users))%Z →
     match selectRandomUsers n users w with
     | (Done selections, _) =>
         Z.of_nat (length selections) = n ∧
         (∃ idxs, NoDup idxs ∧
            Forall2 (λ i u, users !! i = Some u) idxs selections) ∧
         (∀ u, u ∈ selections → u ∈ users) ∧
         (NoDup users → NoDup selections)
     | (Panicked p, _) => p = UnableToSelectRandomValue n (length users)
     | (OutOfFuel, _) => False
     end).
Proof.
  destruct (selectRandomUsers_cases n users w) as (Hle & Hge & Hbetween).
  split_and!; [done|done|].
  intros Hn. specialize (Hbetween Hn).
  destruct (selectRandomUsers n users w) as [[selections|p|] w']; [|tauto..].
  tauto.
Qed.

(** C1, as stated, fails in three ways: the elements read at distinct
    indices of a list with a repeated element are not distinct; the sampler
    panics when a selection meets too many selected indices; a negative
    count gives the empty sequence. *)
Lemma selectRandomUsers_not_as_claimed :
  ¬ samplerClaim 2 ["a"; "a"; "b"]
      (selectRandomUsers 2 ["a"; "a"; "b"] (drawing [0; 1])).1
  ∧ ¬ samplerClaim 2 fourUsers (selectRandomUsers 2 fourUsers (drawing [])).1
  ∧ ¬ samplerClaim (-2) fourUsers (selectRandomUsers (-2) fourUsers (drawing [])).1.
Proof.
  split_and!.
  - intros (_ & _ & Hsel).
    destruct Hsel as (selections & Hout & _ & Hnd & _); [done|simpl; lia|].
    vm_compute in Hout. injection Hout as <-.
    apply NoDup_cons in Hnd as [Ha _]. apply Ha. by left.
  - intros (_ & _ & Hsel).
    destruct Hsel as (selections & Hout & _); [done|simpl; lia|].
    vm_compute in Hout. discriminate.
  - intros (_ & _ & Hsel).
    destruct Hsel as (selections & Hout & Hlen & _); [done|simpl; lia|].
    lia.
Qed.

(** C3, as amended.  In the branch [0 < n < m] every selected element has
    a retry budget of its own: the count of the draws that meet an already
    chosen index starts again at 0 for each element.  The sampler returns,
    with all [n] elements, when no element met more than [5 * n] chosen
    indices, and it panics, returning nothing, at the first element that
    did. *)
Theorem selectRandomUsers_budget (n : Z) (users : list string) (w : World) :
  (0 < n < Z.of_nat (length users))%Z →
  let counts :=
    collisionCounts (Z.to_nat n) (Z.to_nat (5 * n) + 1) (length users) ∅ (rand w) in
  match selectRandomUsers n users w with
  | (Done selections, _) =>
      Forall (λ c, c ≤ Z.to_nat (5 * n)) counts ∧
      Z.of_nat (length selections) = n
  | (Panicked p, _) =>
      p = UnableToSelectRandomValue n (length users) ∧
      Exists (λ c, Z.to_nat (5 * n) < c) counts
  | (OutOfFuel, _) => False
  end.
Proof.
  intros Hn. simpl.
  pose proof (selectRandomUsers_indices_aux := selectLoop_indices n users
    ltac:(lia) (Z.to_nat n) ∅ [] [] w ltac:(lia)).
  pose proof (selectLoop_counts n users (Z.to_nat n) ∅ [] w
    ltac:(lia) ltac:(lia)) as Hcounts.
  simpl in Hcounts.
  replace (5 * n)%Z with (n * 5)%Z by lia.
  unfold selectRandomUsers. rewrite !bool_decide_eq_false_2 by lia.
  destruct (selectLoop _ n users ∅ [] w) as [[selections|p|] w']; [| |done].
  - destruct Hcounts as [Hall _]. split; [done|].
    destruct selectRandomUsers_indices_aux as (idxs & _ & _ & Hlen & _).
    { intros i. rewrite lookup_empty. simpl. split; [done|].
      by intros ?%elem_of_nil. }
    { constructor. }
    { constructor. }
    simpl in Hlen. lia.
  - split; [|done].
    apply selectRandomUsers_indices_aux; [|constructor|constructor].
    intros i. rewrite lookup_empty. simpl. split; [done|].
    by intros ?%elem_of_nil.
Qed.

Lemma selectRandomUsers_budget_witness :
  (0 < 3 < Z.of_nat (length fourUsers))%Z ∧
  match selectRandomUsers 3 fourUsers (drawing sixteenCollisions) with
  | (Done selections, _) =>
      Forall (λ c, c ≤ Z.to_nat (5 * 3))
        (collisionCounts (Z.to_nat 3) (Z.to_nat (5 * 3) + 1) (length fourUsers) ∅
           (rand (drawing sixteenCollisions))) ∧
      Z.of_nat (length selections) = 3%Z
  | (Panicked p, _) =>
      p = UnableToSelectRandomValue 3 (length fourUsers) ∧
      Exists (λ c, Z.to_nat (5 * 3) < c)
        (collisionCounts (Z.to_nat 3) (Z.to_nat (5 * 3) + 1) (length fourUsers) ∅
           (rand (drawing sixteenCollisions)))
  | (OutOfFuel, _) => False
  end.
Proof.
  split; [simpl; lia|].
  apply (selectRandomUsers_budget 3 fourUsers (drawing sixteenCollisions)).
  simpl; lia.
Defined.

(** C3, as stated, fails: with three elements to select among four, sixteen
    draws meet a chosen index, one more than [5 * 3], eight for the second
    element and eight for the third; the sampler returns its three
    elements, where a budget shared by the whole operation runs out. *)
Lemma selectRandomUsers_budget_not_shared :
  (selectRandomUsers 3 fourUsers (drawing sixteenCollisions)).1
    = Done ["a"; "b"; "c"]
  ∧ collisionCounts 3 16 4 ∅ sixteenCollisions = [0; 8; 8]
  ∧ (selectRandomUsersShared 3 fourUsers (drawing sixteenCollisions)).1
    = Panicked (UnableToSelectRandomValue 3 4)
  ∧ (selectRandomUsers 3 fourUsers (drawing sixteenCollisions)).1
    ≠ (selectRandomUsersShared 3 fourUsers (drawing sixteenCollisions)).1.
Proof. by vm_compute. Qed.

(** ** The candidates of a leaf *)

Lemma shoveIntoMap_union (m : gset string) (u : list string) :
  shoveIntoMap m u = m ∪ list_to_set u.
Proof.
  unfold shoveIntoMap. revert m.
  induction u as [|n u IH]; intros m; simpl.
  - by rewrite (right_id_L ∅ (∪)).
  - by rewrite IH, (assoc_L (∪)), (comm_L (∪) m {[n]}).
Qed.

(** The order in which a slice is shoved into the map is indifferent. *)
Lemma shoveIntoMap_Permutation (m : gset string) (u u' : list string) :
  u ≡ₚ u' → shoveIntoMap m u = shoveIntoMap m u'.
Proof.
  intros Hperm. rewrite !shoveIntoMap_union. f_equal.
  apply set_eq. intros x. rewrite !elem_of_list_to_set. by rewrite Hperm.
Qed.

(** A range over a map visits every key once, whatever the seed. *)
Lemma rangeOrder_Permutation {A : Type} (seed : list nat) (keys : list A) :
  rangeOrder seed keys ≡ₚ keys.
Proof.
  revert seed. induction keys as [|x keys IH]; intros seed; simpl; [done|].
  rewrite <- Permutation_middle, take_drop. by constructor.
Qed.

(** What lines 128-132 collect for a permission: the values of the map
    that are themselves keys of the map with that permission. *)
Lemma elem_of_rangeCollaborators (permission c : string)
    (allCollaboratorPermissions : gmap string string) :
  c ∈ rangeCollaborators permission allCollaboratorPermissions ↔
  (∃ u, allCollaboratorPermissions !! u = Some c) ∧
  default "" (allCollaboratorPermissions !! c) = permission.
Proof.
  unfold rangeCollaborators.
  rewrite list_elem_of_filter, list_elem_of_fmap. split.
  - intros [Hperm ([u c'] & -> & Hin%elem_of_map_to_list)]. eauto.
  - intros [[u Hu] Hperm]. split; [done|].
    exists (u, c). split; [done|]. by apply elem_of_map_to_list.
Qed.

Lemma collaboratorListings_cons (c : Call) (cs : list Call) :
  collaboratorListings (c :: cs) =
    (if decide (c = ListRepositoryCollaboratorsCall) then 1 else 0)
    + collaboratorListings cs.
Proof.
  unfold collaboratorListings. rewrite filter_cons.
  by destruct (decide (c = ListRepositoryCollaboratorsCall)).
Qed.

(** [selectTeamMembers] on a slice that is not empty: one draw, then the
    panic of [teamInfo[1]] for a reference without a slash, or the call. *)
Lemma selectTeamMembers_run (prctx : Context) (allTeams : list string) (w : World) :
  0 < length allTeams →
  ∃ randomTeam,
    allTeams !! (hd 0 (rand w) mod length allTeams) = Some randomTeam ∧
    selectTeamMembers prctx allTeams w =
      match Split randomTeam "/" with
      | org :: team :: _ =>
          (Done (match (teamMembers prctx (calls w) org team).2 with
                 | Some err =>
                     Err (Wrap err ("Unable to get member listing for team "
                                    +:+ randomTeam))
                 | None => Ok (teamMembers prctx (calls w) org team).1
                 end),
           mkWorld (tail (rand w)) (ListTeamMembersCall org team :: calls w)
             (rangeSeeds w))
      | teamInfo =>
          (Panicked (IndexOutOfRange (length teamInfo) (length teamInfo)),
           mkWorld (tail (rand w)) (calls w) (rangeSeeds w))
      end.
Proof.
  intros Hlen.
  destruct (lookup_lt_is_Some_2 allTeams (hd 0 (rand w) mod length allTeams))
    as [randomTeam Hteam]; [apply Nat.mod_upper_bound; lia|].
  exists randomTeam. split; [done|].
  unfold selectTeamMembers. unfold_go. rewrite Intn_pos by done.
  rewrite Hteam. unfold ListTeamMembers. unfold_go. simpl.
  destruct (Split randomTeam "/") as [|org [|team rest]]; simpl; [done..|].
  by destruct (teamMembers prctx (calls w) org team) as [teamMembers [err|]].
Qed.

(** The team stage: nothing is taken from the pool, no collaborator is
    listed, and the stage does not run out of fuel. *)
Lemma withTeamMembers_run (prctx : Context) (rule : Rule) (allUsers : gset string)
    (w : World) :
  match withTeamMembers prctx rule allUsers w with
  | (Done pool, w') =>
      rangeSeeds w' = rangeSeeds w ∧
      ((Teams rule = [] ∧ pool = allUsers ∧ w' = w) ∨
       (∃ randomTeam org team,
          randomTeam ∈ Teams rule ∧
          Split randomTeam "/" !! 0 = Some org ∧
          Split randomTeam "/" !! 1 = Some team ∧
          calls w' = ListTeamMembersCall org team :: calls w ∧
          pool = allUsers
                 ∪ list_to_set (resolved (teamMembers prctx (calls w) org team))))
  | (Panicked _, w') => calls w' = calls w ∧ rangeSeeds w' = rangeSeeds w
  | (OutOfFuel, _) => False
  end.
Proof.
  unfold withTeamMembers. case_bool_decide as Hlen.
  - unfold_go.
    destruct (selectTeamMembers_run prctx (Teams rule) w Hlen)
      as (randomTeam & Hteam & ->).
    destruct (Split randomTeam "/") as [|org [|team rest]] eqn:Hsplit; [done..|].
    split; [done|]. right. exists randomTeam, org, team.
    split_and!; [by eapply list_elem_of_lookup_2|by rewrite Hsplit..|done|].
    rewrite shoveIntoMap_union. unfold resolved.
    by destruct (teamMembers prctx (calls w) org team).2.
  - unfold_go. split; [done|]. left.
    destruct (Teams rule); [done|simpl in Hlen; lia].
Qed.

(** The organization stage, the same. *)
Lemma withOrganizationMembers_run (prctx : Context) (rule : Rule)
    (allUsers : gset string) (w : World) :
  match withOrganizationMembers prctx rule allUsers w with
  | (Done pool, w') =>
      rangeSeeds w' = rangeSeeds w ∧
      ((Organizations rule = [] ∧ pool = allUsers ∧ w' = w) ∨
       (∃ randomOrg,
          randomOrg ∈ Organizations rule ∧
          calls w' = ListOrganizationMembersCall randomOrg :: calls w ∧
          pool = allUsers
                 ∪ list_to_set (organizationMembers prctx (calls w) randomOrg).1))
  | (Panicked _, _) => False
  | (OutOfFuel, _) => False
  end.
Proof.
  unfold withOrganizationMembers. case_bool_decide as Hlen.
  - unfold_go. rewrite Intn_pos by done.
    destruct (lookup_lt_is_Some_2 (Organizations rule)
                (hd 0 (rand w) mod length (Organizations rule)))
      as [randomOrg Horg]; [apply Nat.mod_upper_bound; lia|].
    rewrite Horg. unfold ListOrganizationMembers. simpl.
    destruct (organizationMembers prctx (calls w) randomOrg)
      as [orgMembers err] eqn:Hanswer. simpl.
    split; [done|]. right. exists randomOrg.
    split_and!; [by eapply list_elem_of_lookup_2|done|].
    by rewrite shoveIntoMap_union, ?Hanswer.
  - unfold_go. split; [done|]. left.
    destruct (Organizations rule); [done|simpl in Hlen; lia].
Qed.

(** Lines 126-144 only add to the pool. *)
Lemma withCollaborators_union (rule : Rule)
    (allCollaboratorPermissions : gmap string string) (allUsers : gset string) :
  withCollaborators rule allCollaboratorPermissions allUsers =
    allUsers ∪ withCollaborators rule allCollaboratorPermissions ∅.
Proof.
  unfold withCollaborators.
  destruct (Admins rule), (WriteCollaborators rule);
    rewrite ?shoveIntoMap_union, ?(right_id_L ∅ (∪)), ?(left_id_L ∅ (∪)),
      ?(assoc_L (∪)); done.
Qed.

Lemma elem_of_atLevel (permission u : string)
    (allCollaboratorPermissions : gmap string string) :
  u ∈ atLevel permission allCollaboratorPermissions ↔
  allCollaboratorPermissions !! u = Some permission.
Proof.
  unfold atLevel. rewrite elem_of_dom. split.
  - intros [level [Hu Hlevel]%map_lookup_filter_Some]. simpl in Hlevel.
    by subst level.
  - intros Hu. exists permission. by apply map_lookup_filter_Some.
Qed.

(** What the two loops collect are identities at the level they compare
    with. *)
Lemma rangeCollaborators_atLevel (permission c : string)
    (allCollaboratorPermissions : gmap string string) :
  permission ≠ "" →
  c ∈ rangeCollaborators permission allCollaboratorPermissions →
  c ∈ atLevel permission allCollaboratorPermissions.
Proof.
  intros Hperm [_ Hlevel]%elem_of_rangeCollaborators.
  apply elem_of_atLevel.
  destruct (allCollaboratorPermissions !! c) as [level|]; simpl in Hlevel;
    congruence.
Qed.

(** What lines 126-144 add is among the expansions the flags name. *)
Lemma withCollaborators_expansion (rule : Rule)
    (allCollaboratorPermissions : gmap string string) (u : string) :
  u ∈ withCollaborators rule allCollaboratorPermissions ∅ →
  u ∈ collaboratorExpansion rule allCollaboratorPermissions.
Proof.
  unfold withCollaborators, collaboratorExpansion.
  destruct (Admins rule), (WriteCollaborators rule);
    rewrite ?shoveIntoMap_union, ?elem_of_union, ?elem_of_list_to_set;
    intros Hu.
  - destruct Hu as [[Hu|Hu]|Hu].
    + by apply not_elem_of_empty in Hu.
    + left. by apply rangeCollaborators_atLevel.
    + right. by apply rangeCollaborators_atLevel.
  - destruct Hu as [Hu|Hu]; [by apply not_elem_of_empty in Hu|].
    left. by apply rangeCollaborators_atLevel.
  - destruct Hu as [Hu|Hu]; [by apply not_elem_of_empty in Hu|].
    right. by apply rangeCollaborators_atLevel.
  - by apply not_elem_of_empty in Hu.
Qed.

(** Lines 101-144 for one leaf: the pool is the union of the sources, the
    listing of the collaborators is the last call, and the only one of its
    kind. *)
Lemma candidates_run (prctx : Context) (rule : Rule) (w : World) :
  match candidates prctx rule w with
  | (Done found, w') =>
      rangeSeeds w' = rangeSeeds w ∧
      ∃ h h' team organization,
        calls w' = ListRepositoryCollaboratorsCall :: h ∧
        calls w `suffix_of` h' ∧ h' `suffix_of` h ∧
        collaboratorListings h = collaboratorListings (calls w) ∧
        teamResolved prctx rule (calls w) team ∧
        organizationResolved prctx rule h' organization ∧
        found =
          match repositoryCollaborators prctx h with
          | Ok allCollaboratorPermissions =>
              Ok (withCollaborators rule allCollaboratorPermissions
                    (list_to_set (Users rule)
                     ∪ list_to_set (resolved team)
                     ∪ list_to_set organization.1),
                  allCollaboratorPermissions)
          | Err err => Err (Wrap err "Unable to list repository collaborators")
          end
  | (Panicked _, w') => calls w' = calls w ∧ rangeSeeds w' = rangeSeeds w
  | (OutOfFuel, _) => False
  end.
Proof.
  unfold candidates. unfold_go.
  pose proof (withTeamMembers_run prctx rule (shoveIntoMap ∅ (Users rule)) w)
    as Hteam.
  destruct (withTeamMembers prctx rule _ w) as [[pool1|p|] w1]; [|done..].
  destruct Hteam as [Hseeds1 Hteam].
  pose proof (withOrganizationMembers_run prctx rule pool1 w1) as Horg.
  destruct (withOrganizationMembers prctx rule pool1 w1) as [[pool2|p|] w2];
    [|done..].
  destruct Horg as [Hseeds2 Horg].
  unfold ListRepositoryCollaborators.
  assert (∃ team,
    calls w `suffix_of` calls w1 ∧
    collaboratorListings (calls w1) = collaboratorListings (calls w) ∧
    teamResolved prctx rule (calls w) team ∧
    pool1 = list_to_set (Users rule) ∪ list_to_set (resolved team))
    as (team & Hsuf1 & Hcount1 & Hres1 & ->).
  { rewrite shoveIntoMap_union, (left_id_L ∅ (∪)) in Hteam.
    destruct Hteam as [(Hnone & -> & ->)|
      (randomTeam & org & slug & Hin & Horg' & Hteam' & Hcalls & ->)].
    - exists ([], None). split_and!; [done|done|by left|].
      simpl. by rewrite (right_id_L ∅ (∪)).
    - exists (teamMembers prctx (calls w) org slug).
      rewrite Hcalls. split_and!; [by apply suffix_cons_r|done| |done].
      right. by exists randomTeam, org, slug. }
  assert (∃ organization,
    calls w1 `suffix_of` calls w2 ∧
    collaboratorListings (calls w2) = collaboratorListings (calls w1) ∧
    organizationResolved prctx rule (calls w1) organization ∧
    pool2 = list_to_set (Users rule) ∪ list_to_set (resolved team)
            ∪ list_to_set organization.1)
    as (organization & Hsuf2 & Hcount2 & Hres2 & ->).
  { destruct Horg as [(Hnone & -> & ->)|(randomOrg & Hin & Hcalls & ->)].
    - exists ([], None). split_and!; [done|done|by left|].
      simpl. by rewrite (right_id_L ∅ (∪)).
    - exists (organizationMembers prctx (calls w1) randomOrg).
      rewrite Hcalls. split_and!; [by apply suffix_cons_r|done| |done].
      right. by exists randomOrg. }
  destruct (repositoryCollaborators prctx (calls w2)) as [perms|err] eqn:Hlist;
    simpl.
  - split; [congruence|].
    exists (calls w2), (calls w1), team, organization.
    rewrite Hlist.
    split_and!; [done|done|done|congruence|done|done|done].
  - split; [congruence|].
    exists (calls w2), (calls w1), team, organization.
    rewrite Hlist.
    split_and!; [done|done|done|congruence|done|done|done].
Qed.

(** Lines 146-154 keep the collaborators that are not the author, each
    once, and as many of them whatever the order of the range. *)
Lemma eligible_run (prctx : Context) (allUsers : gset string)
    (allCollaboratorPermissions : gmap string string) (w : World) :
  ∃ allUserList,
    eligible prctx allUsers allCollaboratorPermissions w =
      (Done allUserList,
       mkWorld (rand w) (calls w) (tail (rangeSeeds w))) ∧
    allUserList ≡ₚ
      filter (λ u, u ≠ Author prctx ∧ is_Some (allCollaboratorPermissions !! u))
             (elements allUsers) ∧
    NoDup allUserList ∧
    ∀ u, u ∈ allUserList →
         u ∈ allUsers ∧ u ≠ Author prctx ∧
         is_Some (allCollaboratorPermissions !! u).
Proof.
  eexists. split; [reflexivity|].
  assert (Hperm : filter (λ u, u ≠ Author prctx
                               ∧ is_Some (allCollaboratorPermissions !! u))
            (rangeOrder (hd [] (rangeSeeds w)) (elements allUsers))
          ≡ₚ filter (λ u, u ≠ Author prctx
                           ∧ is_Some (allCollaboratorPermissions !! u))
               (elements allUsers)).
  { by rewrite rangeOrder_Permutation. }
  split_and!; [done| |].
  - rewrite Hperm. apply NoDup_filter, NoDup_elements.
  - intros u. rewrite Hperm, list_elem_of_filter, elem_of_elements. tauto.
Qed.

(** ** The loop over the leaves *)

(** The sampler only returns elements of its input, makes no call and
    does not run out of fuel. *)
Lemma selectRandomUsers_subset (n : Z) (users : list string) (w : World) :
  match selectRandomUsers n users w with
  | (Done selections, w') =>
      (∀ u, u ∈ selections → u ∈ users) ∧
      calls w' = calls w ∧ rangeSeeds w' = rangeSeeds w
  | (Panicked _, w') => calls w' = calls w ∧ rangeSeeds w' = rangeSeeds w
  | (OutOfFuel, _) => False
  end.
Proof.
  destruct (selectRandomUsers_cases n users w) as (Hle & Hge & Hbetween).
  destruct (decide (n ≤ 0)%Z) as [Hn|Hn].
  { rewrite Hle by done. split_and!; [|done..]. by intros u ?%elem_of_nil. }
  destruct (decide (n >= Z.of_nat (length users))%Z) as [Hm|Hm].
  { rewrite Hge by done. done. }
  specialize (Hbetween ltac:(lia)).
  destruct (selectRandomUsers n users w) as [[selections|p|] w']; tauto.
Qed.

(** The body of the loop for one leaf: the collaborators are listed once,
    by the last call of the body; the error of the listing is the error of
    the leaf, and a selection holds collaborators other than the author. *)
Lemma leafSelection_run (prctx : Context) (child : Result) (w : World) :
  match leafSelection prctx child w with
  | (Done selection, w') =>
      ∃ h, calls w' = ListRepositoryCollaboratorsCall :: h ∧
        calls w `suffix_of` h ∧
        collaboratorListings h = collaboratorListings (calls w) ∧
        match selection with
        | Ok randomSelection =>
            ∃ allCollaboratorPermissions,
              repositoryCollaborators prctx h = Ok allCollaboratorPermissions ∧
              ∀ u, u ∈ randomSelection →
                   is_Some (allCollaboratorPermissions !! u) ∧ u ≠ Author prctx
        | Err err =>
            ∃ cause, repositoryCollaborators prctx h = Err cause ∧
                     err = listingError cause
        end
  | (Panicked _, _) => True
  | (OutOfFuel, _) => False
  end.
Proof.
  unfold leafSelection. unfold_go.
  pose proof (candidates_run prctx (ReviewRequestRule child) w) as Hfound.
  destruct (candidates prctx _ w) as [[found|p|] w1]; [|done..].
  destruct Hfound as (_ & h & h' & team & organization & Hcalls & Hsuf1
                      & Hsuf2 & Hcount & _ & _ & ->).
  destruct (repositoryCollaborators prctx h) as [perms|cause] eqn:Hlist.
  - destruct (eligible_run prctx
                (withCollaborators (ReviewRequestRule child) perms
                   (list_to_set (Users (ReviewRequestRule child))
                    ∪ list_to_set (resolved team)
                    ∪ list_to_set organization.1))
                perms w1) as (allUserList & -> & _ & _ & Helig).
    pose proof (selectRandomUsers_subset
                  (RequiredCount (ReviewRequestRule child)) allUserList
                  (mkWorld (rand w1) (calls w1) (tail (rangeSeeds w1)))) as Hsel.
    destruct (selectRandomUsers _ allUserList _) as [[randomSelection|p|] w2];
      [|done..].
    destruct Hsel as (Hsub & Hcalls2 & _). simpl in Hcalls2.
    exists h. split_and!; [congruence|by etrans|done|].
    exists perms. split; [done|].
    intros u Hu. apply Hsub, Helig in Hu. tauto.
  - exists h. split_and!; [done|by etrans|done|]. by exists cause.
Qed.

(** The loop of lines 100-159.  Without an error the users are those of
    the earlier leaves followed by the selection of each leaf in turn, and
    the collaborators were listed once for each leaf.  With an error the
    users are nil, and the error is that of the last call, a listing of
    the collaborators. *)
Lemma rangeLeaves_run (prctx : Context) (pendingLeafNodes : list Result)
    (requestedUsers : list string) (w : World) :
  match rangeLeaves prctx pendingLeafNodes requestedUsers w with
  | (Done (users, None), w') =>
      calls w `suffix_of` calls w' ∧
      collaboratorListings (calls w')
        = collaboratorListings (calls w) + length pendingLeafNodes ∧
      ∃ selections,
        users = requestedUsers ++ concat selections ∧
        Forall2
          (λ (child : Result) (randomSelection : list string),
             ∃ h allCollaboratorPermissions,
               ListRepositoryCollaboratorsCall :: h `suffix_of` calls w' ∧
               calls w `suffix_of` h ∧
               repositoryCollaborators prctx h = Ok allCollaboratorPermissions ∧
               ∀ u, u ∈ randomSelection →
                    is_Some (allCollaboratorPermissions !! u)
                    ∧ u ≠ Author prctx)
          pendingLeafNodes selections
  | (Done (users, Some err), w') =>
      users = [] ∧
      collaboratorListings (calls w')
        ≤ collaboratorListings (calls w) + length pendingLeafNodes ∧
      ∃ h cause,
        calls w' = ListRepositoryCollaboratorsCall :: h ∧
        calls w `suffix_of` h ∧
        repositoryCollaborators prctx h = Err cause ∧
        err = listingError cause
  | (Panicked _, _) => True
  | (OutOfFuel, _) => False
  end.
Proof.
  revert requestedUsers w.
  induction pendingLeafNodes as [|child rest IH]; intros requestedUsers w; simpl.
  { unfold_go. split_and!; [done|lia|].
    exists []. split; [by rewrite app_nil_r|constructor]. }
  unfold_go.
  pose proof (leafSelection_run prctx child w) as Hleaf.
  destruct (leafSelection prctx child w) as [[[randomSelection|err]|p|] w1];
    [| |done..].
  - destruct Hleaf as (h & Hcalls & Hsuf & Hcount & perms & Hlist & Hsel).
    assert (Hsuf1 : calls w `suffix_of` calls w1).
    { rewrite Hcalls. by apply suffix_cons_r. }
    assert (Hcount1 : collaboratorListings (calls w1)
                      = collaboratorListings (calls w) + 1).
    { rewrite Hcalls, collaboratorListings_cons, Hcount.
      rewrite decide_True by done. lia. }
    specialize (IH (requestedUsers ++ randomSelection) w1).
    destruct (rangeLeaves prctx rest _ w1) as [[[users [err|]]|p|] w2];
      [| |done..].
    + destruct IH as (-> & Hle & h2 & cause & Hcalls2 & Hsuf2 & Hlist2 & ->).
      split_and!; [done|lia|].
      exists h2, cause. split_and!; [done|by etrans|done|done].
    + destruct IH as (Hsuf2 & Hcount2 & selections & -> & Hall).
      split_and!; [by etrans|lia|].
      exists (randomSelection :: selections). split.
      { simpl. by rewrite app_assoc. }
      constructor.
      * exists h, perms. split_and!; [|done..].
        rewrite <- Hcalls. done.
      * eapply Forall2_impl; [exact Hall|].
        intros c sel (h2 & perms2 & ? & ? & ? & ?).
        exists h2, perms2. split_and!; [done|by etrans|done|done].
  - destruct Hleaf as (h & Hcalls & Hsuf & Hcount & cause & Hlist & ->).
    split_and!; [done| |by exists h, cause].
    rewrite Hcalls, collaboratorListings_cons, Hcount.
    rewrite decide_True by done. lia.
Qed.

Lemma rangeLeaves_app (prctx : Context) (earlier later : list Result)
    (requestedUsers : list string) (w : World) :
  rangeLeaves prctx (earlier ++ later) requestedUsers w =
    match rangeLeaves prctx earlier requestedUsers w with
    | (Done (users, None), w1) => rangeLeaves prctx later users w1
    | stopped => stopped
    end.
Proof.
  revert requestedUsers w.
  induction earlier as [|child earlier IH]; intros requestedUsers w; simpl.
  { done. }
  unfold_go.
  destruct (leafSelection prctx child w) as [[[randomSelection|err]|p|] w1];
    [|done..].
  apply IH.
Qed.

(** C2.  Every identity in the selection of a pending leaf is a key of the
    permission map that [ListRepositoryCollaborators] returned for that
    leaf, and is not the author, whoever the rule names.  When
    [FindRandomRequesters] returns reviewers, they are the selections of
    the pending leaves, one after the other, each with that property. *)
Theorem FindRandomRequesters_eligible (prctx : Context) :
  (∀ child w randomSelection w',
     leafSelection prctx child w = (Done (Ok randomSelection), w') →
     ∃ h allCollaboratorPermissions,
       calls w' = ListRepositoryCollaboratorsCall :: h ∧
       repositoryCollaborators prctx h = Ok allCollaboratorPermissions ∧
       ∀ u, u ∈ randomSelection →
            is_Some (allCollaboratorPermissions !! u) ∧ u ≠ Author prctx) ∧
  (∀ result w users w',
     FindRandomRequesters prctx result w = (Done (users, None), w') →
     ∃ selections,
       users = concat selections ∧
       Forall2
         (λ (child : Result) (randomSelection : list string),
            ∃ h allCollaboratorPermissions,
              ListRepositoryCollaboratorsCall :: h `suffix_of` calls w' ∧
              calls w `suffix_of` h ∧
              repositoryCollaborators prctx h = Ok allCollaboratorPermissions ∧
              ∀ u, u ∈ randomSelection →
                   is_Some (allCollaboratorPermissions !! u)
                   ∧ u ≠ Author prctx)
         (findLeafChildren result) selections).
Proof.
  split.
  - intros child w randomSelection w' Hrun.
    pose proof (leafSelection_run prctx child w) as Hleaf.
    rewrite Hrun in Hleaf.
    destruct Hleaf as (h & Hcalls & _ & _ & perms & Hlist & Hsel).
    by exists h, perms.
  - unfold FindRandomRequesters. intros result w users w' Hrun.
    pose proof (rangeLeaves_run prctx (findLeafChildren result) [] w) as Hloop.
    rewrite Hrun in Hloop.
    destruct Hloop as (_ & _ & selections & Husers & Hall).
    by exists selections.
Qed.

(** The author [d] and the stranger [z] are named by the rule, and [a]
    alone is selected. *)
Lemma FindRandomRequesters_eligible_witness :
  ∃ selections,
    ["a"] = concat selections ∧
    Forall2
      (λ (child : Result) (randomSelection : list string),
         ∃ h allCollaboratorPermissions,
           ListRepositoryCollaboratorsCall :: h
             `suffix_of` [ListRepositoryCollaboratorsCall;
                          ListOrganizationMembersCall "org";
                          ListTeamMembersCall "org" "team1"] ∧
           [] `suffix_of` h ∧
           repositoryCollaborators (snapshot "d" fourCollaborators) h
             = Ok allCollaboratorPermissions ∧
           ∀ u, u ∈ randomSelection →
                is_Some (allCollaboratorPermissions !! u)
                ∧ u ≠ Author (snapshot "d" fourCollaborators))
      (findLeafChildren (pendingLeafOf authorAndStranger)) selections.
Proof.
  apply (proj2 (FindRandomRequesters_eligible (snapshot "d" fourCollaborators))
           (pendingLeafOf authorAndStranger) (drawing [0; 0]) ["a"]
           (mkWorld [] [ListRepositoryCollaboratorsCall;
                        ListOrganizationMembersCall "org";
                        ListTeamMembersCall "org" "team1"] [])).
  vm_compute. reflexivity.
Defined.

(** C4 at a failing input.  The rule asks for the admins and the write
    collaborators; [alice] is an admin and [bob] a write collaborator, and
    neither is the author.  The range of lines 128 and 138 binds the
    permission levels, not the identities: the pool of candidates stays
    empty, and no reviewer is requested. *)
Lemma admins_and_writers_not_added :
  aliceAndBob !! "alice" = Some GithubAdminPermission ∧
  aliceAndBob !! "bob" = Some GithubWritePermission ∧
  withCollaborators adminsAndWriters aliceAndBob ∅ = ∅ ∧
  (candidates (snapshot "carol" aliceAndBob) adminsAndWriters (drawing [])).1
    = Done (Ok (∅, aliceAndBob)) ∧
  (FindRandomRequesters (snapshot "carol" aliceAndBob)
     (pendingLeafOf adminsAndWriters) (drawing [])).1
    = Done ([], None).
Proof. by vm_compute. Qed.

(** The defect in general: when no collaborator bears the name of a
    permission level of the map, the two flags add nobody. *)
Lemma rangeCollaborators_nil (permission : string)
    (allCollaboratorPermissions : gmap string string) :
  permission ≠ "" →
  (∀ u c, allCollaboratorPermissions !! u = Some c →
          allCollaboratorPermissions !! c = None) →
  rangeCollaborators permission allCollaboratorPermissions = [].
Proof.
  intros Hperm Hnames.
  destruct (rangeCollaborators _ _) as [|c l] eqn:Hrange; [done|].
  assert (Hc : c ∈ rangeCollaborators permission allCollaboratorPermissions)
    by (rewrite Hrange; by left).
  apply elem_of_rangeCollaborators in Hc as [[u Hu] Hlevel].
  rewrite (Hnames u c Hu) in Hlevel. simpl in Hlevel. congruence.
Qed.

(** C8 at a failing input.  The rule names the users [a] and [b], a team
    of [t1] and [a], an organization of [o1], and asks for the admins and
    the write collaborators; [alice] is an admin and [bob] a write
    collaborator.  The first three sources add up in the pool, none of
    them replaced or dropped, but the pool is not the union of the four
    sources: the loops of lines 128 and 138 range over the permission
    levels, and [alice] and [bob] are missing. *)
Lemma expansions_missing_from_pool :
  teamResolved (staffed "d") everySource [] (["t1"; "a"], None) ∧
  organizationResolved (staffed "d") everySource
    [ListTeamMembersCall "org" "team1"] (["o1"], None) ∧
  staff !! "alice" = Some GithubAdminPermission ∧
  staff !! "bob" = Some GithubWritePermission ∧
  (candidates (staffed "d") everySource (drawing [0; 0])).1
    = Done (Ok (list_to_set ["a"; "b"; "t1"; "o1"], staff)) ∧
  unionOfSources everySource (["t1"; "a"], None) (["o1"], None) staff
    = list_to_set ["a"; "b"; "t1"; "o1"; "alice"; "bob"] ∧
  ("alice" ∉ (list_to_set ["a"; "b"; "t1"; "o1"] : gset string)) ∧
  ("bob" ∉ (list_to_set ["a"; "b"; "t1"; "o1"] : gset string)).
Proof.
  split_and!; try by vm_compute.
  - right. exists "org/team1", "org", "team1".
    split_and!; [apply list_elem_of_here|done..].
  - right. exists "org". split; [apply list_elem_of_here|done].
Qed.

(** C6 at a failing input.  The listing of the organization fails, and
    returns the member [o1] that it had read next to its error.  Line 116
    logs that the organization is skipped, and line 118 shoves the slice
    all the same: the pool is not left as it was, and [o1] is requested
    for review. *)
Lemma organization_members_kept_on_error :
  organizationMembers (interrupted "d") [] "org"
    = (["o1"], Some (errorString "connection reset")) ∧
  (withOrganizationMembers (interrupted "d") userAndOrg {["a"]}
     (drawing [0])).1 = Done (list_to_set ["a"; "o1"]) ∧
  ({["a"]} : gset string) ≠ list_to_set ["a"; "o1"] ∧
  FindRandomRequesters (interrupted "d") (pendingLeafOf userAndOrg)
    (drawing [0])
  = (Done (["o1"; "a"], None),
     mkWorld [] [ListRepositoryCollaboratorsCall;
                 ListOrganizationMembersCall "org"] []).
Proof. split_and!; by vm_compute. Qed.

(** ** What holds of the resolution of the sources *)

Lemma withTeamMembers_failed (prctx : Context) (rule : Rule)
    (allUsers : gset string) (w : World) (randomTeam org team : string)
    (err : error) :
  Teams rule !! (hd 0 (rand w) mod length (Teams rule)) = Some randomTeam →
  Split randomTeam "/" !! 0 = Some org →
  Split randomTeam "/" !! 1 = Some team →
  (teamMembers prctx (calls w) org team).2 = Some err →
  withTeamMembers prctx rule allUsers w
    = (Done allUsers,
       mkWorld (tail (rand w)) (ListTeamMembersCall org team :: calls w)
         (rangeSeeds w)).
Proof.
  intros Hteam Horg Hslug Herr.
  assert (Hlen : 0 < length (Teams rule)).
  { apply lookup_lt_Some in Hteam. lia. }
  unfold withTeamMembers. rewrite bool_decide_eq_true_2 by done.
  unfold_go.
  destruct (selectTeamMembers_run prctx (Teams rule) w Hlen)
    as (randomTeam' & Hteam' & ->).
  assert (randomTeam' = randomTeam) as -> by congruence.
  destruct (Split randomTeam "/") as [|org' [|team' rest]]; [done..|].
  simpl in Horg, Hslug. injection Horg as ->. injection Hslug as ->.
  by rewrite Herr.
Qed.

(** X21.  A listing of the members of a team that fails is not fatal, and
    the members it may have returned next to its error are not used:
    after the draw of the team and the call, the leaf goes on exactly as
    a leaf whose rule names no team, with the same pool, the same
    selection and the same error of the collaborators if any. *)
Theorem team_failure_as_no_team (prctx : Context) (child : Result) (w : World)
    (randomTeam org team : string) (err : error) :
  Teams (ReviewRequestRule child)
    !! (hd 0 (rand w) mod length (Teams (ReviewRequestRule child)))
    = Some randomTeam →
  Split randomTeam "/" !! 0 = Some org →
  Split randomTeam "/" !! 1 = Some team →
  (teamMembers prctx (calls w) org team).2 = Some err →
  leafSelection prctx child w
    = leafSelection prctx (withoutTeams child)
        (mkWorld (tail (rand w)) (ListTeamMembersCall org team :: calls w)
           (rangeSeeds w)).
Proof.
  intros Hteam Horg Hslug Herr.
  unfold leafSelection, candidates. unfold_go.
  rewrite (withTeamMembers_failed prctx _ _ w randomTeam org team err)
    by done.
  by destruct child as [status error [users teams orgs admins writers n] children].
Qed.

(** The team returns [t1] next to its error; [a] alone is selected. *)
Lemma team_failure_as_no_team_witness :
  leafSelection (interruptedTeam "d") (pendingLeafOf failingTeam) (drawing [0])
    = leafSelection (interruptedTeam "d")
        (withoutTeams (pendingLeafOf failingTeam))
        (mkWorld (tail (rand (drawing [0])))
           (ListTeamMembersCall "org" "team1" :: calls (drawing [0]))
           (rangeSeeds (drawing [0])))
  ∧ (leafSelection (interruptedTeam "d") (pendingLeafOf failingTeam)
       (drawing [0])).1 = Done (Ok ["a"]).
Proof.
  split; [|by vm_compute].
  apply (team_failure_as_no_team (interruptedTeam "d")
           (pendingLeafOf failingTeam) (drawing [0]) "org/team1" "org" "team1"
           (errorString "connection reset")); reflexivity.
Defined.

(** X22.  The sources of a leaf add up.  The pool holds the users of the
    rule, the members of the team when its listing did not fail, and the
    members the listing of the organization returned, with an error or
    without; the two flags then only add to it, and only identities of the
    level they name.  No source replaces or drops what an earlier one
    added. *)
Theorem candidates_accumulate (prctx : Context) (rule : Rule) (w w' : World)
    (allUsers : gset string) (allCollaboratorPermissions : gmap string string) :
  candidates prctx rule w
    = (Done (Ok (allUsers, allCollaboratorPermissions)), w') →
  ∃ h h' team organization,
    calls w' = ListRepositoryCollaboratorsCall :: h ∧
    calls w `suffix_of` h' ∧ h' `suffix_of` h ∧
    repositoryCollaborators prctx h = Ok allCollaboratorPermissions ∧
    teamResolved prctx rule (calls w) team ∧
    organizationResolved prctx rule h' organization ∧
    (∀ u, u ∈ Users rule → u ∈ allUsers) ∧
    (∀ u, u ∈ resolved team → u ∈ allUsers) ∧
    (∀ u, u ∈ organization.1 → u ∈ allUsers) ∧
    (∀ u, u ∈ allUsers →
          u ∈ Users rule ∨ u ∈ resolved team ∨ u ∈ organization.1 ∨
          u ∈ collaboratorExpansion rule allCollaboratorPermissions).
Proof.
  intros Hrun.
  pose proof (candidates_run prctx rule w) as Hfound. rewrite Hrun in Hfound.
  destruct Hfound as (_ & h & h' & team & organization & Hcalls & Hsuf & Hsuf'
                      & _ & Hteam & Horg & Hpool).
  exists h, h', team, organization.
  destruct (repositoryCollaborators prctx h) as [perms|err]; [|done].
  injection Hpool as -> ->.
  rewrite withCollaborators_union.
  split_and!; [done|done|done|done|done|done|..]; intros u;
    rewrite !elem_of_union, !elem_of_list_to_set; [tauto..|].
  intros [[[?|?]|?]|Hadded]; [tauto..|].
  do 3 right. by apply withCollaborators_expansion.
Qed.

Lemma candidates_accumulate_witness :
  ∃ h h' team organization,
    calls (mkWorld [] [ListRepositoryCollaboratorsCall;
                       ListOrganizationMembersCall "org";
                       ListTeamMembersCall "org" "team1"] [])
      = ListRepositoryCollaboratorsCall :: h ∧
    calls (drawing [0; 0]) `suffix_of` h' ∧ h' `suffix_of` h ∧
    repositoryCollaborators (staffed "d") h = Ok staff ∧
    teamResolved (staffed "d") everySource (calls (drawing [0; 0])) team ∧
    organizationResolved (staffed "d") everySource h' organization ∧
    (∀ u, u ∈ Users everySource →
          u ∈ (list_to_set ["a"; "b"; "t1"; "o1"] : gset string)) ∧
    (∀ u, u ∈ resolved team →
          u ∈ (list_to_set ["a"; "b"; "t1"; "o1"] : gset string)) ∧
    (∀ u, u ∈ organization.1 →
          u ∈ (list_to_set ["a"; "b"; "t1"; "o1"] : gset string)) ∧
    (∀ u, u ∈ (list_to_set ["a"; "b"; "t1"; "o1"] : gset string) →
          u ∈ Users everySource ∨ u ∈ resolved team ∨ u ∈ organization.1 ∨
          u ∈ collaboratorExpansion everySource staff).
Proof.
  apply (candidates_accumulate (staffed "d") everySource (drawing [0; 0])
           (mkWorld [] [ListRepositoryCollaboratorsCall;
                        ListOrganizationMembersCall "org";
                        ListTeamMembersCall "org" "team1"] [])).
  vm_compute. reflexivity.
Defined.

(** X23.  No failure of the listing of a team or of an organization is
    returned: an error of [FindRandomRequesters] comes with no user, and
    is the error of a listing of the collaborators, the last call of the
    run, wrapped by line 123. *)
Theorem FindRandomRequesters_error_of_collaborators (prctx : Context)
    (result : Result) (w w' : World) (users : list string) (err : error) :
  FindRandomRequesters prctx result w = (Done (users, Some err), w') →
  users = [] ∧
  ∃ h cause,
    calls w' = ListRepositoryCollaboratorsCall :: h ∧
    repositoryCollaborators prctx h = Err cause ∧
    err = listingError cause.
Proof.
  unfold FindRandomRequesters. intros Hrun.
  pose proof (rangeLeaves_run prctx (findLeafChildren result) [] w) as Hloop.
  rewrite Hrun in Hloop.
  destruct Hloop as (-> & _ & h & cause & Hcalls & _ & Hlist & ->).
  split; [done|]. by exists h, cause.
Qed.

(** The listings of the team and of the organization fail for the first
    leaf; the error returned is that of the collaborators. *)
Lemma FindRandomRequesters_error_of_collaborators_witness :
  @nil string = [] ∧
  ∃ h cause,
    calls (mkWorld [] [ListRepositoryCollaboratorsCall;
                       ListOrganizationMembersCall "org";
                       ListTeamMembersCall "org" "team1"] [])
      = ListRepositoryCollaboratorsCall :: h ∧
    repositoryCollaborators
      (mkContext "d" (λ _ _ _, ([], Some (errorString "team not found")))
         (λ _ _, ([], Some (errorString "organization not found")))
         (λ _, Err (errorString "server error"))) h = Err cause ∧
    listingError (errorString "server error") = listingError cause.
Proof.
  apply (FindRandomRequesters_error_of_collaborators
           (mkContext "d" (λ _ _ _, ([], Some (errorString "team not found")))
              (λ _ _, ([], Some (errorString "organization not found")))
              (λ _, Err (errorString "server error")))
           (pendingLeafOf authorAndStranger) (drawing [0; 0])
           (mkWorld [] [ListRepositoryCollaboratorsCall;
                        ListOrganizationMembersCall "org";
                        ListTeamMembersCall "org" "team1"] [])).
  vm_compute. reflexivity.
Defined.

(** C7.  When the processing of a pending leaf fails on the listing of the
    collaborators, after earlier leaves gave their selections,
    [FindRandomRequesters] returns nil with the error of the listing: the
    selections of the earlier leaves are not returned. *)
Theorem FindRandomRequesters_all_or_nothing (prctx : Context) (result : Result)
    (earlier later : list Result) (child : Result)
    (w w1 w2 : World) (users : list string) (err : error) :
  findLeafChildren result = earlier ++ child :: later →
  rangeLeaves prctx earlier [] w = (Done (users, None), w1) →
  leafSelection prctx child w1 = (Done (Err err), w2) →
  FindRandomRequesters prctx result w = (Done ([], Some err), w2) ∧
  ∃ h cause,
    calls w2 = ListRepositoryCollaboratorsCall :: h ∧
    repositoryCollaborators prctx h = Err cause ∧
    err = listingError cause.
Proof.
  intros Hleaves Hearlier Hchild. split.
  - unfold FindRandomRequesters. rewrite Hleaves, rangeLeaves_app, Hearlier.
    simpl. unfold_go. by rewrite Hchild.
  - pose proof (leafSelection_run prctx child w1) as Hleaf.
    rewrite Hchild in Hleaf.
    destruct Hleaf as (h & Hcalls & _ & _ & cause & Hlist & ->).
    by exists h, cause.
Qed.

(** The first leaf selects [a]; the listing fails for the second leaf, and
    [a] is not returned. *)
Lemma FindRandomRequesters_all_or_nothing_witness :
  FindRandomRequesters (listedOnce "d" fourCollaborators) twoLeaves (drawing [])
    = (Done ([], Some (listingError (errorString "rate limit exceeded"))),
       mkWorld [] [ListRepositoryCollaboratorsCall;
                   ListRepositoryCollaboratorsCall] [])
  ∧ ∃ h cause,
      calls (mkWorld [] [ListRepositoryCollaboratorsCall;
                         ListRepositoryCollaboratorsCall] [])
        = ListRepositoryCollaboratorsCall :: h ∧
      repositoryCollaborators (listedOnce "d" fourCollaborators) h = Err cause ∧
      listingError (errorString "rate limit exceeded") = listingError cause.
Proof.
  apply (FindRandomRequesters_all_or_nothing (listedOnce "d" fourCollaborators)
           twoLeaves
           [pendingLeafOf (mkRule ["a"] [] [] false false 1)] []
           (pendingLeafOf (mkRule ["b"] [] [] false false 1))
           (drawing []) (mkWorld [] [ListRepositoryCollaboratorsCall] [])
           (mkWorld [] [ListRepositoryCollaboratorsCall;
                        ListRepositoryCollaboratorsCall] [])
           ["a"]).
  - reflexivity.
  - vm_compute. reflexivity.
  - vm_compute. reflexivity.
Defined.

(** C9.  The body of the loop lists the collaborators once for its leaf, as
    its last call to the context, whatever the rule of the leaf holds; a
    run that returns without an error has listed them once for each pending
    leaf; and when the listing fails for a leaf whose rule names no team
    and no organization, be its flags set or not, the run returns nil with
    the error of the listing. *)
Theorem collaborators_listed_for_every_leaf (prctx : Context) :
  (∀ child w selection w',
     leafSelection prctx child w = (Done selection, w') →
     ∃ h, calls w' = ListRepositoryCollaboratorsCall :: h ∧
          collaboratorListings h = collaboratorListings (calls w)) ∧
  (∀ result w users w',
     FindRandomRequesters prctx result w = (Done (users, None), w') →
     collaboratorListings (calls w')
       = collaboratorListings (calls w) + length (findLeafChildren result)) ∧
  (∀ result earlier child later w users w1 cause,
     findLeafChildren result = earlier ++ child :: later →
     rangeLeaves prctx earlier [] w = (Done (users, None), w1) →
     Teams (ReviewRequestRule child) = [] →
     Organizations (ReviewRequestRule child) = [] →
     repositoryCollaborators prctx (calls w1) = Err cause →
     FindRandomRequesters prctx result w
       = (Done ([], Some (listingError cause)),
          mkWorld (rand w1) (ListRepositoryCollaboratorsCall :: calls w1)
            (rangeSeeds w1))).
Proof.
  split_and!.
  - intros child w selection w' Hrun.
    pose proof (leafSelection_run prctx child w) as Hleaf.
    rewrite Hrun in Hleaf. destruct Hleaf as (h & ? & _ & ? & _).
    by exists h.
  - intros result w users w' Hrun. unfold FindRandomRequesters in Hrun.
    pose proof (rangeLeaves_run prctx (findLeafChildren result) [] w) as Hloop.
    rewrite Hrun in Hloop. tauto.
  - intros result earlier child later w users w1 cause
      Hleaves Hearlier Hteams Horgs Hlist.
    unfold FindRandomRequesters.
    rewrite Hleaves, rangeLeaves_app, Hearlier. simpl.
    unfold leafSelection, candidates, withTeamMembers, withOrganizationMembers,
      ListRepositoryCollaborators.
    rewrite Hteams, Horgs. simpl. unfold_go. simpl. by rewrite Hlist.
Qed.

(** One leaf with explicit users only, and a directory whose collaborators
    cannot be listed. *)
Lemma collaborators_listed_for_every_leaf_witness :
  FindRandomRequesters
    (mkContext "d" (λ _ _ _, ([], None)) (λ _ _, ([], None))
       (λ _, Err (errorString "server error")))
    (pendingLeafOf twoOfThree) (drawing [])
  = (Done ([], Some (listingError (errorString "server error"))),
     mkWorld [] [ListRepositoryCollaboratorsCall] []).
Proof.
  apply (proj2 (proj2 (collaborators_listed_for_every_leaf
           (mkContext "d" (λ _ _ _, ([], None)) (λ _ _, ([], None))
              (λ _, Err (errorString "server error")))))
           (pendingLeafOf twoOfThree) [] (pendingLeafOf twoOfThree) []
           (drawing []) [] (drawing []) (errorString "server error"));
    reflexivity.
Defined.

(** ** Two runs that differ in the order of the ranges over maps *)

Section TwoRuns.

Lemma related_ret {A B : Type} (R : A → B → Prop) (a : A) (b : B) :
  R a b → related R (mret a) (mret b).
Proof. intros HR w1 w2 Hw. by unfold_go. Qed.

Lemma related_raise {A B : Type} (R : A → B → Prop) (p : panic) :
  related R (raise p) (raise p).
Proof. intros w1 w2 Hw. by unfold_go. Qed.

Lemma related_bind {A B C D : Type} (R : A → B → Prop) (S : C → D → Prop)
    (m1 : Go A) (m2 : Go B) (f : A → Go C) (g : B → Go D) :
  related R m1 m2 →
  (∀ a b, R a b → related S (f a) (g b)) →
  related S (m1 ≫= f) (m2 ≫= g).
Proof.
  intros Hm Hfg w1 w2 Hw. specialize (Hm w1 w2 Hw). unfold_go.
  destruct (m1 w1) as [[a|p|] w1'], (m2 w2) as [[b|q|] w2']; try done.
  destruct Hm as [HR Hw']. by apply Hfg.
Qed.

Lemma related_impl {A B : Type} (R S : A → B → Prop) (m1 : Go A) (m2 : Go B) :
  (∀ a b, R a b → S a b) → related R m1 m2 → related S m1 m2.
Proof.
  intros HRS Hm w1 w2 Hw. specialize (Hm w1 w2 Hw).
  destruct (m1 w1) as [[a|p|] w1'], (m2 w2) as [[b|q|] w2']; try done.
  destruct Hm. split; auto.
Qed.

Lemma related_Intn (n : nat) : related eq (Intn n) (Intn n).
Proof.
  intros w1 w2 [Hrand Hcalls]. unfold Intn.
  case_bool_decide; [done|]. rewrite Hrand. split; [done|].
  split; simpl; congruence.
Qed.

Lemma related_index {A : Type} (l1 l2 : list A) (i : nat) :
  length l1 = length l2 →
  related (λ _ _, True) (index l1 i) (index l2 i).
Proof.
  intros Hlen w1 w2 Hw. unfold index.
  destruct (l1 !! i) as [x|] eqn:H1, (l2 !! i) as [y|] eqn:H2; unfold_go.
  - done.
  - apply lookup_lt_Some in H1. apply lookup_ge_None in H2. lia.
  - apply lookup_lt_Some in H2. apply lookup_ge_None in H1. lia.
  - by rewrite Hlen.
Qed.

Lemma related_index_eq {A : Type} (l : list A) (i : nat) :
  related eq (index l i) (index l i).
Proof.
  intros w1 w2 Hw. unfold index. by destruct (l !! i); unfold_go.
Qed.

Lemma related_ListTeamMembers (prctx : Context) (org team : string) :
  related eq (ListTeamMembers prctx org team) (ListTeamMembers prctx org team).
Proof.
  intros w1 w2 [Hrand Hcalls]. unfold ListTeamMembers. rewrite Hcalls.
  split; [done|]. split; simpl; congruence.
Qed.

Lemma related_ListOrganizationMembers (prctx : Context) (org : string) :
  related eq (ListOrganizationMembers prctx org)
             (ListOrganizationMembers prctx org).
Proof.
  intros w1 w2 [Hrand Hcalls]. unfold ListOrganizationMembers. rewrite Hcalls.
  split; [done|]. split; simpl; congruence.
Qed.

Lemma related_ListRepositoryCollaborators (prctx : Context) :
  related eq (ListRepositoryCollaborators prctx)
             (ListRepositoryCollaborators prctx).
Proof.
  intros w1 w2 [Hrand Hcalls]. unfold ListRepositoryCollaborators.
  rewrite Hcalls. split; [done|]. split; simpl; congruence.
Qed.

(** The order of the range changes the order of the eligible users, not
    their number. *)
Lemma related_eligible (prctx : Context) (allUsers : gset string)
    (allCollaboratorPermissions : gmap string string) :
  related sameLength
    (eligible prctx allUsers allCollaboratorPermissions)
    (eligible prctx allUsers allCollaboratorPermissions).
Proof.
  intros w1 w2 [Hrand Hcalls].
  destruct (eligible_run prctx allUsers allCollaboratorPermissions w1)
    as (l1 & -> & Hperm1 & _).
  destruct (eligible_run prctx allUsers allCollaboratorPermissions w2)
    as (l2 & -> & Hperm2 & _).
  split; [|by split].
  unfold sameLength. by rewrite Hperm1, Hperm2.
Qed.

(** The sampler reads the slice through its length only, but for the
    elements it returns. *)
Lemma related_drawUnselected (n : Z) (users1 users2 : list string)
    (selected : gmap nat bool) (fuel : nat) (j : Z) :
  length users1 = length users2 →
  related eq (drawUnselected fuel n users1 selected j)
             (drawUnselected fuel n users2 selected j).
Proof.
  intros Hlen. revert j.
  induction fuel as [|fuel IH]; intros j; simpl.
  { intros w1 w2 Hw. by unfold_go. }
  case_bool_decide.
  { rewrite Hlen. apply related_raise. }
  rewrite Hlen. eapply related_bind; [apply related_Intn|].
  intros m ? <-. destruct (default false (selected !! m)); [apply IH|].
  by apply related_ret.
Qed.

Lemma related_selectLoop (n : Z) (users1 users2 : list string) (iters : nat)
    (selected : gmap nat bool) (selections1 selections2 : list string) :
  length users1 = length users2 →
  sameLength selections1 selections2 →
  related sameLength
    (selectLoop iters n users1 selected selections1)
    (selectLoop iters n users2 selected selections2).
Proof.
  intros Hlen. revert selected selections1 selections2.
  induction iters as [|iters IH]; intros selected selections1 selections2 Hsel;
    simpl.
  { by apply related_ret. }
  eapply related_bind; [by apply related_drawUnselected|].
  intros m ? <-.
  eapply related_bind; [by apply related_index|].
  intros u1 u2 _. apply IH.
  unfold sameLength in *. rewrite !length_app. simpl. lia.
Qed.

Lemma related_selectRandomUsers (n : Z) (users1 users2 : list string) :
  sameLength users1 users2 →
  related sameLength (selectRandomUsers n users1) (selectRandomUsers n users2).
Proof.
  intros Hlen. unfold selectRandomUsers.
  case_bool_decide; [by apply related_ret|].
  unfold sameLength in Hlen. rewrite Hlen.
  case_bool_decide; [by apply related_ret|].
  by apply related_selectLoop.
Qed.

Lemma related_selectTeamMembers (prctx : Context) (allTeams : list string) :
  related eq (selectTeamMembers prctx allTeams)
             (selectTeamMembers prctx allTeams).
Proof.
  unfold selectTeamMembers.
  eapply related_bind; [apply related_Intn|]. intros i ? <-.
  eapply related_bind; [apply related_index_eq|]. intros randomTeam ? <-.
  eapply related_bind; [apply related_index_eq|]. intros org ? <-.
  eapply related_bind; [apply related_index_eq|]. intros team ? <-.
  eapply related_bind; [apply related_ListTeamMembers|].
  intros [teamMembers [err|]] ? <-; by apply related_ret.
Qed.

Lemma related_candidates (prctx : Context) (rule : Rule) :
  related eq (candidates prctx rule) (candidates prctx rule).
Proof.
  unfold candidates.
  eapply (related_bind eq).
  { unfold withTeamMembers. case_bool_decide; [|by apply related_ret].
    eapply related_bind; [apply related_selectTeamMembers|].
    intros listing ? <-. by apply related_ret. }
  intros allUsers1 ? <-.
  eapply (related_bind eq).
  { unfold withOrganizationMembers. case_bool_decide; [|by apply related_ret].
    eapply related_bind; [apply related_Intn|]. intros i ? <-.
    eapply related_bind; [apply related_index_eq|]. intros randomOrg ? <-.
    eapply related_bind; [apply related_ListOrganizationMembers|].
    intros [orgMembers err] ? <-. by apply related_ret. }
  intros allUsers2 ? <-.
  eapply related_bind; [apply related_ListRepositoryCollaborators|].
  intros listing ? <-. destruct listing; by apply related_ret.
Qed.

Lemma related_leafSelection (prctx : Context) (child : Result) :
  related sameSelection (leafSelection prctx child) (leafSelection prctx child).
Proof.
  unfold leafSelection.
  eapply related_bind; [apply related_candidates|].
  intros found ? <-.
  destruct found as [[allUsers allCollaboratorPermissions]|err];
    [|by apply related_ret].
  eapply related_bind; [apply related_eligible|].
  intros allUserList1 allUserList2 Hlen.
  eapply related_bind; [by apply related_selectRandomUsers|].
  intros randomSelection1 randomSelection2 Hsel. by apply related_ret.
Qed.

Lemma related_rangeLeaves (prctx : Context) (pendingLeafNodes : list Result)
    (requestedUsers1 requestedUsers2 : list string) :
  sameLength requestedUsers1 requestedUsers2 →
  related sameReturn
    (rangeLeaves prctx pendingLeafNodes requestedUsers1)
    (rangeLeaves prctx pendingLeafNodes requestedUsers2).
Proof.
  revert requestedUsers1 requestedUsers2.
  induction pendingLeafNodes as [|child rest IH];
    intros requestedUsers1 requestedUsers2 Hlen; simpl.
  { by apply related_ret. }
  eapply related_bind; [apply related_leafSelection|].
  intros [randomSelection1|err1] [randomSelection2|err2] Hsel; try done.
  - apply IH. simpl in Hsel. unfold sameLength in *. rewrite !length_app. lia.
  - simpl in Hsel. subst err2. by apply related_ret.
Qed.

End TwoRuns.

(** C10, as amended.  For two runs on the same result tree and the same
    context, from the same state of the source of randomness and the same
    calls made: the runs are identical when the ranges over the candidates
    of the leaves go in the same order; whatever these orders, both runs
    panic alike or return the same error and as many reviewers, and they
    leave the source of randomness in the same state after the same calls. *)
Theorem FindRandomRequesters_deterministic_up_to_order (prctx : Context)
    (result : Result) (w1 w2 : World) :
  rand w1 = rand w2 → calls w1 = calls w2 →
  (rangeSeeds w1 = rangeSeeds w2 →
   FindRandomRequesters prctx result w1 = FindRandomRequesters prctx result w2) ∧
  match FindRandomRequesters prctx result w1,
        FindRandomRequesters prctx result w2 with
  | (Done (users1, err1), w1'), (Done (users2, err2), w2') =>
      err1 = err2 ∧ length users1 = length users2 ∧
      rand w1' = rand w2' ∧ calls w1' = calls w2'
  | (Panicked p1, w1'), (Panicked p2, w2') =>
      p1 = p2 ∧ rand w1' = rand w2' ∧ calls w1' = calls w2'
  | _, _ => False
  end.
Proof.
  intros Hrand Hcalls. split.
  { intros Hseeds. destruct w1, w2; simpl in *. by subst. }
  unfold FindRandomRequesters.
  pose proof (related_rangeLeaves prctx (findLeafChildren result) [] []
                eq_refl w1 w2 (conj Hrand Hcalls)) as Hrel.
  pose proof (rangeLeaves_run prctx (findLeafChildren result) [] w1) as Hrun.
  destruct (rangeLeaves prctx _ [] w1) as [[[users1 err1]|p1|] w1'],
           (rangeLeaves prctx _ [] w2) as [[[users2 err2]|p2|] w2'];
    try done.
  destruct Hrel as [[Hlen Herr] [? ?]]. simpl in *. done.
Qed.

Lemma FindRandomRequesters_deterministic_up_to_order_witness :
  (rangeSeeds (mkWorld [0; 1] [] []) = rangeSeeds (mkWorld [0; 1] [] [[1; 1; 1]]) →
   FindRandomRequesters (snapshot "d" fourCollaborators) (pendingLeafOf twoOfThree)
     (mkWorld [0; 1] [] [])
   = FindRandomRequesters (snapshot "d" fourCollaborators)
       (pendingLeafOf twoOfThree) (mkWorld [0; 1] [] [[1; 1; 1]])) ∧
  match FindRandomRequesters (snapshot "d" fourCollaborators)
          (pendingLeafOf twoOfThree) (mkWorld [0; 1] [] []),
        FindRandomRequesters (snapshot "d" fourCollaborators)
          (pendingLeafOf twoOfThree) (mkWorld [0; 1] [] [[1; 1; 1]]) with
  | (Done (users1, err1), w1'), (Done (users2, err2), w2') =>
      err1 = err2 ∧ length users1 = length users2 ∧
      rand w1' = rand w2' ∧ calls w1' = calls w2'
  | (Panicked p1, w1'), (Panicked p2, w2') =>
      p1 = p2 ∧ rand w1' = rand w2' ∧ calls w1' = calls w2'
  | _, _ => False
  end.
Proof.
  apply (FindRandomRequesters_deterministic_up_to_order
           (snapshot "d" fourCollaborators) (pendingLeafOf twoOfThree)
           (mkWorld [0; 1] [] []) (mkWorld [0; 1] [] [[1; 1; 1]]));
    reflexivity.
Defined.

(** C10, as stated, fails: the same tree, the same context and the same
    state of the source of randomness give two different sequences of
    reviewers when the runtime ranges over the candidates of the leaf in
    two different orders. *)
Lemma FindRandomRequesters_depends_on_range_order :
  rand (mkWorld [0; 1] [] []) = rand (mkWorld [0; 1] [] [[1; 1; 1]]) ∧
  calls (mkWorld [0; 1] [] []) = calls (mkWorld [0; 1] [] [[1; 1; 1]]) ∧
  (FindRandomRequesters (snapshot "d" fourCollaborators)
     (pendingLeafOf twoOfThree) (mkWorld [0; 1] [] [])).1
    = Done (["c"; "a"], None) ∧
  (FindRandomRequesters (snapshot "d" fourCollaborators)
     (pendingLeafOf twoOfThree) (mkWorld [0; 1] [] [[1; 1; 1]])).1
    = Done (["b"; "c"], None).
Proof. by vm_compute. Qed.

(** ** Further properties *)

(** Every order of the keys is the order of some seed: the ranges of the
    model are all the ranges the runtime may choose. *)
Lemma rangeOrder_any_order {A : Type} (keys order : list A) :
  keys ≡ₚ order → ∃ seed, rangeOrder seed keys = order.
Proof.
  revert order. induction keys as [|x keys IH]; intros order Hperm.
  { apply Permutation_nil_l in Hperm as <-. by exists []. }
  assert (Hx : x ∈ order) by (rewrite <- Hperm; by left).
  apply list_elem_of_split in Hx as (before & after & ->).
  apply Permutation_cons_app_inv in Hperm.
  destruct (IH _ Hperm) as [seed Hseed].
  exists (length before :: seed).
  change (rangeOrder (length before :: seed) (x :: keys))
    with (take (length before `mod` S (length (rangeOrder seed keys)))
            (rangeOrder seed keys)
          ++ x :: drop (length before `mod` S (length (rangeOrder seed keys)))
                    (rangeOrder seed keys)).
  rewrite Hseed, Nat.mod_small by (rewrite length_app; lia).
  by rewrite take_app_length, drop_app_length.
Qed.

(** X1.  The selection of a leaf holds no identity twice. *)
Theorem leafSelection_NoDup (prctx : Context) (child : Result) (w w' : World)
    (randomSelection : list string) :
  leafSelection prctx child w = (Done (Ok randomSelection), w') →
  NoDup randomSelection.
Proof.
  unfold leafSelection. unfold_go. intros Hrun.
  pose proof (candidates_run prctx (ReviewRequestRule child) w) as Hfound.
  destruct (candidates prctx _ w) as [[[[allUsers perms]|err]|p|] w1];
    [|done..].
  destruct (eligible_run prctx allUsers perms w1)
    as (allUserList & Helig & _ & Hnd & _).
  rewrite Helig in Hrun.
  set (n := RequiredCount (ReviewRequestRule child)) in *.
  destruct (selectRandomUsers_cases n allUserList
              (mkWorld (rand w1) (calls w1) (tail (rangeSeeds w1))))
    as (Hle & Hge & Hbetween).
  destruct (decide (n ≤ 0)%Z) as [Hn|Hn].
  { rewrite Hle in Hrun by done. injection Hrun as <- _. constructor. }
  destruct (decide (n >= Z.of_nat (length allUserList))%Z) as [Hm|Hm].
  { rewrite Hge in Hrun by done. by injection Hrun as <- _. }
  specialize (Hbetween ltac:(lia)).
  destruct (selectRandomUsers n allUserList _) as [[selections|p|] w2];
    [|done..].
  injection Hrun as <- _. apply Hbetween, Hnd.
Qed.

Lemma leafSelection_NoDup_witness :
  NoDup ["c"; "a"].
Proof.
  apply (leafSelection_NoDup (snapshot "d" fourCollaborators)
           (pendingLeafOf twoOfThree) (drawing [0; 1])
           (mkWorld [] [ListRepositoryCollaboratorsCall] [])).
  vm_compute. reflexivity.
Defined.

(** X2.  [FindRandomRequesters] ends: the loop of lines 59-72 is left after
    [5 * n + 2] iterations at most, by its [break] or by its [panic]. *)
Theorem FindRandomRequesters_terminates (prctx : Context) (result : Result)
    (w : World) :
  (FindRandomRequesters prctx result w).1 ≠ OutOfFuel.
Proof.
  unfold FindRandomRequesters.
  pose proof (rangeLeaves_run prctx (findLeafChildren result) [] w) as Hrun.
  by destruct (rangeLeaves prctx _ [] w) as [[ret|p|] w'].
Qed.

Lemma Split_length (s : string) (sep : ascii) : 0 < length (Split s sep).
Proof.
  induction s as [|c s IH]; simpl; [lia|].
  case_bool_decide; simpl; [lia|].
  destruct (Split s sep); simpl in *; lia.
Qed.

(** X3.  A team reference without a slash stops the run: [teamInfo[1]] is out
    of range, before any call to the context. *)
Theorem selectTeamMembers_without_slash (prctx : Context) (allTeams : list string)
    (w : World) :
  0 < length allTeams →
  Forall (λ team, length (Split team "/") < 2) allTeams →
  selectTeamMembers prctx allTeams w
    = (Panicked (IndexOutOfRange 1 1),
       mkWorld (tail (rand w)) (calls w) (rangeSeeds w)).
Proof.
  intros Hlen Hteams.
  destruct (selectTeamMembers_run prctx allTeams w Hlen)
    as (randomTeam & Hteam & ->).
  apply list_elem_of_lookup_2 in Hteam.
  rewrite Forall_forall in Hteams. specialize (Hteams _ Hteam).
  pose proof (Split_length randomTeam "/") as Hpos.
  destruct (Split randomTeam "/") as [|org [|team rest]]; simpl in *;
    [lia|done|lia].
Qed.

Lemma selectTeamMembers_without_slash_witness :
  selectTeamMembers (snapshot "d" fourCollaborators) ["team1"] (drawing [0])
    = (Panicked (IndexOutOfRange 1 1),
       mkWorld (tail (rand (drawing [0]))) (calls (drawing [0]))
         (rangeSeeds (drawing [0]))).
Proof.
  apply (selectTeamMembers_without_slash (snapshot "d" fourCollaborators)
           ["team1"] (drawing [0])).
  - simpl. lia.
  - repeat constructor.
Defined.

(** * Further properties of the current variant *)

(** X4.  [shoveIntoMap] adds the elements of the slice, all of them and
    nothing else, to what the map held; shoving the same slice again
    changes nothing. *)
Theorem shoveIntoMap_elem_of (m : gset string) (u : list string) :
  (∀ x, x ∈ shoveIntoMap m u ↔ x ∈ m ∨ x ∈ u) ∧
  shoveIntoMap (shoveIntoMap m u) u = shoveIntoMap m u.
Proof.
  split.
  - intros x. by rewrite shoveIntoMap_union, elem_of_union, elem_of_list_to_set.
  - rewrite !shoveIntoMap_union. apply set_eq. intros x.
    rewrite !elem_of_union. tauto.
Qed.

Lemma selectRandomUsers_length (n : Z) (users : list string) (w : World) :
  match selectRandomUsers n users w with
  | (Done selections, _) =>
      length selections = Z.to_nat n `min` length users
  | _ => True
  end.
Proof.
  destruct (selectRandomUsers_cases n users w) as (Hle & Hge & Hbetween).
  destruct (decide (n ≤ 0)%Z) as [Hn|Hn].
  { rewrite Hle by done. simpl. lia. }
  destruct (decide (n >= Z.of_nat (length users))%Z) as [Hm|Hm].
  { rewrite Hge by done. lia. }
  specialize (Hbetween ltac:(lia)).
  destruct (selectRandomUsers n users w) as [[selections|p|] w']; [|done..].
  lia.
Qed.

(** The body of the loop for one leaf, step by step. *)
Lemma leafSelection_steps (prctx : Context) (child : Result) (w w' : World)
    (randomSelection : list string) :
  leafSelection prctx child w = (Done (Ok randomSelection), w') →
  ∃ allUsers allCollaboratorPermissions w1 allUserList,
    candidates prctx (ReviewRequestRule child) w
      = (Done (Ok (allUsers, allCollaboratorPermissions)), w1) ∧
    allUserList ≡ₚ eligibleOf prctx allUsers allCollaboratorPermissions ∧
    selectRandomUsers (RequiredCount (ReviewRequestRule child)) allUserList
      (mkWorld (rand w1) (calls w1) (tail (rangeSeeds w1)))
      = (Done randomSelection, w').
Proof.
  unfold leafSelection. unfold_go. intros Hrun.
  destruct (candidates prctx _ w) as [[[[allUsers perms]|err]|p|] w1];
    [|done..].
  destruct (eligible_run prctx allUsers perms w1)
    as (allUserList & Helig & Hperm & _).
  rewrite Helig in Hrun.
  exists allUsers, perms, w1, allUserList. split_and!; [done|done|].
  destruct (selectRandomUsers _ allUserList _) as [[selections|p|] w2];
    [|done..].
  by injection Hrun as <- <-.
Qed.

Lemma rangeLeaves_length (prctx : Context) (pendingLeafNodes : list Result)
    (requestedUsers : list string) (w : World) :
  match rangeLeaves prctx pendingLeafNodes requestedUsers w with
  | (Done (users, None), _) =>
      length users ≤ length requestedUsers + requiredTotal pendingLeafNodes
  | _ => True
  end.
Proof.
  revert requestedUsers w.
  induction pendingLeafNodes as [|child rest IH]; intros requestedUsers w; simpl.
  { unfold_go. lia. }
  unfold_go.
  destruct (leafSelection prctx child w) as [[[randomSelection|err]|p|] w1]
    eqn:Hleaf; [|done..].
  apply leafSelection_steps in Hleaf
    as (allUsers & perms & w0 & allUserList & _ & _ & Hsel).
  pose proof (selectRandomUsers_length
                (RequiredCount (ReviewRequestRule child)) allUserList
                (mkWorld (rand w0) (calls w0) (tail (rangeSeeds w0)))) as Hlen.
  rewrite Hsel in Hlen.
  specialize (IH (requestedUsers ++ randomSelection) w1).
  destruct (rangeLeaves prctx rest _ w1) as [[[users [err|]]|p|] w2]; [done| |done..].
  rewrite length_app in IH.
  change (requiredTotal (child :: rest))
    with (Z.to_nat (RequiredCount (ReviewRequestRule child)) + requiredTotal rest).
  lia.
Qed.

(** X5.  [FindRandomRequesters] never returns more reviewers than the
    rules of the pending leaves require, all together. *)
Theorem FindRandomRequesters_at_most_required (prctx : Context)
    (result : Result) (w w' : World) (users : list string) :
  FindRandomRequesters prctx result w = (Done (users, None), w') →
  length users ≤ requiredTotal (findLeafChildren result).
Proof.
  unfold FindRandomRequesters. intros Hrun.
  pose proof (rangeLeaves_length prctx (findLeafChildren result) [] w) as Hlen.
  by rewrite Hrun in Hlen.
Qed.

Lemma FindRandomRequesters_at_most_required_witness :
  length ["c"; "a"] ≤ requiredTotal (findLeafChildren (pendingLeafOf twoOfThree)).
Proof.
  apply (FindRandomRequesters_at_most_required (snapshot "d" fourCollaborators)
           (pendingLeafOf twoOfThree) (drawing [0; 1])
           (mkWorld [] [ListRepositoryCollaboratorsCall] [])).
  vm_compute. reflexivity.
Defined.

(** X6.  When the rule of a leaf requires at least as many reviewers as it
    has eligible candidates, the selection of the leaf is all of them: the
    candidates of the pool that are collaborators and not the author, each
    once. *)
Theorem leafSelection_all_eligible (prctx : Context) (child : Result)
    (w w' : World) (randomSelection : list string) :
  leafSelection prctx child w = (Done (Ok randomSelection), w') →
  ∃ allUsers allCollaboratorPermissions w1,
    candidates prctx (ReviewRequestRule child) w
      = (Done (Ok (allUsers, allCollaboratorPermissions)), w1) ∧
    ((Z.of_nat (length (eligibleOf prctx allUsers allCollaboratorPermissions))
      ≤ RequiredCount (ReviewRequestRule child))%Z →
     randomSelection ≡ₚ eligibleOf prctx allUsers allCollaboratorPermissions).
Proof.
  intros Hrun.
  apply leafSelection_steps in Hrun
    as (allUsers & perms & w1 & allUserList & Hfound & Hperm & Hsel).
  exists allUsers, perms, w1. split; [done|]. intros Hcount.
  rewrite <- Hperm in Hcount |- *.
  destruct (selectRandomUsers_cases (RequiredCount (ReviewRequestRule child))
              allUserList (mkWorld (rand w1) (calls w1) (tail (rangeSeeds w1))))
    as (_ & Hge & _).
  rewrite Hge in Hsel by lia. by injection Hsel as <- _.
Qed.

Lemma leafSelection_all_eligible_witness :
  ∃ allUsers allCollaboratorPermissions w1,
    candidates (snapshot "d" fourCollaborators)
      (ReviewRequestRule (pendingLeafOf authorAndStranger)) (drawing [0; 0])
      = (Done (Ok (allUsers, allCollaboratorPermissions)), w1) ∧
    ((Z.of_nat (length (eligibleOf (snapshot "d" fourCollaborators) allUsers
                          allCollaboratorPermissions))
      ≤ RequiredCount (ReviewRequestRule (pendingLeafOf authorAndStranger)))%Z →
     ["a"] ≡ₚ eligibleOf (snapshot "d" fourCollaborators) allUsers
                allCollaboratorPermissions).
Proof.
  apply (leafSelection_all_eligible (snapshot "d" fourCollaborators)
           (pendingLeafOf authorAndStranger) (drawing [0; 0])
           (mkWorld [] [ListRepositoryCollaboratorsCall;
                        ListOrganizationMembersCall "org";
                        ListTeamMembersCall "org" "team1"] [])).
  vm_compute. reflexivity.
Defined.

(** X7.  For one leaf the context is asked for the members of one team at
    most, and of one organization at most, whatever the number of teams
    and organizations of the rule, and then for the collaborators: these
    are the only calls of the body of the loop, in this order. *)
Theorem leafSelection_calls (prctx : Context) (child : Result) (w w' : World)
    (selection : result (list string)) :
  leafSelection prctx child w = (Done selection, w') →
  ∃ teamCalls orgCalls,
    calls w' = ListRepositoryCollaboratorsCall :: orgCalls ++ teamCalls ++ calls w ∧
    ((Teams (ReviewRequestRule child) = [] ∧ teamCalls = []) ∨
     ∃ randomTeam org team,
       randomTeam ∈ Teams (ReviewRequestRule child) ∧
       Split randomTeam "/" !! 0 = Some org ∧
       Split randomTeam "/" !! 1 = Some team ∧
       teamCalls = [ListTeamMembersCall org team]) ∧
    ((Organizations (ReviewRequestRule child) = [] ∧ orgCalls = []) ∨
     ∃ randomOrg,
       randomOrg ∈ Organizations (ReviewRequestRule child) ∧
       orgCalls = [ListOrganizationMembersCall randomOrg]).
Proof.
  unfold leafSelection, candidates. unfold_go. intros Hrun.
  set (rule := ReviewRequestRule child) in *.
  pose proof (withTeamMembers_run prctx rule (shoveIntoMap ∅ (Users rule)) w)
    as Hteam.
  destruct (withTeamMembers prctx rule _ w) as [[pool1|p|] w1]; [|done..].
  destruct Hteam as [_ Hteam].
  pose proof (withOrganizationMembers_run prctx rule pool1 w1) as Horg.
  destruct (withOrganizationMembers prctx rule pool1 w1) as [[pool2|p|] w2];
    [|done..].
  destruct Horg as [_ Horg].
  assert (Hcalls : calls w' = ListRepositoryCollaboratorsCall :: calls w2).
  { unfold ListRepositoryCollaborators in Hrun.
    destruct (repositoryCollaborators prctx (calls w2)) as [perms|err];
      simpl in Hrun; [|by injection Hrun as _ <-].
    match type of Hrun with
    | context [selectRandomUsers ?n ?l ?w0] =>
        pose proof (selectRandomUsers_subset n l w0) as Hsel;
        destruct (selectRandomUsers n l w0) as [[sel|p|] w3]; [|done..]
    end.
    destruct Hsel as (_ & Hsame & _). by injection Hrun as _ <-. }
  assert (∃ teamCalls, calls w1 = teamCalls ++ calls w ∧
    ((Teams rule = [] ∧ teamCalls = []) ∨
     ∃ randomTeam org team,
       randomTeam ∈ Teams rule ∧ Split randomTeam "/" !! 0 = Some org ∧
       Split randomTeam "/" !! 1 = Some team ∧
       teamCalls = [ListTeamMembersCall org team]))
    as (teamCalls & Hcalls1 & HteamCalls).
  { destruct Hteam as [(Hnone & _ & ->)|
      (randomTeam & org & team & Hin & Horg' & Hteam' & Hcalls1 & _)].
    - exists []. split; [done|]. by left.
    - exists [ListTeamMembersCall org team]. split; [done|].
      right. by exists randomTeam, org, team. }
  assert (∃ orgCalls, calls w2 = orgCalls ++ calls w1 ∧
    ((Organizations rule = [] ∧ orgCalls = []) ∨
     ∃ randomOrg, randomOrg ∈ Organizations rule ∧
                  orgCalls = [ListOrganizationMembersCall randomOrg]))
    as (orgCalls & Hcalls2 & HorgCalls).
  { destruct Horg as [(Hnone & _ & ->)|(randomOrg & Hin & Hcalls2 & _)].
    - exists []. split; [done|]. by left.
    - exists [ListOrganizationMembersCall randomOrg]. split; [done|].
      right. by exists randomOrg. }
  exists teamCalls, orgCalls. split_and!; [|done..].
  by rewrite Hcalls, Hcalls2, Hcalls1.
Qed.

Lemma leafSelection_calls_witness :
  ∃ teamCalls orgCalls,
    calls (mkWorld [] [ListRepositoryCollaboratorsCall;
                       ListOrganizationMembersCall "org";
                       ListTeamMembersCall "org" "team1"] [])
      = ListRepositoryCollaboratorsCall
          :: orgCalls ++ teamCalls ++ calls (drawing [0; 0]) ∧
    ((Teams (ReviewRequestRule (pendingLeafOf authorAndStranger)) = []
      ∧ teamCalls = []) ∨
     ∃ randomTeam org team,
       randomTeam ∈ Teams (ReviewRequestRule (pendingLeafOf authorAndStranger)) ∧
       Split randomTeam "/" !! 0 = Some org ∧
       Split randomTeam "/" !! 1 = Some team ∧
       teamCalls = [ListTeamMembersCall org team]) ∧
    ((Organizations (ReviewRequestRule (pendingLeafOf authorAndStranger)) = []
      ∧ orgCalls = []) ∨
     ∃ randomOrg,
       randomOrg ∈ Organizations (ReviewRequestRule (pendingLeafOf authorAndStranger)) ∧
       orgCalls = [ListOrganizationMembersCall randomOrg]).
Proof.
  apply (leafSelection_calls (snapshot "d" fourCollaborators)
           (pendingLeafOf authorAndStranger) (drawing [0; 0])
           (mkWorld [] [ListRepositoryCollaboratorsCall;
                        ListOrganizationMembersCall "org";
                        ListTeamMembersCall "org" "team1"] [])
           (Ok ["a"])).
  vm_compute. reflexivity.
Defined.

Lemma drop_tail {A : Type} (k : nat) (l : list A) :
  drop k (tail l) = drop (S k) l.
Proof. destruct l; simpl; by rewrite ?drop_nil. Qed.

Lemma selectLoop_draws (n : Z) (users : list string) (iters : nat)
    (selected : gmap nat bool) (selections : list string) (w : World) :
  0 < length users → (0 ≤ n)%Z →
  ∃ k, rand (selectLoop iters n users selected selections w).2
         = drop k (rand w) ∧
       k ≤ iters * (Z.to_nat (n * 5) + 1).
Proof.
  intros Hlen Hn. revert selected selections w.
  induction iters as [|iters IH]; intros selected selections w; simpl.
  { exists 0. by rewrite drop_0. }
  unfold_go.
  rewrite drawUnselected_colliding by (done || lia).
  replace (Z.to_nat (n * 5 + 1 - 0)) with (Z.to_nat (n * 5) + 1) by lia.
  simpl.
  pose proof (colliding_le users Hlen (Z.to_nat (n * 5) + 1) selected (rand w))
    as Hle.
  set (c := colliding _ _ _ _) in *.
  destruct (decide (c < Z.to_nat (n * 5) + 1)) as [Hc|Hc].
  - destruct (lookup_lt_is_Some_2 users (hd 0 (drop c (rand w)) mod length users))
      as [u Hu]; [apply Nat.mod_upper_bound; lia|].
    rewrite Hu. unfold_go.
    destruct (IH (<[hd 0 (drop c (rand w)) mod length users := true]> selected)
                (selections ++ [u])
                (mkWorld (drop (S c) (rand w)) (calls w) (rangeSeeds w)))
      as (k & Hk & Hbound).
    exists (S c + k). simpl in Hk. rewrite Hk, drop_drop. split; [done|lia].
  - exists c. split; [done|lia].
Qed.

(** X8.  The sampler draws from the source of randomness a bounded number
    of times: at most [5 * n + 1] times for each of the [n] elements, and
    not at all when [n <= 0] or [n >= m]. *)
Theorem selectRandomUsers_draws (n : Z) (users : list string) (w : World) :
  ∃ k, rand (selectRandomUsers n users w).2 = drop k (rand w) ∧
       k ≤ Z.to_nat n * (Z.to_nat (5 * n) + 1) ∧
       ((n ≤ 0 ∨ n >= Z.of_nat (length users))%Z → k = 0).
Proof.
  destruct (selectRandomUsers_cases n users w) as (Hle & Hge & _).
  destruct (decide (n ≤ 0)%Z) as [Hn|Hn].
  { exists 0. rewrite Hle by done. split_and!; [by rewrite drop_0|lia|done]. }
  destruct (decide (n >= Z.of_nat (length users))%Z) as [Hm|Hm].
  { exists 0. rewrite Hge by done. split_and!; [by rewrite drop_0|lia|done]. }
  unfold selectRandomUsers. rewrite !bool_decide_eq_false_2 by lia.
  destruct (selectLoop_draws n users (Z.to_nat n) ∅ [] w) as (k & Hk & Hbound);
    [lia..|].
  exists k. replace (5 * n)%Z with (n * 5)%Z by lia.
  split_and!; [done|done|lia].
Qed.

(** X9.  The two flags of a rule add collaborators only: an identity that
    [withCollaborators] adds to the pool is a key of the permission map,
    with the level of admin for the flag of the admins and the level of
    write for the flag of the write collaborators. *)
Theorem withCollaborators_adds_collaborators (rule : Rule)
    (allCollaboratorPermissions : gmap string string) (allUsers : gset string)
    (u : string) :
  u ∈ withCollaborators rule allCollaboratorPermissions allUsers →
  u ∈ allUsers ∨
  (Admins rule = true ∧
   allCollaboratorPermissions !! u = Some GithubAdminPermission) ∨
  (WriteCollaborators rule = true ∧
   allCollaboratorPermissions !! u = Some GithubWritePermission).
Proof.
  rewrite withCollaborators_union, elem_of_union.
  intros [?|Hadded]; [by left|].
  apply withCollaborators_expansion in Hadded.
  unfold collaboratorExpansion in Hadded.
  apply elem_of_union in Hadded as [Hadmin|Hwrite]; [right; left|right; right].
  - destruct (Admins rule); [|by apply not_elem_of_empty in Hadmin].
    split; [done|]. by apply elem_of_atLevel.
  - destruct (WriteCollaborators rule); [|by apply not_elem_of_empty in Hwrite].
    split; [done|]. by apply elem_of_atLevel.
Qed.

Lemma withCollaborators_adds_collaborators_witness :
  "admin" ∈ ({["a"]} : gset string) ∨
  (Admins everySource = true ∧
   (list_to_map [("a", "write"); ("admin", "admin")] : gmap string string)
     !! "admin" = Some GithubAdminPermission) ∨
  (WriteCollaborators everySource = true ∧
   (list_to_map [("a", "write"); ("admin", "admin")] : gmap string string)
     !! "admin" = Some GithubWritePermission).
Proof.
  apply (withCollaborators_adds_collaborators everySource
           (list_to_map [("a", "write"); ("admin", "admin")]) {["a"]} "admin").
  vm_compute. tauto.
Defined.

(** * Properties of the earlier variant *)

(** ** The listings, page by page *)

Section Pages.

Variables (listPage : Z → result (list string * Z)) (failed : error → Z → error).
Variable each : list string → list string → result (list string).

(** A listing asks the client only: it leaves the world as it is. *)
Lemma listPages_world (fuel : nat) (Page : Z) (allUsers : list string) (w : World) :
  (Earlier.listPages fuel listPage failed each Page allUsers w).2 = w.
Proof.
  revert Page allUsers.
  induction fuel as [|fuel IH]; intros Page allUsers; simpl; [done|].
  destruct (listPage Page) as [[users NextPage]|err]; [|done].
  destruct (each allUsers users) as [allUsers'|err]; [|done].
  case_bool_decide; [done|apply IH].
Qed.

(** What the loop over the users of a page keeps of them. *)
Variable keep : list string → list string.

Lemma listPages_pages (pages : list (list string)) (fuel : nat) (Page : Z)
    (allUsers : list string) (w : World) :
  pagesFrom listPage Page pages →
  (∀ acc users, users ∈ pages → each acc users = Ok (acc ++ keep users)) →
  length pages ≤ fuel →
  Earlier.listPages fuel listPage failed each Page allUsers w
    = (Done (Ok (allUsers ++ concat (keep <$> pages))), w).
Proof.
  revert fuel Page allUsers.
  induction pages as [|users rest IH]; intros fuel Page allUsers Hpages Heach Hfuel;
    [done|].
  destruct fuel as [|fuel]; [simpl in Hfuel; lia|].
  simpl in Hpages. destruct rest as [|users' rest].
  - simpl. rewrite Hpages, Heach by (by left).
    rewrite bool_decide_eq_true_2 by done.
    by rewrite (right_id_L [] (++)).
  - destruct Hpages as (NextPage & Hnext & Hpage & Hrest).
    cbn [Earlier.listPages]. rewrite Hpage, Heach by (by left).
    rewrite bool_decide_eq_false_2 by done.
    rewrite (IH fuel NextPage); [|done| |simpl in *; lia].
    + cbn [fmap list_fmap concat]. by rewrite <- (assoc_L (++)).
    + intros acc us Hus. apply Heach. by right.
Qed.

Lemma listPages_error (pages : list (list string)) (failing : Z) (err : error)
    (fuel : nat) (Page : Z) (allUsers : list string) (w : World) :
  pagesBeforeError listPage Page pages failing err →
  (∀ acc users, users ∈ pages → each acc users = Ok (acc ++ keep users)) →
  length pages < fuel →
  Earlier.listPages fuel listPage failed each Page allUsers w
    = (Done (Err (failed err failing)), w).
Proof.
  revert fuel Page allUsers.
  induction pages as [|users rest IH]; intros fuel Page allUsers Hpages Heach Hfuel.
  - destruct fuel as [|fuel]; [simpl in Hfuel; lia|].
    destruct Hpages as [-> Herr]. simpl. by rewrite Herr.
  - destruct fuel as [|fuel]; [simpl in Hfuel; lia|].
    destruct Hpages as (NextPage & Hnext & Hpage & Hrest).
    cbn [Earlier.listPages]. rewrite Hpage, Heach by (by left).
    rewrite bool_decide_eq_false_2 by done.
    apply IH; [done| |simpl in *; lia].
    intros acc us Hus. apply Heach. by right.
Qed.

(** What holds of [allUsers] at the start and after every page holds of
    the users returned. *)
Lemma listPages_invariant (I : list string → Prop) (fuel : nat) (Page : Z)
    (allUsers l : list string) (w w' : World) :
  I allUsers →
  (∀ acc users acc', I acc → each acc users = Ok acc' → I acc') →
  Earlier.listPages fuel listPage failed each Page allUsers w = (Done (Ok l), w') →
  I l.
Proof.
  intros Hacc Hstep. revert Page allUsers Hacc.
  induction fuel as [|fuel IH]; intros Page allUsers Hacc; simpl; [done|].
  destruct (listPage Page) as [[users NextPage]|err]; [|done].
  destruct (each allUsers users) as [allUsers'|err] eqn:Heach; [|done].
  case_bool_decide.
  - unfold_go. intros [= <- _]. by eapply Hstep.
  - apply IH. by eapply Hstep.
Qed.

End Pages.

Lemma appendLogins_app (allUsers users : list string) :
  Earlier.appendLogins allUsers users = Ok (allUsers ++ users).
Proof.
  unfold Earlier.appendLogins. f_equal. revert allUsers.
  induction users as [|u users IH]; intros allUsers; simpl.
  - by rewrite (right_id_L [] (++)).
  - by rewrite IH, <- (assoc_L (++)).
Qed.

Lemma concat_fmap_id (pages : list (list string)) :
  concat ((λ users : list string, users) <$> pages) = concat pages.
Proof. by rewrite list_fmap_id. Qed.

(** X10.  [listAllTeamMembers] returns the logins of all the pages of the
    team, in the order of the pages, when no page fails.  When a page
    fails, after any number of pages, it returns nil and the error of that
    page, wrapped with the name of the team and the number of the page:
    the users of the pages before are not returned. *)
Theorem listAllTeamMembers_pages (fuel : nat) (client : Earlier.Client)
    (team : Earlier.Team) (w : World) :
  (∀ pages,
     pagesFrom (Earlier.ListTeamMembers client (Earlier.ID team)) 0 pages →
     length pages ≤ fuel →
     Earlier.listAllTeamMembers fuel client team w
       = (Done (Ok (concat pages)), w)) ∧
  (∀ pages failing err,
     pagesBeforeError (Earlier.ListTeamMembers client (Earlier.ID team)) 0
       pages failing err →
     length pages < fuel →
     Earlier.listAllTeamMembers fuel client team w
       = (Done (Err (Wrap err ("failed to list team " +:+ Earlier.Name team
                               +:+ " members page " +:+ pretty failing))),
          w)).
Proof.
  unfold Earlier.listAllTeamMembers. split.
  - intros pages Hpages Hfuel.
    rewrite (listPages_pages _ _ _ (λ users, users) pages); [|done| |done].
    + by rewrite concat_fmap_id.
    + intros acc users _. apply appendLogins_app.
  - intros pages failing err Hpages Hfuel.
    rewrite (listPages_error _ _ _ (λ users, users) pages failing err);
      [done|done| |done].
    intros acc users _. apply appendLogins_app.
Qed.

(** X11.  [listAllOrgMembers] returns the logins of all the pages of the
    organization, in the order of the pages, when no page fails, and nil
    with the wrapped error of the first page that fails. *)
Theorem listAllOrgMembers_pages (fuel : nat) (client : Earlier.Client)
    (org : string) (w : World) :
  (∀ pages,
     pagesFrom (Earlier.ListMembers client org) 0 pages →
     length pages ≤ fuel →
     Earlier.listAllOrgMembers fuel client org w
       = (Done (Ok (concat pages)), w)) ∧
  (∀ pages failing err,
     pagesBeforeError (Earlier.ListMembers client org) 0 pages failing err →
     length pages < fuel →
     Earlier.listAllOrgMembers fuel client org w
       = (Done (Err (Wrap err ("failed to list members of org " +:+ org
                               +:+ " page " +:+ pretty failing))),
          w)).
Proof.
  unfold Earlier.listAllOrgMembers. split.
  - intros pages Hpages Hfuel.
    rewrite (listPages_pages _ _ _ (λ users, users) pages); [|done| |done].
    + by rewrite concat_fmap_id.
    + intros acc users _. apply appendLogins_app.
  - intros pages failing err Hpages Hfuel.
    rewrite (listPages_error _ _ _ (λ users, users) pages failing err);
      [done|done| |done].
    intros acc users _. apply appendLogins_app.
Qed.

Lemma appendWithPermission_filter (client : Earlier.Client)
    (org repo desiredPerm : string) (allUsers users : list string) :
  (∀ u, u ∈ users → ∃ perm, Earlier.GetPermissionLevel client org repo u = Ok perm) →
  Earlier.appendWithPermission client org repo desiredPerm allUsers users
    = Ok (allUsers
          ++ filter (λ u, Earlier.GetPermissionLevel client org repo u
                          = Ok desiredPerm) users).
Proof.
  revert allUsers.
  induction users as [|u users IH]; intros allUsers Hlevels; simpl.
  { by rewrite filter_nil, (right_id_L [] (++)). }
  destruct (Hlevels u) as [perm Hperm]; [by left|]. rewrite Hperm.
  rewrite IH by (intros v Hv; apply Hlevels; by right).
  rewrite filter_cons. rewrite Hperm.
  case_bool_decide as Heq.
  - subst perm. rewrite decide_True by done. by rewrite <- (assoc_L (++)).
  - rewrite decide_False by congruence. done.
Qed.

Lemma appendWithPermission_kept (client : Earlier.Client)
    (org repo desiredPerm : string) (allUsers users allUsers' : list string) :
  Forall (λ u, Earlier.GetPermissionLevel client org repo u = Ok desiredPerm)
         allUsers →
  Earlier.appendWithPermission client org repo desiredPerm allUsers users
    = Ok allUsers' →
  Forall (λ u, Earlier.GetPermissionLevel client org repo u = Ok desiredPerm)
         allUsers'.
Proof.
  revert allUsers.
  induction users as [|u users IH]; intros allUsers Hall; simpl.
  { by intros [= <-]. }
  destruct (Earlier.GetPermissionLevel client org repo u) as [perm|err] eqn:Hperm;
    [|done].
  apply IH. case_bool_decide as Heq; [|done].
  subst perm. apply Forall_app. split; [done|]. by constructor.
Qed.

Lemma concat_fmap_filter {A : Type} (P : A → Prop) `{∀ x, Decision (P x)}
    (pages : list (list A)) :
  concat (filter P <$> pages) = filter P (concat pages).
Proof.
  induction pages as [|users pages IH]; [done|].
  rewrite fmap_cons. cbn [concat]. by rewrite filter_app, IH.
Qed.

(** X12.  [listAllCollaborators] returns, in the order of the pages, the
    collaborators whose permission level is the one desired, when no page
    and no permission level fails; and whenever it returns users, each of
    them has that level. *)
Theorem listAllCollaborators_pages (fuel : nat) (client : Earlier.Client)
    (org repo desiredPerm : string) (w : World) :
  (∀ pages,
     pagesFrom (Earlier.ListCollaborators client org repo) 0 pages →
     (∀ u, u ∈ concat pages →
           ∃ perm, Earlier.GetPermissionLevel client org repo u = Ok perm) →
     length pages ≤ fuel →
     Earlier.listAllCollaborators fuel client org repo desiredPerm w
       = (Done (Ok (filter (λ u, Earlier.GetPermissionLevel client org repo u
                                 = Ok desiredPerm) (concat pages))), w)) ∧
  (∀ allUsers w',
     Earlier.listAllCollaborators fuel client org repo desiredPerm w
       = (Done (Ok allUsers), w') →
     ∀ u, u ∈ allUsers →
          Earlier.GetPermissionLevel client org repo u = Ok desiredPerm).
Proof.
  unfold Earlier.listAllCollaborators. split.
  - intros pages Hpages Hlevels Hfuel.
    rewrite (listPages_pages _ _ _
               (filter (λ u, Earlier.GetPermissionLevel client org repo u
                             = Ok desiredPerm)) pages); [|done| |done].
    + by rewrite concat_fmap_filter.
    + intros acc users Husers. apply appendWithPermission_filter.
      intros u Hu. apply Hlevels, list_elem_of_In, in_concat.
      exists users. split; by apply list_elem_of_In.
  - intros allUsers w' Hrun.
    apply Forall_forall.
    eapply (listPages_invariant _ _ _
              (Forall (λ u, Earlier.GetPermissionLevel client org repo u
                            = Ok desiredPerm))); [| |exact Hrun].
    + constructor.
    + intros acc users acc' Hacc Heach.
      by eapply appendWithPermission_kept.
Qed.

Lemma listAllTeamMembers_pages_witness :
  Earlier.listAllTeamMembers 2 twoPagesClient (Earlier.mkTeam 7 "team1")
    (drawing [])
  = (Done (Ok (concat [["t1"; "t2"]; ["t3"]])), drawing []).
Proof.
  apply (proj1 (listAllTeamMembers_pages 2 twoPagesClient
                  (Earlier.mkTeam 7 "team1") (drawing []))).
  - simpl. exists 2%Z. by split_and!.
  - simpl. lia.
Defined.

Lemma listAllOrgMembers_pages_witness :
  Earlier.listAllOrgMembers 2 twoPagesClient "org" (drawing [])
  = (Done (Err (Wrap (errorString "server error")
                  ("failed to list members of org " +:+ "org"
                   +:+ " page " +:+ pretty 2%Z))), drawing []).
Proof.
  apply (proj2 (listAllOrgMembers_pages 2 twoPagesClient "org" (drawing []))
           [["t1"; "t2"]] 2%Z (errorString "server error")).
  - simpl. exists 2%Z. by split_and!.
  - simpl. lia.
Defined.

Lemma listAllCollaborators_pages_witness :
  Earlier.listAllCollaborators 2 twoPagesClient "org" "repo" "admin" (drawing [])
  = (Done (Ok (filter (λ u, Earlier.GetPermissionLevel twoPagesClient "org"
                              "repo" u = Ok "admin")
                 (concat [["t1"; "t2"]; ["t3"]]))), drawing []).
Proof.
  apply (proj1 (listAllCollaborators_pages 2 twoPagesClient "org" "repo"
                  "admin" (drawing []))).
  - simpl. exists 2%Z. by split_and!.
  - intros u _. simpl. case_bool_decide; eauto.
  - simpl. lia.
Defined.

(** ** The earlier sampler *)

Section EarlierSampler.

Variables (fuel : nat) (users : list string).
Hypothesis users_nonempty : 0 < length users.

(** One selection: the index is in range and new; there is no panic. *)
Lemma drawNew_new (fuel' : nat) (generated : gset nat) (w : World) :
  match Earlier.drawNew fuel' users generated w with
  | (Done i, _) => i < length users ∧ i ∉ generated
  | (Panicked _, _) => False
  | (OutOfFuel, _) => True
  end.
Proof.
  revert w. induction fuel' as [|fuel' IH]; intros w; simpl; [done|].
  unfold_go. rewrite Intn_pos by done.
  case_bool_decide as Hin; [apply IH|].
  split; [|done]. apply Nat.mod_upper_bound. lia.
Qed.

Lemma earlier_selectLoop_indices (iters : nat) (generated : gset nat)
    (selections : list string) (idxs : list nat) (w : World) :
  (∀ i, i ∈ generated ↔ i ∈ idxs) →
  NoDup idxs →
  Forall2 (λ i u, users !! i = Some u) idxs selections →
  match Earlier.selectLoop fuel iters users generated selections w with
  | (Done selections', _) =>
      ∃ idxs', NoDup idxs' ∧
        Forall2 (λ i u, users !! i = Some u) idxs' selections' ∧
        length selections' = length selections + iters
  | (Panicked _, _) => False
  | (OutOfFuel, _) => True
  end.
Proof.
  revert generated selections idxs w.
  induction iters as [|iters IH]; intros generated selections idxs w Hgen Hnd Hidx.
  - simpl. exists idxs. split_and!; auto.
  - simpl. unfold_go.
    pose proof (drawNew_new fuel generated w) as Hdraw.
    destruct (Earlier.drawNew fuel users generated w) as [[i|p|] w1]; [|done..].
    destruct Hdraw as [Hi Hnew].
    destruct (lookup_lt_is_Some_2 users i Hi) as [u Hu]. rewrite Hu.
    unfold_go.
    assert (Hgen' : ∀ j, j ∈ ({[i]} ∪ generated : gset nat) ↔ j ∈ idxs ++ [i]).
    { intros j. rewrite elem_of_union, elem_of_singleton, elem_of_app,
        list_elem_of_singleton, Hgen. tauto. }
    assert (Hnd' : NoDup (idxs ++ [i])).
    { apply NoDup_app. split_and!; [done| |apply NoDup_singleton].
      intros j Hj ->%list_elem_of_singleton. by apply Hnew, Hgen. }
    assert (Hidx' : Forall2 (λ i u, users !! i = Some u)
                      (idxs ++ [i]) (selections ++ [u])).
    { apply Forall2_app; [done|]. by constructor. }
    specialize (IH _ _ _ w1 Hgen' Hnd' Hidx').
    destruct (Earlier.selectLoop fuel iters users _ _ w1)
      as [[selections'|p|] w2]; [|done..].
    destruct IH as (idxs' & ? & ? & Hlen).
    exists idxs'. rewrite length_app in Hlen. simpl in Hlen.
    split_and!; [done|done|lia].
Qed.

(** A source that draws an index already generated, and no other, keeps
    the loop of lines 311-318 turning. *)
Lemma drawNew_never (fuel' : nat) (generated : gset nat) (w : World) :
  rand w = [] → 0 ∈ generated →
  (Earlier.drawNew fuel' users generated w).1 = OutOfFuel.
Proof.
  revert w. induction fuel' as [|fuel' IH]; intros w Hrand Hgen; simpl; [done|].
  unfold_go. rewrite Intn_pos by done. rewrite Hrand. simpl.
  rewrite Nat.Div0.mod_0_l.
  rewrite bool_decide_eq_true_2 by done. by apply IH.
Qed.

End EarlierSampler.

(** X13.  The earlier [selectRandomUsers] returns the empty sequence when
    [n <= 0] and the input list when [n >= m]; when [0 < n < m] it never
    panics, and what it returns is exactly [n] elements read at pairwise
    distinct indices of the input list. *)
Theorem earlier_selectRandomUsers_returns (fuel : nat) (n : Z)
    (users : list string) (w : World) :
  ((n ≤ 0)%Z → Earlier.selectRandomUsers fuel n users w = (Done [], w)) ∧
  ((n >= Z.of_nat (length users))%Z →
     Earlier.selectRandomUsers fuel n users w = (Done users, w)) ∧
  ((0 < n < Z.of_nat (length users))%Z →
     match Earlier.selectRandomUsers fuel n users w with
     | (Done selections, _) =>
         Z.of_nat (length selections) = n ∧
         ∃ idxs, NoDup idxs ∧
                 Forall2 (λ i u, users !! i = Some u) idxs selections
     | (Panicked _, _) => False
     | (OutOfFuel, _) => True
     end).
Proof.
  unfold Earlier.selectRandomUsers. split_and!.
  - intros Hn. case_bool_decide; [done|].
    case_bool_decide; [lia|].
    by replace (Z.to_nat n) with 0 by lia.
  - intros Hn. case_bool_decide as H0; [|by case_bool_decide].
    destruct users; [done|simpl in Hn; lia].
  - intros Hn. rewrite !bool_decide_eq_false_2 by lia.
    pose proof (earlier_selectLoop_indices fuel users ltac:(lia) (Z.to_nat n)
                  ∅ [] [] w) as Hloop.
    destruct (Earlier.selectLoop fuel _ users ∅ [] w)
      as [[selections|p|] w']; [| |done].
    + destruct Hloop as (idxs & Hnd & Hidx & Hlen);
        [|constructor|constructor|].
      { intros i. split; [by intros ?%not_elem_of_empty|by intros ?%elem_of_nil]. }
      split; [simpl in Hlen; lia|]. by exists idxs.
    + apply Hloop; [|constructor|constructor].
      intros i. split; [by intros ?%not_elem_of_empty|by intros ?%elem_of_nil].
Qed.

Lemma earlier_selectLoop_S (fuel iters : nat) (users : list string)
    (generated : gset nat) (selections : list string) :
  Earlier.selectLoop fuel (S iters) users generated selections =
    (i ← Earlier.drawNew fuel users generated;
     u ← index users i;
     Earlier.selectLoop fuel iters users ({[i]} ∪ generated) (selections ++ [u])).
Proof. reflexivity. Qed.

Lemma earlier_selectLoop_never (fuel iters : nat) (users : list string)
    (generated : gset nat) (selections : list string) (w : World) :
  0 < length users → rand w = [] → 0 ∈ generated →
  (Earlier.selectLoop fuel (S iters) users generated selections w).1 = OutOfFuel.
Proof.
  intros Hlen Hrand Hgen. rewrite earlier_selectLoop_S. unfold_go.
  pose proof (drawNew_never users Hlen fuel generated w Hrand Hgen) as Hnever.
  by destruct (Earlier.drawNew fuel users generated w) as [[i|p|] w1].
Qed.

Lemma drawNew_first (fuel : nat) (users : list string) (generated : gset nat)
    (w : World) :
  0 < length users → rand w = [] → 0 ∉ generated →
  Earlier.drawNew (S fuel) users generated w
    = (Done 0, mkWorld [] (calls w) (rangeSeeds w)).
Proof.
  intros Hlen Hrand Hgen. simpl. unfold_go.
  rewrite Intn_pos by done. rewrite Hrand. simpl.
  rewrite Nat.Div0.mod_0_l. by rewrite bool_decide_eq_false_2.
Qed.

(** X14.  The earlier [selectRandomUsers] has no bound on its draws: with
    at least two users to select among more, and a source that draws the
    index 0 and no other, the loop of lines 311-318 is not left, whatever
    the number of iterations allowed. *)
Theorem earlier_selectRandomUsers_unbounded (fuel : nat) (n : Z)
    (users : list string) (w : World) :
  (1 < n < Z.of_nat (length users))%Z →
  rand w = [] →
  (Earlier.selectRandomUsers fuel n users w).1 = OutOfFuel.
Proof.
  intros Hn Hrand. unfold Earlier.selectRandomUsers.
  rewrite !bool_decide_eq_false_2 by lia.
  destruct (Z.to_nat n) as [|[|iters]] eqn:Hiters; [lia..|].
  destruct fuel as [|fuel']; [done|].
  rewrite earlier_selectLoop_S. unfold_go.
  rewrite drawNew_first by (lia || done || apply not_elem_of_empty).
  destruct users as [|u users']; [simpl in Hn; lia|]. simpl lookup. cbv iota beta.
  apply earlier_selectLoop_never; [simpl; lia|done|].
  apply elem_of_union_l. by apply elem_of_singleton.
Qed.

Lemma earlier_selectRandomUsers_unbounded_witness :
  (Earlier.selectRandomUsers 1000 2 fourUsers (drawing [])).1 = OutOfFuel.
Proof.
  apply (earlier_selectRandomUsers_unbounded 1000 2 fourUsers (drawing [])).
  - simpl. lia.
  - reflexivity.
Defined.

(** ** The removal of the author in the earlier variant *)

Section RemoveAuthor.

Variable author : string.

(** One turn of the loop at an element that is not the author. *)
Lemma removeAuthor_other (todo i : nat) (arr : list string) (len : nat)
    (u : string) (w : World) :
  arr !! i = Some u → u ≠ author →
  Earlier.removeAuthor author (S todo) i arr len w
    = Earlier.removeAuthor author todo (S i) arr len w.
Proof.
  intros Hu Hne. simpl. unfold_go. rewrite Hu. unfold_go.
  by rewrite bool_decide_eq_false_2.
Qed.

(** One turn of the loop at the author, at an index of [allUsers]. *)
Lemma removeAuthor_hit (todo i : nat) (arr : list string) (len : nat)
    (last : string) (w : World) :
  arr !! i = Some author → i < len → arr !! (len - 1) = Some last →
  Earlier.removeAuthor author (S todo) i arr len w
    = Earlier.removeAuthor author todo (S i)
        (<[len - 1 := ""]> (<[i := last]> arr)) (len - 1) w.
Proof.
  intros Hu Hi Hlast. simpl. unfold_go. rewrite Hu. unfold_go.
  rewrite bool_decide_eq_true_2 by done.
  rewrite lookup_take_lt, Hlast by lia. unfold_go.
  by rewrite bool_decide_eq_true_2.
Qed.

(** The turns of the loop over elements none of which is the author. *)
Lemma removeAuthor_skip (todo i : nat) (arr : list string) (len : nat) (w : World) :
  (∀ j, i ≤ j < i + todo → ∃ u, arr !! j = Some u ∧ u ≠ author) →
  Earlier.removeAuthor author todo i arr len w = (Done (take len arr), w).
Proof.
  revert i. induction todo as [|todo IH]; intros i Hothers; [done|].
  destruct (Hothers i) as (u & Hu & Hne); [lia|].
  rewrite (removeAuthor_other _ _ _ _ u) by done.
  apply IH. intros j Hj. apply Hothers. lia.
Qed.

Lemma removeAuthor_prefix (k todo i : nat) (arr : list string) (len : nat)
    (w : World) :
  (∀ j, i ≤ j < i + k → ∃ u, arr !! j = Some u ∧ u ≠ author) →
  Earlier.removeAuthor author (k + todo) i arr len w
    = Earlier.removeAuthor author todo (i + k) arr len w.
Proof.
  revert i. induction k as [|k IH]; intros i Hothers.
  { by rewrite Nat.add_0_r. }
  destruct (Hothers i) as (u & Hu & Hne); [lia|].
  cbn [Nat.add]. rewrite (removeAuthor_other _ _ _ _ u) by done.
  rewrite IH by (intros j Hj; apply Hothers; lia).
  f_equal. lia.
Qed.

Lemma lookup_others (l : list string) (j : nat) :
  author ∉ l → j < length l → ∃ u, l !! j = Some u ∧ u ≠ author.
Proof.
  intros Hnot Hj. destruct (lookup_lt_is_Some_2 l j Hj) as [u Hu].
  exists u. split; [done|]. intros ->.
  apply Hnot. by eapply list_elem_of_lookup_2.
Qed.

(** The author once, or first of two: the last candidate [z] takes the
    place of the author. *)
Lemma removeAuthor_replaced (before middle : list string) (z : string) (w : World) :
  author ≠ "" → author ∉ before → author ∉ middle →
  Earlier.removeAuthor author (length (before ++ author :: middle ++ [z])) 0
    (before ++ author :: middle ++ [z])
    (length (before ++ author :: middle ++ [z])) w
  = (Done (before ++ z :: middle), w).
Proof.
  intros Hauthor Hbefore Hmiddle.
  set (l := before ++ author :: middle ++ [z]).
  assert (Hlen : length l = length before + S (S (length middle))).
  { unfold l. rewrite length_app. simpl. rewrite length_app. simpl. lia. }
  rewrite Hlen at 1.
  rewrite removeAuthor_prefix.
  2:{ intros j Hj. unfold l. rewrite lookup_app_l by lia.
      apply lookup_others; [done|lia]. }
  change (0 + length before) with (length before).
  rewrite (removeAuthor_hit _ _ _ _ z).
  2:{ unfold l. by rewrite list_lookup_middle. }
  2:{ lia. }
  2:{ rewrite Hlen. unfold l.
      replace (before ++ author :: middle ++ [z])
        with ((before ++ author :: middle) ++ [z])
        by (by rewrite <- (assoc_L (++))).
      rewrite lookup_app_r; rewrite length_app; simpl; [|lia].
      by replace (_ - _) with 0 by lia. }
  assert (Harr : <[length l - 1 := ""]> (<[length before := z]> l)
                 = before ++ z :: middle ++ [""]).
  { unfold l at 2.
    replace (length before) with (length before + 0) at 1 by lia.
    rewrite insert_app_r. simpl.
    replace (length l - 1) with (length before + S (length middle + 0)) by lia.
    rewrite insert_app_r. simpl. rewrite insert_app_r. done. }
  rewrite Harr.
  rewrite removeAuthor_skip.
  - f_equal. f_equal.
    replace (before ++ z :: middle ++ [""])
      with ((before ++ z :: middle) ++ [""])
      by (by rewrite <- (assoc_L (++))).
    apply take_app_length'. rewrite Hlen, length_app. simpl. lia.
  - intros j Hj.
    rewrite lookup_app_r by lia.
    replace (j - length before) with (S (j - length before - 1)) by lia.
    simpl.
    destruct (decide (j - length before - 1 < length middle)) as [Hmid|Hlast].
    + rewrite lookup_app_l by done. by apply lookup_others.
    + rewrite lookup_app_r by lia.
      replace (_ - _ - _ - _) with 0 by lia.
      exists "". split; [done|]. congruence.
Qed.

(** Where the author is the last candidate, and nowhere else. *)
Lemma removeAuthor_last (before : list string) (w : World) :
  author ≠ "" → author ∉ before →
  Earlier.removeAuthor author (length (before ++ [author])) 0
    (before ++ [author]) (length (before ++ [author])) w
  = (Done before, w).
Proof.
  intros Hauthor Hbefore.
  assert (Hlen : length (before ++ [author]) = length before + 1).
  { rewrite length_app. simpl. lia. }
  rewrite Hlen at 1.
  rewrite removeAuthor_prefix.
  2:{ intros j Hj. rewrite lookup_app_l by lia.
      apply lookup_others; [done|lia]. }
  change (0 + length before) with (length before).
  rewrite (removeAuthor_hit _ _ _ _ author).
  2:{ rewrite lookup_app_r by lia. by replace (_ - _) with 0 by lia. }
  2:{ lia. }
  2:{ rewrite Hlen, lookup_app_r by lia. by replace (_ - _) with 0 by lia. }
  simpl. unfold_go. f_equal. f_equal.
  rewrite Hlen.
  replace (length before + 1 - 1) with (length before) by lia.
  replace (<[length before:=author]> (before ++ [author]))
    with (<[length before + 0:=author]> (before ++ [author]))
    by (by rewrite Nat.add_0_r).
  rewrite insert_app_r.
  replace (<[length before:=""]> (before ++ <[0:=author]> [author]))
    with (<[length before + 0:=""]> (before ++ <[0:=author]> [author]))
    by (by rewrite Nat.add_0_r).
  rewrite insert_app_r.
  apply take_app_length.
Qed.

End RemoveAuthor.

(** X15.  The loop of lines 379-385 on candidates that hold the author
    once: candidates without the author are returned as they are; an
    author who is the last candidate is removed; an author before the last
    candidate is replaced by the last candidate, the others keeping their
    places. *)
Theorem removeAuthor_once (author : string) (w : World) :
  (∀ allUsers,
     author ∉ allUsers →
     Earlier.removeAuthor author (length allUsers) 0 allUsers (length allUsers) w
       = (Done allUsers, w)) ∧
  (∀ before,
     author ≠ "" → author ∉ before →
     Earlier.removeAuthor author (length (before ++ [author])) 0
       (before ++ [author]) (length (before ++ [author])) w
       = (Done before, w)) ∧
  (∀ before middle z,
     author ≠ "" → author ∉ before → author ∉ middle → z ≠ author →
     Earlier.removeAuthor author (length (before ++ author :: middle ++ [z])) 0
       (before ++ author :: middle ++ [z])
       (length (before ++ author :: middle ++ [z])) w
       = (Done (before ++ z :: middle), w)).
Proof.
  split_and!.
  - intros allUsers Hnot. rewrite removeAuthor_skip.
    + by rewrite firstn_all.
    + intros j Hj. apply lookup_others; [done|lia].
  - intros before. apply removeAuthor_last.
  - intros before middle z Hauthor Hbefore Hmiddle _.
    by apply removeAuthor_replaced.
Qed.

Lemma removeAuthor_once_witness :
  Earlier.removeAuthor "d" (length (["a"] ++ "d" :: ["b"] ++ ["c"])) 0
    (["a"] ++ "d" :: ["b"] ++ ["c"])
    (length (["a"] ++ "d" :: ["b"] ++ ["c"])) (drawing [])
  = (Done (["a"] ++ "c" :: ["b"]), drawing []).
Proof.
  apply (proj2 (proj2 (removeAuthor_once "d" (drawing []))) ["a"] ["b"] "c").
  - done.
  - by intros [=]%list_elem_of_singleton.
  - by intros [=]%list_elem_of_singleton.
  - done.
Defined.

(** X16.  The loop of lines 379-385 does not always remove the author: when
    the author is also the last candidate, the first occurrence is
    replaced by the last, which is not examined again, and the author
    stays among the candidates. *)
Theorem removeAuthor_author_stays (author : string)
    (before middle : list string) (w : World) :
  author ≠ "" → author ∉ before → author ∉ middle →
  Earlier.removeAuthor author
    (length (before ++ author :: middle ++ [author])) 0
    (before ++ author :: middle ++ [author])
    (length (before ++ author :: middle ++ [author])) w
  = (Done (before ++ author :: middle), w).
Proof. intros. by apply removeAuthor_replaced. Qed.

Lemma removeAuthor_author_stays_witness :
  Earlier.removeAuthor "d" (length (["a"] ++ "d" :: ["b"] ++ ["d"])) 0
    (["a"] ++ "d" :: ["b"] ++ ["d"])
    (length (["a"] ++ "d" :: ["b"] ++ ["d"])) (drawing [])
  = (Done (["a"] ++ "d" :: ["b"]), drawing []).
Proof.
  apply (removeAuthor_author_stays "d" ["a"] ["b"] (drawing [])).
  - done.
  - by intros [=]%list_elem_of_singleton.
  - by intros [=]%list_elem_of_singleton.
Defined.

(** One removal takes one occurrence of the author out of the candidates
    and leaves the others. *)
Lemma removeAuthor_hit_Permutation (author : string) (i : nat)
    (arr : list string) (len : nat) (last : string) :
  arr !! i = Some author → i < len → arr !! (len - 1) = Some last →
  take len arr
    ≡ₚ author :: take (len - 1) (<[len - 1 := ""]> (<[i := last]> arr)).
Proof.
  intros Hu Hi Hlast.
  rewrite take_insert_ge by lia.
  replace len with (S (len - 1)) at 1 by lia.
  rewrite (take_S_r _ _ last) by done.
  destruct (decide (i = len - 1)) as [->|Hne].
  - assert (last = author) as -> by congruence.
    rewrite list_insert_id by done.
    symmetry. apply Permutation_cons_append.
  - rewrite take_insert_lt by lia.
    assert (Hi' : take (len - 1) arr !! i = Some author).
    { by rewrite lookup_take_lt by lia. }
    rewrite insert_take_drop by (by eapply lookup_lt_Some).
    rewrite <- (take_drop_middle _ _ _ Hi') at 1.
    set (a := take i (take (len - 1) arr)).
    set (b := drop (S i) (take (len - 1) arr)).
    rewrite <- Permutation_cons_append.
    rewrite <- !Permutation_middle.
    apply perm_swap.
Qed.

(** The loop from any of its states: the tail of the array past [len]
    holds empty strings, which are not the author. *)
Lemma removeAuthor_invariant (author : string) (todo : nat) :
  author ≠ "" →
  ∀ (i : nat) (arr : list string) (len : nat) (w : World),
    i + todo = length arr → len ≤ length arr →
    (∀ j, len ≤ j < length arr → arr !! j = Some "") →
    ∃ (k : nat) (allUsers : list string),
      Earlier.removeAuthor author todo i arr len w = (Done allUsers, w) ∧
      take len arr ≡ₚ replicate k author ++ allUsers ∧
      ((∃ j, i ≤ j < len ∧ arr !! j = Some author) → 0 < k).
Proof.
  intros Hauthor. induction todo as [|todo IH]; intros i arr len w Hi Hlen Htail.
  { exists 0, (take len arr). split_and!; [done|done|].
    intros (j & Hj & _). lia. }
  destruct (lookup_lt_is_Some_2 arr i) as [u Hu]; [lia|].
  destruct (decide (u = author)) as [->|Hne].
  - assert (Hilen : i < len).
    { destruct (decide (i < len)) as [|Hge]; [done|].
      rewrite Htail in Hu by lia. congruence. }
    destruct (lookup_lt_is_Some_2 arr (len - 1)) as [last Hlast]; [lia|].
    rewrite (removeAuthor_hit _ _ _ _ _ last) by done.
    destruct (IH (S i) (<[len - 1 := ""]> (<[i := last]> arr)) (len - 1) w)
      as (k & allUsers & Hrun & Hperm & _).
    + rewrite !length_insert. lia.
    + rewrite !length_insert. lia.
    + rewrite !length_insert. intros j Hj.
      destruct (decide (j = len - 1)) as [->|Hjne].
      * rewrite list_lookup_insert_eq; [done|]. rewrite length_insert. lia.
      * rewrite !list_lookup_insert_ne by lia. apply Htail. lia.
    + exists (S k), allUsers. split_and!; [done| |lia].
      rewrite (removeAuthor_hit_Permutation author i arr len last) by done.
      simpl. by rewrite Hperm.
  - rewrite (removeAuthor_other _ _ _ _ _ u) by done.
    destruct (IH (S i) arr len w) as (k & allUsers & Hrun & Hperm & Hk);
      [lia|done|done|].
    exists k, allUsers. split_and!; [done|done|].
    intros (j & Hj & Hat). apply Hk. exists j. split; [|done].
    destruct (decide (j = i)) as [->|]; [|lia]. congruence.
Qed.

(** X17.  The loop of lines 379-385, for an author whose login is not
    empty, never panics; what it leaves is the candidates less some
    occurrences of the author, at least one when the author is a candidate:
    no other candidate is lost, added or repeated. *)
Theorem removeAuthor_keeps_others (author : string) (allUsers : list string)
    (w : World) :
  author ≠ "" →
  ∃ (k : nat) (remaining : list string),
    Earlier.removeAuthor author (length allUsers) 0 allUsers (length allUsers) w
      = (Done remaining, w) ∧
    allUsers ≡ₚ replicate k author ++ remaining ∧
    (author ∈ allUsers → 0 < k).
Proof.
  intros Hauthor.
  destruct (removeAuthor_invariant author (length allUsers) Hauthor 0 allUsers
              (length allUsers) w) as (k & remaining & Hrun & Hperm & Hk).
  { done. }
  { done. }
  { intros j Hj. lia. }
  exists k, remaining. split_and!; [done| |].
  - by rewrite firstn_all in Hperm.
  - intros (j & Hat)%list_elem_of_lookup_1. apply Hk. exists j.
    split; [|done]. apply lookup_lt_Some in Hat. lia.
Qed.

Lemma removeAuthor_keeps_others_witness :
  ∃ (k : nat) (remaining : list string),
    Earlier.removeAuthor "d" (length ["d"; "a"; "d"; "b"]) 0
      ["d"; "a"; "d"; "b"] (length ["d"; "a"; "d"; "b"]) (drawing [])
      = (Done remaining, drawing []) ∧
    ["d"; "a"; "d"; "b"] ≡ₚ replicate k "d" ++ remaining ∧
    ("d" ∈ ["d"; "a"; "d"; "b"] → 0 < k).
Proof. apply (removeAuthor_keeps_others "d" ["d"; "a"; "d"; "b"]). done. Defined.

(** Once a removal has been made, an author whose login is empty is met
    again in the emptied slots, which are out of the bounds of the
    shortened slice. *)
Lemma removeAuthor_empty_shortened (todo : nat) :
  ∀ (i : nat) (arr : list string) (len : nat) (w : World),
    i + S todo = length arr → len < length arr →
    (∀ j, len ≤ j < length arr → arr !! j = Some "") →
    ∃ p, Earlier.removeAuthor "" (S todo) i arr len w = (Panicked p, w).
Proof.
  induction todo as [|todo IH]; intros i arr len w Hi Hlen Htail.
  - assert (Hu : arr !! i = Some "") by (apply Htail; lia).
    simpl. unfold_go. rewrite Hu. unfold_go.
    rewrite bool_decide_eq_true_2 by done.
    destruct (take len arr !! (len - 1)) as [last|]; unfold_go; [|by eexists].
    rewrite bool_decide_eq_false_2 by lia. by eexists.
  - destruct (lookup_lt_is_Some_2 arr i) as [u Hu]; [lia|].
    destruct (decide (u = "")) as [->|Hne].
    + destruct (decide (i < len)) as [Hilen|Hge].
      * destruct (lookup_lt_is_Some_2 arr (len - 1)) as [last Hlast]; [lia|].
        rewrite (removeAuthor_hit _ _ _ _ _ last) by done.
        apply IH.
        -- rewrite !length_insert. lia.
        -- rewrite !length_insert. lia.
        -- rewrite !length_insert. intros j Hj.
           destruct (decide (j = len - 1)) as [->|Hjne].
           ++ rewrite list_lookup_insert_eq; [done|]. rewrite length_insert. lia.
           ++ rewrite !list_lookup_insert_ne by lia. apply Htail. lia.
      * cbn [Earlier.removeAuthor]. unfold_go. rewrite Hu. unfold_go.
        rewrite bool_decide_eq_true_2 by done.
        destruct (take len arr !! (len - 1)) as [last|]; unfold_go; [|by eexists].
        rewrite bool_decide_eq_false_2 by lia. by eexists.
    + assert (i < len).
      { destruct (decide (i < len)) as [|Hge]; [done|].
        rewrite Htail in Hu by lia. congruence. }
      rewrite (removeAuthor_other _ _ _ _ _ u) by done.
      apply IH; [lia|done|done].
Qed.

Lemma removeAuthor_empty_whole (todo : nat) :
  ∀ (i : nat) (arr : list string) (w : World),
    i + todo = length arr →
    (∃ j, i ≤ j < length arr - 1 ∧ arr !! j = Some "") →
    ∃ p, Earlier.removeAuthor "" todo i arr (length arr) w = (Panicked p, w).
Proof.
  induction todo as [|todo IH]; intros i arr w Hi (j & Hj & Hat); [lia|].
  destruct (lookup_lt_is_Some_2 arr i) as [u Hu]; [lia|].
  destruct (decide (u = "")) as [->|Hne].
  - destruct (lookup_lt_is_Some_2 arr (length arr - 1)) as [last Hlast]; [lia|].
    rewrite (removeAuthor_hit _ _ _ _ _ last) by (done || lia).
    destruct todo as [|todo]; [lia|].
    apply removeAuthor_empty_shortened.
    + rewrite !length_insert. lia.
    + rewrite !length_insert. lia.
    + rewrite !length_insert. intros j' Hj'.
      assert (j' = length arr - 1) as -> by lia.
      rewrite list_lookup_insert_eq; [done|]. rewrite length_insert. lia.
  - rewrite (removeAuthor_other _ _ _ _ _ u) by done.
    apply IH; [lia|]. exists j. split; [|done].
    destruct (decide (j = i)) as [->|]; [|lia]. congruence.
Qed.

(** X18.  An author whose login is the empty string makes the loop of
    lines 379-385 panic whenever a candidate before the last one is the
    empty string too: the slot emptied by the removal is met again by the
    range over the original slice, out of the bounds of the shortened
    one. *)
Theorem removeAuthor_empty_author (allUsers : list string) (w : World) :
  "" ∈ take (length allUsers - 1) allUsers →
  ∃ p, Earlier.removeAuthor "" (length allUsers) 0 allUsers (length allUsers) w
       = (Panicked p, w).
Proof.
  intros (j & Hat)%list_elem_of_lookup_1.
  apply removeAuthor_empty_whole; [done|].
  exists j. pose proof (lookup_lt_Some _ _ _ Hat) as Hj.
  rewrite length_take in Hj. split; [lia|].
  rewrite lookup_take_lt in Hat by lia. done.
Qed.

Lemma removeAuthor_empty_author_witness :
  ∃ p, Earlier.removeAuthor "" (length [""; "a"]) 0 [""; "a"]
         (length [""; "a"]) (drawing [])
       = (Panicked p, drawing []).
Proof.
  apply (removeAuthor_empty_author [""; "a"] (drawing [])).
  apply list_elem_of_here.
Defined.

(** ** The candidates of a leaf in the earlier variant *)

(** The answer of a listing is the same in every world. *)
Lemma listPages_any_world (listPage : Z → result (list string * Z))
    (failed : error → Z → error)
    (each : list string → list string → result (list string))
    (fuel : nat) (Page : Z) (allUsers : list string) (w w0 : World) :
  Earlier.listPages fuel listPage failed each Page allUsers w
    = ((Earlier.listPages fuel listPage failed each Page allUsers w0).1, w).
Proof.
  revert Page allUsers.
  induction fuel as [|fuel IH]; intros Page allUsers; simpl; [done|].
  destruct (listPage Page) as [[users NextPage]|err]; [|done].
  destruct (each allUsers users) as [allUsers'|err]; [|done].
  case_bool_decide; [done|apply IH].
Qed.

Lemma listAllTeamMembers_any_world (fuel : nat) (client : Earlier.Client)
    (team : Earlier.Team) (w w0 : World) :
  Earlier.listAllTeamMembers fuel client team w
    = ((Earlier.listAllTeamMembers fuel client team w0).1, w).
Proof. apply listPages_any_world. Qed.

Lemma listAllOrgMembers_any_world (fuel : nat) (client : Earlier.Client)
    (org : string) (w w0 : World) :
  Earlier.listAllOrgMembers fuel client org w
    = ((Earlier.listAllOrgMembers fuel client org w0).1, w).
Proof. apply listPages_any_world. Qed.

Lemma listAllCollaborators_any_world (fuel : nat) (client : Earlier.Client)
    (org repo desiredPerm : string) (w w0 : World) :
  Earlier.listAllCollaborators fuel client org repo desiredPerm w
    = ((Earlier.listAllCollaborators fuel client org repo desiredPerm w0).1, w).
Proof. apply listPages_any_world. Qed.

(** Lines 334-350 append to the candidates, or leave them. *)
Lemma earlier_withTeamMembers_run (fuel : nat) (client : Earlier.Client)
    (child : Result) (allUsers : list string) (w : World) :
  match Earlier.withTeamMembers fuel client child allUsers w with
  | (Done found, _) => allUsers `prefix_of` found
  | _ => True
  end.
Proof.
  unfold Earlier.withTeamMembers. unfold_go.
  case_bool_decide as Hlen; [|done].
  rewrite Intn_pos by done.
  destruct (Earlier.RequestedTeams child !! _) as [randomTeam|]; [|done].
  unfold_go. cbn beta iota.
  destruct (Split randomTeam "/" !! 0) as [org|]; [|done].
  unfold_go. cbn beta iota.
  destruct (Split randomTeam "/" !! 1) as [slug|]; [|done].
  unfold_go. cbn beta iota.
  destruct (Earlier.GetTeamBySlug client org slug) as [team|err]; [|done].
  destruct (Earlier.listAllTeamMembers fuel client team _)
    as [[[teamMembers|err]|p|] w1]; [|done..].
  by apply prefix_app_r.
Qed.

(** Lines 352-359. *)
Lemma earlier_withOrganizationMembers_run (fuel : nat)
    (client : Earlier.Client) (child : Result) (allUsers : list string)
    (w w0 : World) :
  match Earlier.withOrganizationMembers fuel client child allUsers w with
  | (Done found, _) =>
      (Earlier.RequestedOrganizations child = [] ∧ found = Ok allUsers) ∨
      (∃ randomOrg listing,
         randomOrg ∈ Earlier.RequestedOrganizations child ∧
         (Earlier.listAllOrgMembers fuel client randomOrg w0).1 = Done listing ∧
         found = match listing with
                 | Ok orgMembers =>
                     Ok (Earlier.RequestedUsers child ++ orgMembers)
                 | Err err =>
                     Err (Wrap err ("Unable to get member listing for org "
                                    +:+ randomOrg))
                 end)
  | _ => True
  end.
Proof.
  unfold Earlier.withOrganizationMembers. case_bool_decide as Hlen.
  - unfold_go. rewrite Intn_pos by done.
    destruct (Earlier.RequestedOrganizations child !! _) as [randomOrg|] eqn:Horg;
      [|done].
    unfold_go. cbn beta iota.
    rewrite (listAllOrgMembers_any_world _ _ _ _ w0).
    destruct (Earlier.listAllOrgMembers fuel client randomOrg w0).1
      as [listing|p|] eqn:Hlisting; [|done..].
    destruct listing as [orgMembers|err]; right.
    + exists randomOrg, (Ok orgMembers).
      split_and!; [by eapply list_elem_of_lookup_2|done|done].
    + exists randomOrg, (Err err).
      split_and!; [by eapply list_elem_of_lookup_2|done|done].
  - unfold_go. left. split; [|done].
    destruct (Earlier.RequestedOrganizations child); [done|simpl in Hlen; lia].
Qed.

(** Lines 361-367 and 369-375. *)
Lemma earlier_withCollaborators_run (fuel : nat) (prctx : Earlier.Context)
    (client : Earlier.Client) (child : Result) (flag : bool)
    (desiredPerm : string) (allUsers : list string) (w w0 : World) :
  match Earlier.withCollaborators fuel prctx client child flag desiredPerm
          allUsers w with
  | (Done found, w') =>
      w' = w ∧
      ((flag = false ∧ found = Ok allUsers) ∨
       (∃ listing,
          flag = true ∧
          (Earlier.listAllCollaborators fuel client
             (Earlier.RepositoryOwner prctx) (Earlier.RepositoryName prctx)
             desiredPerm w0).1 = Done listing ∧
          found = match listing with
                  | Ok collaborators =>
                      Ok (Earlier.RequestedUsers child ++ collaborators)
                  | Err err => Err (Wrap err "Unable to get admin listing")
                  end))
  | _ => True
  end.
Proof.
  unfold Earlier.withCollaborators. destruct flag.
  - unfold_go. rewrite (listAllCollaborators_any_world _ _ _ _ _ _ w0).
    destruct (Earlier.listAllCollaborators fuel client _ _ desiredPerm w0).1
      as [listing|p|] eqn:Hlisting; [|done..].
    destruct listing; (split; [done|]); right; eexists; by split_and!.
  - unfold_go. split; [done|]. by left.
Qed.

(** X19.  The sources of a leaf do not add up in the earlier variant:
    lines 358, 366 and 374 append to the users of the rule, not to the
    candidates found so far.  The candidates of a leaf are the users of its
    rule followed by the members of the last source it asks for: the write
    collaborators; else the admins; else one of its organizations.  The
    members of a team are candidates of a leaf that asks for no other
    source only. *)
Theorem earlier_candidates_last_source (fuel : nat) (prctx : Earlier.Context)
    (client : Earlier.Client) (child : Result) (allUsers : list string)
    (w w' : World) :
  Earlier.candidates fuel prctx client child w = (Done (Ok allUsers), w') →
  Earlier.RequestedUsers child `prefix_of` allUsers ∧
  (Earlier.RequestedWriteCollaborators child = true →
   ∃ repoCollaborators,
     (Earlier.listAllCollaborators fuel client (Earlier.RepositoryOwner prctx)
        (Earlier.RepositoryName prctx) "write" w).1
       = Done (Ok repoCollaborators) ∧
     allUsers = Earlier.RequestedUsers child ++ repoCollaborators) ∧
  (Earlier.RequestedWriteCollaborators child = false →
   Earlier.RequestedAdmins child = true →
   ∃ repoAdmins,
     (Earlier.listAllCollaborators fuel client (Earlier.RepositoryOwner prctx)
        (Earlier.RepositoryName prctx) "admin" w).1
       = Done (Ok repoAdmins) ∧
     allUsers = Earlier.RequestedUsers child ++ repoAdmins) ∧
  (Earlier.RequestedWriteCollaborators child = false →
   Earlier.RequestedAdmins child = false →
   Earlier.RequestedOrganizations child ≠ [] →
   ∃ randomOrg orgMembers,
     randomOrg ∈ Earlier.RequestedOrganizations child ∧
     (Earlier.listAllOrgMembers fuel client randomOrg w).1
       = Done (Ok orgMembers) ∧
     allUsers = Earlier.RequestedUsers child ++ orgMembers).
Proof.
  unfold Earlier.candidates. unfold_go.
  pose proof (earlier_withTeamMembers_run fuel client child
                (Earlier.RequestedUsers child) w) as Hteam.
  destruct (Earlier.withTeamMembers fuel client child _ w)
    as [[found1|p|] w1]; [|done..].
  pose proof (earlier_withOrganizationMembers_run fuel client child found1 w1 w)
    as Horg.
  destruct (Earlier.withOrganizationMembers fuel client child found1 w1)
    as [[[found2|err]|p|] w2]; [|done..].
  pose proof (earlier_withCollaborators_run fuel prctx client child
                (Earlier.RequestedAdmins child) "admin" found2 w2 w) as Hadmin.
  destruct (Earlier.withCollaborators fuel prctx client child
              (Earlier.RequestedAdmins child) "admin" found2 w2)
    as [[[found3|err]|p|] w3]; [|done..].
  pose proof (earlier_withCollaborators_run fuel prctx client child
                (Earlier.RequestedWriteCollaborators child) "write" found3 w3 w)
    as Hwrite.
  destruct (Earlier.withCollaborators fuel prctx client child
              (Earlier.RequestedWriteCollaborators child) "write" found3 w3)
    as [[[found4|err]|p|] w4]; [|done..].
  intros [= -> ->].
  destruct Hadmin as [_ Hadmin]. destruct Hwrite as [_ Hwrite].
  assert (Hfound2 :
    (Earlier.RequestedOrganizations child = [] ∧ found2 = found1) ∨
    (∃ randomOrg orgMembers,
       randomOrg ∈ Earlier.RequestedOrganizations child ∧
       (Earlier.listAllOrgMembers fuel client randomOrg w).1
         = Done (Ok orgMembers) ∧
       found2 = Earlier.RequestedUsers child ++ orgMembers)).
  { destruct Horg as [[Hnone [= ->]]|(randomOrg & [ms|err] & Hin & Hrun & Hfound)];
      [by left| |done].
    right. exists randomOrg, ms. by simplify_eq. }
  assert (Hfound3 :
    (Earlier.RequestedAdmins child = false ∧ found3 = found2) ∨
    (∃ repoAdmins,
       Earlier.RequestedAdmins child = true ∧
       (Earlier.listAllCollaborators fuel client (Earlier.RepositoryOwner prctx)
          (Earlier.RepositoryName prctx) "admin" w).1 = Done (Ok repoAdmins) ∧
       found3 = Earlier.RequestedUsers child ++ repoAdmins)).
  { destruct Hadmin as [[Hnone [= ->]]|([cs|err] & Hflag & Hrun & Hfound)];
      [by left| |done].
    right. exists cs. by simplify_eq. }
  assert (Hfound4 :
    (Earlier.RequestedWriteCollaborators child = false ∧ allUsers = found3) ∨
    (∃ repoCollaborators,
       Earlier.RequestedWriteCollaborators child = true ∧
       (Earlier.listAllCollaborators fuel client (Earlier.RepositoryOwner prctx)
          (Earlier.RepositoryName prctx) "write" w).1
         = Done (Ok repoCollaborators) ∧
       allUsers = Earlier.RequestedUsers child ++ repoCollaborators)).
  { destruct Hwrite as [[Hnone [= ->]]|([cs|err] & Hflag & Hrun & Hfound)];
      [by left| |done].
    right. exists cs. by simplify_eq. }
  clear Horg Hadmin Hwrite.
  split_and!.
  - destruct Hfound4 as [[_ ->]|(cs & _ & _ & ->)]; [|by apply prefix_app_r].
    destruct Hfound3 as [[_ ->]|(cs & _ & _ & ->)]; [|by apply prefix_app_r].
    destruct Hfound2 as [[_ ->]|(org & ms & _ & _ & ->)]; [done|].
    by apply prefix_app_r.
  - intros Hflag.
    destruct Hfound4 as [[Hnone _]|(cs & _ & Hrun & ->)]; [congruence|].
    by exists cs.
  - intros Hwrite Hflag.
    destruct Hfound4 as [[_ ->]|(cs & Hset & _)]; [|congruence].
    destruct Hfound3 as [[Hnone _]|(cs & _ & Hrun & ->)]; [congruence|].
    by exists cs.
  - intros Hwrite Hadmin Horgs.
    destruct Hfound4 as [[_ ->]|(cs & Hset & _)]; [|congruence].
    destruct Hfound3 as [[_ ->]|(cs & Hset & _)]; [|congruence].
    destruct Hfound2 as [[Hnone _]|(org & ms & Hin & Hrun & ->)]; [done|].
    by exists org, ms.
Qed.

Lemma earlier_candidates_last_source_witness :
  Earlier.RequestedUsers teamAndAdmins `prefix_of` ["a"; "t2"] ∧
  (Earlier.RequestedWriteCollaborators teamAndAdmins = true →
   ∃ repoCollaborators,
     (Earlier.listAllCollaborators 5 twoPagesClient
        (Earlier.RepositoryOwner pullOfD) (Earlier.RepositoryName pullOfD)
        "write" (drawing [0])).1 = Done (Ok repoCollaborators) ∧
     ["a"; "t2"] = Earlier.RequestedUsers teamAndAdmins ++ repoCollaborators) ∧
  (Earlier.RequestedWriteCollaborators teamAndAdmins = false →
   Earlier.RequestedAdmins teamAndAdmins = true →
   ∃ repoAdmins,
     (Earlier.listAllCollaborators 5 twoPagesClient
        (Earlier.RepositoryOwner pullOfD) (Earlier.RepositoryName pullOfD)
        "admin" (drawing [0])).1 = Done (Ok repoAdmins) ∧
     ["a"; "t2"] = Earlier.RequestedUsers teamAndAdmins ++ repoAdmins) ∧
  (Earlier.RequestedWriteCollaborators teamAndAdmins = false →
   Earlier.RequestedAdmins teamAndAdmins = false →
   Earlier.RequestedOrganizations teamAndAdmins ≠ [] →
   ∃ randomOrg orgMembers,
     randomOrg ∈ Earlier.RequestedOrganizations teamAndAdmins ∧
     (Earlier.listAllOrgMembers 5 twoPagesClient randomOrg (drawing [0])).1
       = Done (Ok orgMembers) ∧
     ["a"; "t2"] = Earlier.RequestedUsers teamAndAdmins ++ orgMembers).
Proof.
  apply (earlier_candidates_last_source 5 pullOfD twoPagesClient teamAndAdmins
           ["a"; "t2"] (drawing [0]) (drawing [])).
  reflexivity.
Defined.

(** The selection of a leaf fails as the search of its candidates does. *)
Lemma earlier_leafSelection_error (fuel : nat) (prctx : Earlier.Context)
    (client : Earlier.Client) (child : Result) (err : error) (w w' : World) :
  Earlier.leafSelection fuel prctx client child w = (Done (Err err), w') →
  Earlier.candidates fuel prctx client child w = (Done (Err err), w').
Proof.
  unfold Earlier.leafSelection. unfold_go.
  destruct (Earlier.candidates fuel prctx client child w)
    as [[[allUsers|err']|p|] w1]; [|by intros [= -> ->]|done..].
  destruct (Earlier.removeAuthor _ _ _ _ _ w1) as [[remaining|p|] w2]; [|done..].
  destruct (Earlier.selectRandomUsers _ _ _ w2) as [[selection|p|] w3]; done.
Qed.

(** The errors of the search of the candidates. *)
Lemma earlier_candidates_error (fuel : nat) (prctx : Earlier.Context)
    (client : Earlier.Client) (child : Result) (err : error) (w w' w0 : World) :
  Earlier.candidates fuel prctx client child w = (Done (Err err), w') →
  (∃ randomOrg cause,
     randomOrg ∈ Earlier.RequestedOrganizations child ∧
     (Earlier.listAllOrgMembers fuel client randomOrg w0).1 = Done (Err cause) ∧
     err = Wrap cause ("Unable to get member listing for org " +:+ randomOrg)) ∨
  (∃ desiredPerm cause,
     (desiredPerm = "admin" ∧ Earlier.RequestedAdmins child = true ∨
      desiredPerm = "write" ∧ Earlier.RequestedWriteCollaborators child = true) ∧
     (Earlier.listAllCollaborators fuel client (Earlier.RepositoryOwner prctx)
        (Earlier.RepositoryName prctx) desiredPerm w0).1 = Done (Err cause) ∧
     err = Wrap cause "Unable to get admin listing").
Proof.
  unfold Earlier.candidates. unfold_go.
  destruct (Earlier.withTeamMembers fuel client child _ w)
    as [[found1|p|] w1]; [|done..].
  pose proof (earlier_withOrganizationMembers_run fuel client child found1 w1 w0)
    as Horg.
  destruct (Earlier.withOrganizationMembers fuel client child found1 w1)
    as [[[found2|err2]|p|] w2]; [| |done..].
  2:{ intros [= -> ->]. left.
      destruct Horg as [[_ [=]]|(randomOrg & [ms|cause] & Hin & Hrun & Hfound)];
        [done|].
      exists randomOrg, cause. by simplify_eq. }
  pose proof (earlier_withCollaborators_run fuel prctx client child
                (Earlier.RequestedAdmins child) "admin" found2 w2 w0) as Hadmin.
  destruct (Earlier.withCollaborators fuel prctx client child
              (Earlier.RequestedAdmins child) "admin" found2 w2)
    as [[[found3|err3]|p|] w3]; [| |done..].
  2:{ intros [= -> ->]. right.
      destruct Hadmin as [_ [[_ [=]]|([cs|cause] & Hflag & Hrun & Hfound)]];
        [done|].
      exists "admin", cause. split_and!; [by left|done|by simplify_eq]. }
  pose proof (earlier_withCollaborators_run fuel prctx client child
                (Earlier.RequestedWriteCollaborators child) "write" found3 w3 w0)
    as Hwrite.
  destruct (Earlier.withCollaborators fuel prctx client child
              (Earlier.RequestedWriteCollaborators child) "write" found3 w3)
    as [[[found4|err4]|p|] w4]; [done| |done..].
  intros [= -> ->]. right.
  destruct Hwrite as [_ [[_ [=]]|([cs|cause] & Hflag & Hrun & Hfound)]];
    [done|].
  exists "write", cause. split_and!; [by right|done|by simplify_eq].
Qed.

Lemma earlier_rangeLeaves_error (fuel : nat) (prctx : Earlier.Context)
    (client : Earlier.Client) (pendingLeafNodes : list Result) :
  ∀ (requestedUsers users : list string) (err : error) (w w' : World),
    Earlier.rangeLeaves fuel prctx client pendingLeafNodes requestedUsers w
      = (Done (users, Some err), w') →
    users = [] ∧
    ∃ child w1 w2,
      child ∈ pendingLeafNodes ∧
      Earlier.leafSelection fuel prctx client child w1 = (Done (Err err), w2).
Proof.
  induction pendingLeafNodes as [|child rest IH];
    intros requestedUsers users err w w'; [done|].
  cbn [Earlier.rangeLeaves]. unfold_go.
  destruct (Earlier.leafSelection fuel prctx client child w)
    as [[[randomSelection|err']|p|] w1] eqn:Hleaf; [| |done..].
  - intros Hrest. destruct (IH _ _ _ _ _ Hrest) as (-> & c & v1 & v2 & Hin & Hc).
    split; [done|]. exists c, v1, v2. split; [by right|done].
  - intros [= <- <- <-]. split; [done|].
    exists child, w, w1. split; [by left|done].
Qed.

(** X20.  The earlier [FindRandomRequesters] returns an error with no
    user, and for two reasons only: the listing of the members of an
    organization of a pending leaf failed, or the listing of the
    collaborators of the repository did, for a leaf that asks for the
    admins or for the write collaborators; the message says
    [Unable to get admin listing] for both levels.  No failure about a team
    is returned. *)
Theorem earlier_FindRandomRequesters_error (fuel : nat)
    (prctx : Earlier.Context) (client : Earlier.Client) (result : Result)
    (users : list string) (err : error) (w w' : World) :
  Earlier.FindRandomRequesters fuel prctx client result w
    = (Done (users, Some err), w') →
  users = [] ∧
  ∃ child,
    child ∈ findLeafChildren result ∧
    ((∃ randomOrg cause,
        randomOrg ∈ Earlier.RequestedOrganizations child ∧
        (Earlier.listAllOrgMembers fuel client randomOrg w).1
          = Done (Err cause) ∧
        err = Wrap cause ("Unable to get member listing for org "
                          +:+ randomOrg)) ∨
     (∃ desiredPerm cause,
        (desiredPerm = "admin" ∧ Earlier.RequestedAdmins child = true ∨
         desiredPerm = "write" ∧
         Earlier.RequestedWriteCollaborators child = true) ∧
        (Earlier.listAllCollaborators fuel client
           (Earlier.RepositoryOwner prctx) (Earlier.RepositoryName prctx)
           desiredPerm w).1 = Done (Err cause) ∧
        err = Wrap cause "Unable to get admin listing")).
Proof.
  unfold Earlier.FindRandomRequesters. intros Hrun.
  destruct (earlier_rangeLeaves_error _ _ _ _ _ _ _ _ _ Hrun)
    as (-> & child & w1 & w2 & Hin & Hleaf).
  split; [done|]. exists child. split; [done|].
  apply earlier_leafSelection_error in Hleaf.
  by eapply earlier_candidates_error.
Qed.

Lemma earlier_FindRandomRequesters_error_witness :
  @nil string = [] ∧
  ∃ child,
    child ∈ findLeafChildren userAndOrganization ∧
    ((∃ randomOrg cause,
        randomOrg ∈ Earlier.RequestedOrganizations child ∧
        (Earlier.listAllOrgMembers 5 twoPagesClient randomOrg (drawing [0])).1
          = Done (Err cause) ∧
        Wrap (Wrap (errorString "server error")
                ("failed to list members of org org page " +:+ pretty 2%Z))
          "Unable to get member listing for org org"
        = Wrap cause ("Unable to get member listing for org "
                      +:+ randomOrg)) ∨
     (∃ desiredPerm cause,
        (desiredPerm = "admin" ∧ Earlier.RequestedAdmins child = true ∨
         desiredPerm = "write" ∧
         Earlier.RequestedWriteCollaborators child = true) ∧
        (Earlier.listAllCollaborators 5 twoPagesClient
           (Earlier.RepositoryOwner pullOfD) (Earlier.RepositoryName pullOfD)
           desiredPerm (drawing [0])).1 = Done (Err cause) ∧
        Wrap (Wrap (errorString "server error")
                ("failed to list members of org org page " +:+ pretty 2%Z))
          "Unable to get member listing for org org"
        = Wrap cause "Unable to get admin listing")).
Proof.
  apply (earlier_FindRandomRequesters_error 5 pullOfD twoPagesClient
           userAndOrganization [] _ (drawing [0]) (drawing [])).
  vm_compute. reflexivity.
Defined.
